(** * The internal Markdown link checker, [scripts/check_internal_links.py]

    A shallow embedding of the script and of the library calls it makes
    ([str] methods, [re.finditer], [os.path], [os.walk]), followed by the
    properties of the link checker.

    Conventions of the model.
    - A Python [str] is a list of Unicode code points ([N]).
    - The file system is a tree of directories and files; a directory keeps
      its entries in the order [os.scandir] lists them, and whether
      [os.scandir] can list it at all ([os.walk] passes over a directory
      it cannot list).  There are no symbolic links and no special files.
    - A file carries the text [f.read()] returns, or nothing when
      [open]/[read] raises (permissions, invalid UTF-8).
    - The walk of the model is not bounded in depth.  [os.walk] calls
      itself once for each level up to Python 3.11 and raises
      [RecursionError] near 1000 levels: the properties that say a run
      gets to a document or to its end are stated for trees of depth
      [walk_budget] at most.

    The two other scripts of the directory, [append_prompt_history.py] and
    [normalize_docs.py], are embedded after the link checker, on the same
    strings and the same file system; what they write is kept as a log of
    (path, text) pairs, and a function [can_write] says for which paths
    opening for writing succeeds.  A [write] to an open file raises when
    the text cannot be encoded, and only then. *)

From Stdlib Require Import Ascii String DecimalString.
From Stdlib Require Import List NArith Bool Arith Lia.
Import ListNotations.

(** ** Python strings *)

Definition char := N.
Definition str := list char.

(** A literal of the source, as a list of code points. *)
Definition lit (s : string) : str := map N_of_ascii (list_ascii_of_string s).

Definition chr (a : ascii) : char := N_of_ascii a.

Fixpoint str_eqb (a b : str) : bool :=
  match a, b with
  | [], [] => true
  | x :: a', y :: b' => (x =? y)%N && str_eqb a' b'
  | _, _ => false
  end.

(** [s.startswith(prefix)] *)
Fixpoint startswith (s prefix : str) {struct prefix} : bool :=
  match prefix with
  | [] => true
  | p :: prefix' =>
      match s with
      | [] => false
      | c :: s' => (c =? p)%N && startswith s' prefix'
      end
  end.

(** [s.endswith(suffix)] *)
Definition endswith (s suffix : str) : bool :=
  startswith (rev s) (rev suffix).

Fixpoint dropwhile (p : char -> bool) (s : str) : str :=
  match s with
  | [] => []
  | c :: s' => if p c then dropwhile p s' else s
  end.

Fixpoint takewhile (p : char -> bool) (s : str) : str :=
  match s with
  | [] => []
  | c :: s' => if p c then c :: takewhile p s' else []
  end.

(** [c.isspace()]: the code points CPython's [Py_UNICODE_ISSPACE] accepts. *)
Definition isspace (c : char) : bool :=
  ((9 <=? c) && (c <=? 13) || (28 <=? c) && (c <=? 32)
   || (c =? 133) || (c =? 160) || (c =? 5760)
   || (8192 <=? c) && (c <=? 8202)
   || (c =? 8232) || (c =? 8233) || (c =? 8239) || (c =? 8287)
   || (c =? 12288))%N.

(** [s.strip()] *)
Definition lstrip (s : str) : str := dropwhile isspace s.
Definition rstrip (s : str) : str := rev (dropwhile isspace (rev s)).
Definition strip (s : str) : str := rstrip (lstrip s).

(** [s.lstrip(c)] and [s.rstrip(c)] for a one-character argument. *)
Definition lstrip_char (c : char) (s : str) : str :=
  dropwhile (N.eqb c) s.
Definition rstrip_char (c : char) (s : str) : str :=
  rev (dropwhile (N.eqb c) (rev s)).

(** [s.split(c, 1)[0]]: the text before the first [c], all of [s] when
    there is none. *)
Definition split_first (c : char) (s : str) : str :=
  takewhile (fun x => negb (x =? c)%N) s.

(** [s.split(sep)] for a one-character separator. *)
Fixpoint split (sep : char) (s : str) : list str :=
  match s with
  | [] => [[]]
  | c :: s' =>
      if (c =? sep)%N then [] :: split sep s'
      else match split sep s' with
           | h :: t => (c :: h) :: t
           | [] => [[c]]
           end
  end.

(** [sep.join(comps)] *)
Fixpoint join_with (sep : str) (comps : list str) : str :=
  match comps with
  | [] => []
  | [c] => c
  | c :: rest => c ++ sep ++ join_with sep rest
  end.

(** [str(n)] for a non-negative [int]. *)
Definition str_of_nat (n : nat) : str :=
  lit (NilEmpty.string_of_uint (Nat.to_uint n)).

(** ** [posixpath] *)

Definition sep : char := chr "/".

(** [os.path.join(a, b)] *)
Definition path_join (a b : str) : str :=
  if startswith b [sep] || str_eqb a [] then b
  else if endswith a [sep] then a ++ b
  else a ++ [sep] ++ b.

(** One iteration of the loop of [os.path.normpath] over the components. *)
Definition normpath_step (initial_slashes : nat) (new_comps : list str)
    (comp : str) : list str :=
  if str_eqb comp [] || str_eqb comp (lit ".") then new_comps
  else if negb (str_eqb comp (lit ".."))
          || ((initial_slashes =? 0) && (length new_comps =? 0))
          || (negb (length new_comps =? 0)
              && str_eqb (last new_comps []) (lit ".."))
       then new_comps ++ [comp]
       else removelast new_comps.

(** [os.path.normpath(path)] *)
Definition normpath (path : str) : str :=
  if str_eqb path [] then lit "."
  else
    let initial_slashes :=
      if startswith path [sep] then
        if startswith path [sep; sep] && negb (startswith path [sep; sep; sep])
        then 2 else 1
      else 0 in
    let comps := fold_left (normpath_step initial_slashes) (split sep path) [] in
    let path' := repeat sep initial_slashes ++ join_with [sep] comps in
    if str_eqb path' [] then lit "." else path'.

(** The position just after the last [/] of [p] ([p.rfind('/') + 1]),
    counted from the left. *)
Definition after_last_sep (p : str) : nat :=
  length p - length (takewhile (fun x => negb (x =? sep)%N) (rev p)).

(** [os.path.dirname(p)] *)
Definition dirname (p : str) : str :=
  let head := firstn (after_last_sep p) p in
  if negb (str_eqb head []) && negb (str_eqb head (repeat sep (length head)))
  then rstrip_char sep head
  else head.

(** ** [re]: the fragment of regular expressions [link_re] is written in

    A pattern is a sequence of items; an item is one character of a class,
    a greedy repetition of a class, or such an item inside the capturing
    group.  Matching backtracks as [re] does: a repetition first takes as
    many characters as it can and gives them back one at a time while the
    rest of the pattern fails. *)

Inductive cset :=
| Only (c : char)       (* a literal character, as in [\[] *)
| AllBut (c : char).    (* a negated class, as in [[^\]]] *)

Definition cset_mem (cs : cset) (x : char) : bool :=
  match cs with
  | Only c => (x =? c)%N
  | AllBut c => negb (x =? c)%N
  end.

Inductive atom :=
| One (cs : cset)
| Star (cs : cset)
| Plus (cs : cset).

Inductive item :=
| Atom (a : atom)
| Group (a : atom).

Definition regex := list item.

(** The result of a match: the text of group 1 and the text left after the
    match. *)
Definition match_result := option (str * str).

Fixpoint m_star (cs : cset) (k : str -> match_result) (s : str)
  : match_result :=
  match s with
  | c :: s' =>
      if cset_mem cs c then
        match m_star cs k s' with
        | Some r => Some r
        | None => k s
        end
      else k s
  | [] => k s
  end.

Definition m_atom (a : atom) (k : str -> match_result) (s : str)
  : match_result :=
  match a with
  | One cs =>
      match s with
      | c :: s' => if cset_mem cs c then k s' else None
      | [] => None
      end
  | Star cs => m_star cs k s
  | Plus cs =>
      match s with
      | c :: s' => if cset_mem cs c then m_star cs k s' else None
      | [] => None
      end
  end.

Fixpoint m_items (p : regex) (group1 : str) (s : str) : match_result :=
  match p with
  | [] => Some (group1, s)
  | Atom a :: p' => m_atom a (m_items p' group1) s
  | Group a :: p' =>
      m_atom a (fun rest => m_items p' (firstn (length s - length rest) s) rest) s
  end.

(** [p.match(s)], anchored at the start of [s]. *)
Definition re_match (p : regex) (s : str) : match_result := m_items p [] s.

(** [[m.group(1) for m in p.finditer(s)]]: the matches from left to right,
    without overlap.  [skip] counts the characters of the current match
    still to pass over.  (For patterns that match no empty text, as
    [link_re].) *)
Fixpoint finditer_from (p : regex) (skip : nat) (s : str) : list str :=
  match s with
  | [] => []
  | _ :: s' =>
      match skip with
      | S n => finditer_from p n s'
      | O =>
          match re_match p s with
          | Some (g, rest) =>
              g :: finditer_from p (length s - length rest - 1) s'
          | None => finditer_from p 0 s'
          end
      end
  end.

Definition finditer (p : regex) (s : str) : list str := finditer_from p 0 s.

(** ** The file system *)

Unset Elimination Schemes.
Inductive node :=
| File (content : option str)
| Dir (listable : bool) (entries : list (str * node)).
Set Elimination Schemes.

(** The whole file system from [/], and the working directory of the
    process as the names from [/] down. *)
Record world := World { fs_root : node; fs_cwd : list str }.

(** The entry called [name] of a directory. *)
Fixpoint child (entries : list (str * node)) (name : str) : option node :=
  match entries with
  | [] => None
  | (n, x) :: rest => if str_eqb n name then Some x else child rest name
  end.

(** A place in the tree: the node and its ancestors, nearest first. *)
Definition place := (list node * node)%type.

(** One component of a path, as the kernel resolves it: every component
    is looked up in a directory; the empty component and [.] stay, [..]
    goes to the parent ([/] is its own parent).  Looking a name up does
    not list the directory. *)
Definition resolve_step (at_ : option place) (comp : str) : option place :=
  match at_ with
  | Some (up, Dir listable entries) =>
      if str_eqb comp [] || str_eqb comp (lit ".") then at_
      else if str_eqb comp (lit "..") then
        match up with
        | [] => at_
        | parent :: up' => Some (up', parent)
        end
      else
        match child entries comp with
        | Some x => Some (Dir listable entries :: up, x)
        | None => None
        end
  | _ => None
  end.

Definition cwd_place (w : world) : option place :=
  fold_left resolve_step (fs_cwd w) (Some ([], fs_root w)).

(** What [os.stat(path)] finds; the empty path names nothing. *)
Definition resolve (w : world) (path : str) : option node :=
  if str_eqb path [] then None
  else
    let start := if startswith path [sep] then Some ([], fs_root w)
                 else cwd_place w in
    option_map snd (fold_left resolve_step (split sep path) start).

(** [os.path.isfile(path)] *)
Definition isfile (w : world) (path : str) : bool :=
  match resolve w path with
  | Some (File _) => true
  | _ => false
  end.

(** [os.path.isdir(path)] *)
Definition isdir (w : world) (path : str) : bool :=
  match resolve w path with
  | Some (Dir _ _) => true
  | _ => false
  end.

(** The [files] list [os.walk] yields for a directory: its entries that
    are no directories, in listing order, here with what reading them
    gives. *)
Fixpoint walk_files (entries : list (str * node)) : list (str * option str) :=
  match entries with
  | [] => []
  | (n, File c) :: rest => (n, c) :: walk_files rest
  | (_, Dir _ _) :: rest => walk_files rest
  end.

(** ** The script *)

Definition ROOT : str := lit ".".

Definition skip_dirs : list str := [lit ".git"; lit "node_modules"; lit "db"].

(** [d in skip_dirs] *)
Definition in_skip_dirs (d : str) : bool := existsb (str_eqb d) skip_dirs.

Definition link_re : regex :=
  [ Atom (One (Only (chr "[")));
    Atom (Star (AllBut (chr "]")));
    Atom (One (Only (chr "]")));
    Atom (One (Only (chr "(")));
    Group (Plus (AllBut (chr ")")));
    Atom (One (Only (chr ")"))) ].

(** The two accumulators of the script, [checked] and [missing], and a
    log of the paths given to [open], oldest first (the log is not in the
    source: it records the calls). *)
Record state := State {
  checked : nat;
  missing : list (str * str * str);
  opened : list str
}.

Definition initial : state := State 0 [] [].

(** The outcome of a loop that may raise: [Raised] carries the state at
    the time of the exception. *)
Inductive outcome :=
| Done (st : state)
| Raised (st : state).

Definition bind (o : outcome) (k : state -> outcome) : outcome :=
  match o with
  | Done st => k st
  | Raised st => Raised st
  end.

Notation "x <- c ;; k" := (bind c (fun x => k))
  (at level 61, c at next level, right associativity).

Definition state_of (o : outcome) : state :=
  match o with
  | Done st => st
  | Raised st => st
  end.

(** First test of the loop body: the external schemes. *)
Definition is_external (target : str) : bool :=
  startswith target (lit "http://") || startswith target (lit "https://")
  || startswith target (lit "mailto:") || startswith target (lit "javascript:").

(** The skip rules of the loop body, in the order of the source: the
    three classes the body leaves with [continue], and the links it goes
    on with, with their [path]. *)
Inductive link_class :=
| External
| Image
| Anchor
| Internal (path : str).

Definition classify (target : str) : link_class :=
  if is_external target then External
  else if startswith target (lit "!") then Image
  else
    let path := split_first (chr "#") target in
    if str_eqb path [] || startswith path (lit "#") then Anchor
    else Internal path.

(** The [candidate] of the loop body. *)
Definition candidate_of (dirpath path : str) : str :=
  if startswith path [sep] then
    normpath (path_join ROOT (lstrip_char sep path))
  else
    normpath (path_join dirpath path).

(** The [exists] flag of the loop body. *)
Definition link_exists (w : world) (candidate : str) : bool :=
  if isfile w candidate then true
  else if isfile w (candidate ++ lit ".md") then true
  else if isdir w candidate && isfile w (path_join candidate (lit "README.md"))
       then true
  else false.

(** The body of [for m in link_re.finditer(txt)], on [m.group(1)]. *)
Definition check_link (w : world) (dirpath fp group1 : str) (st : state)
  : state :=
  let target := strip group1 in
  match classify target with
  | Internal path =>
      let candidate := candidate_of dirpath path in
      let exists_ := link_exists w candidate in
      let st' := State (checked st + 1) (missing st) (opened st) in
      if negb exists_ then
        State (checked st') (missing st' ++ [(fp, target, candidate)])
              (opened st')
      else st'
  | _ => st
  end.

(** [for m in link_re.finditer(txt)] *)
Definition scan_text (w : world) (dirpath fp txt : str) (st : state) : state :=
  fold_left (fun s g => check_link w dirpath fp g s) (finditer link_re txt) st.

(** The body of [for fn in files]. *)
Definition scan_file (w : world) (dirpath : str) (file : str * option str)
    (st : state) : outcome :=
  let (fn, content) := file in
  if negb (endswith fn (lit ".md")) then Done st
  else
    let fp := path_join dirpath fn in
    let st' := State (checked st) (missing st) (opened st ++ [fp]) in
    match content with
    | None => Raised st'
    | Some txt =>
        Done (scan_text w dirpath fp txt st')
    end.

Fixpoint scan_files (w : world) (dirpath : str)
    (files : list (str * option str)) (st : state) : outcome :=
  match files with
  | [] => Done st
  | f :: rest =>
      st' <- scan_file w dirpath f st ;;
      scan_files w dirpath rest st'
  end.

(** [for dirpath, dirs, files in os.walk(top)] with the body of the
    script, [top] being the path of [dir]: the files of this directory
    first, then each sub-directory that [dirs[:] = ...] keeps, in listing
    order.  [os.walk] yields nothing for a [top] that is no directory, and
    nothing for one that [os.scandir] cannot list (its [onerror] is
    [None]). *)
Fixpoint walk (w : world) (top : str) (dir : node) (st : state)
    {struct dir} : outcome :=
  match dir with
  | File _ => Done st
  | Dir false _ => Done st
  | Dir true entries =>
      st1 <- scan_files w top (walk_files entries) st ;;
      (fix subdirs (es : list (str * node)) (st : state) {struct es}
         : outcome :=
         match es with
         | [] => Done st
         | (d, x) :: es' =>
             match x with
             | Dir _ _ =>
                 if in_skip_dirs d then subdirs es' st
                 else
                   st' <- walk w (path_join top d) x st ;;
                   subdirs es' st'
             | File _ => subdirs es' st
             end
         end) entries st1
  end.

(** The loop of the script from [ROOT]; [os.walk] yields nothing when
    [ROOT] is not a directory. *)
Definition scan (w : world) : outcome :=
  match cwd_place w with
  | Some (_, dir) => walk w ROOT dir initial
  | None => Done initial
  end.

Definition nl : char := 10%N.

(** [print(s)] appends [s] and a newline to the standard output. *)
Definition print (s : str) (out : str) : str := out ++ s ++ [nl].

(** How the process ends: [sys.exit(status)] after writing [stdout], or
    an exception nobody catches. *)
Inductive ending :=
| Exit (stdout : str) (status : N)
| Traceback.

Definition failure_line (m : str * str * str) : str :=
  let '(src, target, cand) := m in
  lit "In " ++ src ++ lit ": -> " ++ target ++ lit "  (resolved: " ++ cand
  ++ lit ")".

(** The end of the script, from [if not missing:]. *)
Definition report (st : state) : ending :=
  match missing st with
  | [] =>
      Exit (print (lit "Checked " ++ str_of_nat (checked st)
                   ++ lit " links: no missing internal markdown links found.")
                  [])
           0
  | _ :: _ =>
      let out :=
        print (lit "Checked " ++ str_of_nat (checked st) ++ lit " links: "
               ++ str_of_nat (length (missing st))
               ++ lit " missing internal links:" ++ [nl]) [] in
      Exit (fold_left (fun o m => print (failure_line m) o) (missing st) out) 2
  end.

Definition main (w : world) : ending :=
  match scan w with
  | Done st => report st
  | Raised _ => Traceback
  end.

(** The sub-directory loop of [walk], as a function of its own. *)
Fixpoint walk_subdirs (w : world) (top : str) (es : list (str * node))
    (st : state) : outcome :=
  match es with
  | [] => Done st
  | (d, x) :: es' =>
      match x with
      | Dir _ _ =>
          if in_skip_dirs d then walk_subdirs w top es' st
          else
            st' <- walk w (path_join top d) x st ;;
            walk_subdirs w top es' st'
      | File _ => walk_subdirs w top es' st
      end
  end.

(** ** Vocabulary of the properties *)

(** What [link_re] matches at the start of [s], read off the pattern: a
    [[], the characters up to the next []], then [](], the characters up to
    the next [)], at least one, and that [)]. *)
Definition link_at (s : str) : match_result :=
  match s with
  | c :: r =>
      if (c =? chr "[")%N then
        match dropwhile (cset_mem (AllBut (chr "]"))) r with
        | c1 :: c2 :: r2 =>
            if (c1 =? chr "]")%N && (c2 =? chr "(")%N then
              match takewhile (cset_mem (AllBut (chr ")"))) r2,
                    dropwhile (cset_mem (AllBut (chr ")"))) r2 with
              | g :: gs, _ :: rest => Some (g :: gs, rest)
              | _, _ => None
              end
            else None
        | _ => None
        end
      else None
  | [] => None
  end.

(** The groups [finditer] yields in [pre] when it scans [pre ++ rest],
    if the scan comes to [rest] between two matches: no match that starts
    in [pre] runs into [rest].  [skip] is as in [finditer_from]. *)
Fixpoint matches_before (p : regex) (skip : nat) (pre rest : str)
  : option (list str) :=
  match pre with
  | [] => if skip =? 0 then Some [] else None
  | _ :: pre' =>
      match skip with
      | S n => matches_before p n pre' rest
      | O =>
          match re_match p (pre ++ rest) with
          | Some (g, r) =>
              option_map (cons g)
                (matches_before p (length (pre ++ rest) - length r - 1)
                   pre' rest)
          | None => matches_before p 0 pre' rest
          end
      end
  end.

(** [c] does not occur in [s]. *)
Definition lacks (c : char) (s : str) : bool := forallb (fun x => negb (x =? c)%N) s.

(** A name a directory entry can have: not empty, no [/]. *)
Definition valid_name (n : str) : bool := negb (str_eqb n []) && lacks sep n.

(** Every entry of the tree has a valid name. *)
Fixpoint wf_node (n : node) : bool :=
  match n with
  | File _ => true
  | Dir _ es =>
      (fix all (es : list (str * node)) : bool :=
         match es with
         | [] => true
         | (nm, x) :: es' => valid_name nm && wf_node x && all es'
         end) es
  end.

Definition wf_entries (es : list (str * node)) : bool :=
  forallb (fun e => valid_name (fst e) && wf_node (snd e)) es.

(** The node a place holds. *)
Definition at_node (x : option place) : option node := option_map snd x.

(** The scanned tree, the directory the process runs in. *)
Definition scanned (w : world) : option node := at_node (cwd_place w).

Definition wf_world (w : world) : bool :=
  match scanned w with
  | Some dir => wf_node dir
  | None => true
  end.

(** The path [os.walk] builds for the file [fn] in the directories [dirs]
    below [ROOT]. *)
Definition walk_path (dirs : list str) (fn : str) : str :=
  path_join (fold_left path_join dirs ROOT) fn.

(** The tree without the contents of its files, and without what
    [os.scandir] can list. *)
Fixpoint shape (n : node) : node :=
  match n with
  | File _ => File None
  | Dir _ es =>
      Dir true ((fix all (es : list (str * node)) : list (str * node) :=
              match es with
              | [] => []
              | (nm, x) :: es' => (nm, shape x) :: all es'
              end) es)
  end.

(** [path] names a regular file. *)
Definition regular_file (w : world) (path : str) : Prop :=
  exists content, resolve w path = Some (File content).

(** [path] names a directory that has a regular file [README.md]. *)
Definition dir_with_readme (w : world) (path : str) : Prop :=
  exists listable entries content,
    resolve w path = Some (Dir listable entries)
    /\ child entries (lit "README.md") = Some (File content).

(** The resolution rule as the documentation words it: a path with a
    leading [/] loses its leading slashes and is taken from the scan root,
    any other path is taken from the directory of the document. *)
Definition candidate_spec (root docdir path : str) : str :=
  match path with
  | c :: _ =>
      if (c =? sep)%N then normpath (path_join root (dropwhile (N.eqb sep) path))
      else normpath (path_join docdir path)
  | [] => normpath (path_join docdir path)
  end.

(** The failure lines of the report, one per entry, each ended by a
    newline. *)
Definition failure_lines (ms : list (str * str * str)) : str :=
  concat (map (fun m => failure_line m ++ [nl]) ms).

(** Directory names the walk goes into. *)
Definition kept_dirs (dirs : list str) : Prop :=
  Forall (fun d => in_skip_dirs d = false) dirs.

(** A path the walk can be at: [.] followed by directory names it keeps. *)
Definition walked_dir (top : str) : Prop :=
  top <> [] /\ endswith top [sep] = false
  /\ exists dirs, split sep top = lit "." :: dirs /\ kept_dirs dirs.

(** A path the walk can open: a [.md] file in such a directory. *)
Definition walked_file (fp : str) : Prop :=
  endswith fp (lit ".md") = true
  /\ exists dirs fn, split sep fp = lit "." :: dirs ++ [fn] /\ kept_dirs dirs.

Definition shape_entries (es : list (str * node)) : list (str * node) :=
  map (fun e => (fst e, shape (snd e))) es.

Definition place_shape (x : place) : place := (map shape (fst x), shape (snd x)).

(** The links the loop body does not leave with [continue]. *)
Definition survives (g : str) : bool :=
  match classify (strip g) with
  | Internal _ => true
  | _ => false
  end.

(** A failure whose candidate is the one the resolution rule gives for
    its document and target. *)
Definition resolved_by_rule (m : str * str * str) : Prop :=
  let '(src, target, cand) := m in
  cand = candidate_spec ROOT (dirname src) (split_first (chr "#") target).

(** ** A small repository to run the script on *)

Definition doc (name text : string) : str * node :=
  (lit name, File (Some (lit text))).

Definition folder (name : string) (entries : list (str * node)) : str * node :=
  (lit name, Dir true entries).

Definition demo_readme : string :=
  "See [guide](/guide), [sib](./sibling), [web](http://example.com), ![logo](logo.png), [top](#top), [gone](../missing-page) and [f](folder/).".

Definition demo_repo : list (str * node) :=
  [ doc "README.md" demo_readme;
    doc "guide.md" "Back [home](README.md#usage).";
    (lit "sibling.md", File (Some []));
    doc "notes.txt" "[x](nowhere)";
    folder "folder" [ doc "README.md" "[e]()" ];
    folder "db" [ doc "index.md" "[x](nowhere)" ];
    folder ".git" [ doc "HEAD.md" "[y](nowhere)" ] ].

Definition demo_world : world :=
  World (Dir true [ folder "home" [ folder "repo" demo_repo; doc "todo.txt" "one" ] ])
        [lit "home"; lit "repo"].

(** The same repository after a file outside it was rewritten. *)
Definition demo_world_later : world :=
  World (Dir true [ folder "home" [ folder "repo" demo_repo; doc "todo.txt" "two" ] ])
        [lit "home"; lit "repo"].

(** Two repositories with the same entries, listed in a different order. *)
Definition listing_ab : world :=
  World (Dir true [ doc "a.md" "[x](one)"; doc "b.md" "[y](two)" ]) [].

Definition listing_ba : world :=
  World (Dir true [ doc "b.md" "[y](two)"; doc "a.md" "[x](one)" ]) [].

(** ** More vocabulary for the link checker *)

(** A link the loop body records as a failure, and what it records. *)
Definition fails (w : world) (dirpath g : str) : bool :=
  match classify (strip g) with
  | Internal path => negb (link_exists w (candidate_of dirpath path))
  | _ => false
  end.

Definition failure_of (dirpath fp g : str) : str * str * str :=
  (fp, strip g, candidate_of dirpath (split_first (chr "#") (strip g))).

Definition is_some {A : Type} (x : option A) : bool :=
  match x with
  | Some _ => true
  | None => false
  end.

(** Every [.md] file in the directories the walk keeps and lists can be
    read. *)
Fixpoint readable (n : node) : bool :=
  match n with
  | File _ => true
  | Dir false _ => true
  | Dir true es =>
      (fix all (es : list (str * node)) : bool :=
         match es with
         | [] => true
         | (nm, x) :: es' =>
             match x with
             | File c => negb (endswith nm (lit ".md")) || is_some c
             | Dir _ _ => in_skip_dirs nm || readable x
             end && all es'
         end) es
  end.

(** What the walk can see of a tree: the text of the [.md] files in the
    directories it keeps, and which of these it can list; of everything
    else, names and kinds only. *)
Fixpoint visible (n : node) : node :=
  match n with
  | File _ => File None
  | Dir l es =>
      Dir l ((fix all (es : list (str * node)) : list (str * node) :=
              match es with
              | [] => []
              | (nm, x) :: es' =>
                  (nm, match x with
                       | File c =>
                           if endswith nm (lit ".md") then File c
                           else File None
                       | Dir _ _ =>
                           if in_skip_dirs nm then shape x else visible x
                       end) :: all es'
              end) es)
  end.

Definition visible_entry (e : str * node) : str * node :=
  (fst e,
   match snd e with
   | File c => if endswith (fst e) (lit ".md") then File c else File None
   | Dir _ _ => if in_skip_dirs (fst e) then shape (snd e) else visible (snd e)
   end).

(** The tree has a file [fn] in the directories [dirs], from [dir] down,
    reading it gives [c], and [os.scandir] can list each of these
    directories. *)
Fixpoint has_file (dir : node) (dirs : list str) (fn : str) (c : option str)
    {struct dirs} : Prop :=
  match dir with
  | File _ => False
  | Dir false _ => False
  | Dir true es =>
      match dirs with
      | [] => In (fn, File c) es
      | d :: ds =>
          exists l sub, In (d, Dir l sub) es /\ has_file (Dir l sub) ds fn c
      end
  end.

(** How deep the walk goes: the longest chain of directories it enters
    one inside the other, the top one counted. *)
Fixpoint walk_depth (n : node) : nat :=
  match n with
  | File _ => 0
  | Dir false _ => 1
  | Dir true es =>
      S ((fix deepest (es : list (str * node)) : nat :=
            match es with
            | [] => 0
            | (d, x) :: es' =>
                Nat.max (if in_skip_dirs d then 0 else walk_depth x)
                        (deepest es')
            end) es)
  end.

(** A depth [os.walk] reaches on every interpreter.  Up to Python 3.11 it
    calls itself once for each directory on the way down, and the
    interpreter allows 1000 nested calls ([sys.getrecursionlimit()]),
    beyond which it raises [RecursionError]; from 3.12 on it loops. *)
Definition walk_budget : nat := 900.

(** A document of a run: the path of its directory, its name, and what
    reading it gives. *)
Definition document := (str * (str * option str))%type.

Definition is_md (f : str * option str) : bool := endswith (fst f) (lit ".md").

(** The documents of a tree in discovery order: the [.md] files of a
    directory as it lists them, then the documents of each of its
    sub-directories that is not excluded, as it lists them; none in a
    directory that cannot be listed. *)
Fixpoint documents (top : str) (dir : node) {struct dir} : list document :=
  match dir with
  | File _ => []
  | Dir false _ => []
  | Dir true es =>
      map (pair top) (filter is_md (walk_files es))
      ++ (fix below (es : list (str * node)) : list document :=
            match es with
            | [] => []
            | (d, x) :: es' =>
                (if in_skip_dirs d then []
                 else documents (path_join top d) x) ++ below es'
            end) es
  end.

Definition documents_below (top : str) (es : list (str * node))
  : list document :=
  flat_map (fun e => if in_skip_dirs (fst e) then []
                     else documents (path_join top (fst e)) (snd e)) es.

(** The path the script opens a document by, its links, and what it adds
    to [checked] and to [missing]. *)
Definition doc_path (d : document) : str := path_join (fst d) (fst (snd d)).

Definition doc_links (d : document) : list str :=
  match snd (snd d) with
  | Some txt => finditer link_re txt
  | None => []
  end.

Definition doc_checked (d : document) : nat :=
  length (filter survives (doc_links d)).

Definition doc_failures (w : world) (d : document) : list (str * str * str) :=
  map (failure_of (fst d) (doc_path d)) (filter (fails w (fst d)) (doc_links d)).

(** The file loop over a list of documents, each in its directory. *)
Fixpoint scan_docs (w : world) (docs : list document) (st : state) : outcome :=
  match docs with
  | [] => Done st
  | d :: rest =>
      st' <- scan_file w (fst d) (snd d) st ;;
      scan_docs w rest st'
  end.

(** An image link inside the parentheses of a link that is not closed. *)
Definition swallowed_image : str :=
  lit "[x](" ++ lit "![" ++ lit "alt" ++ lit "](" ++ lit "t.png" ++ lit ")".

(** [st'] comes from [st] by counting more links and appending failures
    and opened paths. *)
Definition extends (st st' : state) : Prop :=
  checked st <= checked st'
  /\ (exists ms, missing st' = missing st ++ ms)
  /\ (exists os, opened st' = opened st ++ os).

Definition is_done (o : outcome) : bool :=
  match o with
  | Done _ => true
  | Raised _ => false
  end.

Definition readable_file (f : str * option str) : bool :=
  negb (endswith (fst f) (lit ".md")) || is_some (snd f).

Definition readable_entry (e : str * node) : bool :=
  match snd e with
  | File c => readable_file (fst e, c)
  | Dir _ _ => in_skip_dirs (fst e) || readable (snd e)
  end.

(** The small repository with other texts where the script does not read:
    a note that cannot be read, and rewritten files in [db] and [.git]. *)
Definition demo_repo_touched : list (str * node) :=
  [ doc "README.md" demo_readme;
    doc "guide.md" "Back [home](README.md#usage).";
    (lit "sibling.md", File (Some []));
    (lit "notes.txt", File None);
    folder "folder" [ doc "README.md" "[e]()" ];
    folder "db" [ doc "index.md" "[x](elsewhere) [z](gone)" ];
    folder ".git" [ (lit "HEAD.md", File None) ] ].

Definition demo_world_touched : world :=
  World (Dir true [ folder "home" [ folder "repo" demo_repo_touched;
                               doc "todo.txt" "one" ] ])
        [lit "home"; lit "repo"].

(** A repository with a directory that can be searched but not listed. *)
Definition demo_world_private : world :=
  World (Dir true [ doc "README.md" "[in](private/inner.md)";
                    (lit "private",
                     Dir false [ doc "inner.md" "[x](nowhere)" ]) ])
        [].

(** The small repository with a document that cannot be read. *)
Definition demo_world_locked : world :=
  World (Dir true [ folder "home"
                 [ folder "repo" [ doc "README.md" "[a](b)";
                                   (lit "secret.md", File None);
                                   doc "zeta.md" "[c](d)" ] ] ])
        [lit "home"; lit "repo"].

(** ** More of Python: [str.splitlines], [in], [datetime] *)

(** The line boundaries of [str.splitlines]. *)
Definition is_linebreak (c : char) : bool :=
  ((c =? 10) || (c =? 13) || (c =? 11) || (c =? 12) || (c =? 28) || (c =? 29)
   || (c =? 30) || (c =? 133) || (c =? 8232) || (c =? 8233))%N.

(** [s.splitlines()], with the line read so far: a line ends at a line
    boundary, [\r\n] counting as one, and the text after the last
    boundary is a line when it is not empty. *)
Fixpoint splitlines_from (line : str) (s : str) : list str :=
  match s with
  | [] =>
      match line with
      | [] => []
      | _ :: _ => [line]
      end
  | c :: s' =>
      if is_linebreak c then
        line :: (if (c =? 13)%N then
                   match s' with
                   | c' :: s'' =>
                       if (c' =? 10)%N then splitlines_from [] s''
                       else splitlines_from [] s'
                   | [] => splitlines_from [] s'
                   end
                 else splitlines_from [] s')
      else splitlines_from (line ++ [c]) s'
  end.

Definition splitlines (s : str) : list str := splitlines_from [] s.

(** [sub in s] *)
Fixpoint contains (sub s : str) : bool :=
  startswith s sub
  || match s with
     | [] => false
     | _ :: s' => contains sub s'
     end.

(** A naive [datetime.datetime]. *)
Record datetime := Datetime {
  year : nat;
  month : nat;
  day : nat;
  hour : nat;
  minute : nat;
  second : nat;
  microsecond : nat
}.

(** ["%0<width>d" % n] *)
Definition zero_pad (width n : nat) : str :=
  repeat (chr "0") (width - length (str_of_nat n)) ++ str_of_nat n.

(** [dt.replace(microsecond=us)] *)
Definition replace_microsecond (dt : datetime) (us : nat) : datetime :=
  Datetime (year dt) (month dt) (day dt) (hour dt) (minute dt) (second dt) us.

(** [dt.isoformat()] *)
Definition isoformat (dt : datetime) : str :=
  zero_pad 4 (year dt) ++ lit "-" ++ zero_pad 2 (month dt) ++ lit "-"
  ++ zero_pad 2 (day dt) ++ lit "T" ++ zero_pad 2 (hour dt) ++ lit ":"
  ++ zero_pad 2 (minute dt) ++ lit ":" ++ zero_pad 2 (second dt)
  ++ (if microsecond dt =? 0 then []
      else lit "." ++ zero_pad 6 (microsecond dt)).

(** A decimal digit. *)
Definition is_digit (c : char) : bool := ((48 <=? c) && (c <=? 57))%N.

(** ** [scripts/append_prompt_history.py]

    The script is run with [argv] and at the instant [now]
    ([datetime.datetime.utcnow()]); [can_write] says for which paths
    [open] for writing or appending succeeds.  The file is opened with
    [encoding='utf-8']: a [write] raises [UnicodeEncodeError] for a text
    with a character UTF-8 has no bytes for, as the surrogates [sys.argv]
    holds for bytes of the command line that are no UTF-8. *)

(** A character [str.encode('utf-8')] accepts. *)
Definition encodable_char (c : char) : bool :=
  ((c <? 0xD800) || (0xDFFF <? c) && (c <=? 0x10FFFF))%N.

Definition encodable (s : str) : bool := forallb encodable_char s.

(** A file open for writing: the text written so far, and whether a
    [write] has raised; leaving the [with] block writes that text out
    either way. *)
Inductive writing :=
| Writing (text : str)
| WriteError (text : str).

(** [f.write(s)] *)
Definition f_write (f : writing) (s : str) : writing :=
  match f with
  | Writing text => if encodable s then Writing (text ++ s) else WriteError text
  | WriteError text => WriteError text
  end.

Definition dquote : char := 34%N.
Definition em_dash : char := 8212%N.

Definition history_file : str := lit "PROMPT_HISTORY.md".

Definition usage_line : str :=
  lit "Usage: append_prompt_history.py " ++ [dquote] ++ lit "paraphrase"
  ++ [dquote] ++ lit " [outcome]".

(** [now] of the script. *)
Definition timestamp (utcnow : datetime) : str :=
  isoformat (replace_microsecond utcnow 0) ++ lit "Z".

(** [entry_lines] of the script. *)
Definition entry_lines (utcnow : datetime) (paraphrase outcome : str)
  : list str :=
  let first :=
    lit "- [" ++ timestamp utcnow ++ lit "] " ++ [dquote] ++ paraphrase
    ++ [dquote] in
  if negb (str_eqb outcome []) then
    [first ++ lit " " ++ [em_dash] ++ lit " Outcome: " ++ outcome]
  else [first].

(** The text of the three [f.write] calls together. *)
Definition appended_text (utcnow : datetime) (paraphrase outcome : str) : str :=
  [nl] ++ join_with [nl] (entry_lines utcnow paraphrase outcome) ++ [nl].

(** The body of the [with] block: the three [f.write] calls, one after
    the other. *)
Definition write_entry (lines : list str) : writing :=
  f_write (f_write (f_write (Writing []) [nl]) (join_with [nl] lines)) [nl].

(** The script: how it ends, and the text it appends to
    [PROMPT_HISTORY.md] when it opens the file. *)
Definition append_prompt_history (argv : list str) (w : world)
    (can_write : str -> bool) (utcnow : datetime) : ending * option str :=
  if length argv <? 2 then (Exit (print usage_line []) 1, None)
  else
    let paraphrase := strip (nth 1 argv []) in
    let outcome := if 2 <? length argv then strip (nth 2 argv []) else [] in
    match resolve w history_file with
    | None =>
        (Exit (print (lit "PROMPT_HISTORY.md not found in repo root") []) 1,
         None)
    | Some (Dir _ _) => (Traceback, None)
    | Some (File _) =>
        if can_write history_file then
          match write_entry (entry_lines utcnow paraphrase outcome) with
          | Writing text =>
              (Exit (print (lit "Appended prompt to PROMPT_HISTORY.md") []) 0,
               Some text)
          | WriteError text => (Traceback, Some text)
          end
        else (Traceback, None)
    end.

(** A repository with a history file. *)
Definition history_world : world :=
  World (Dir true [doc "PROMPT_HISTORY.md" "# History"]) [].

(** ** [scripts/normalize_docs.py] *)

Definition emoji_ranges : list (N * N) :=
  [ (0x1F300, 0x1F5FF); (0x1F600, 0x1F64F); (0x1F680, 0x1F6FF);
    (0x2600, 0x26FF); (0x1F900, 0x1F9FF); (0x1F1E6, 0x1F1FF);
    (0x2700, 0x27BF) ]%N.

Definition is_emoji (ch : char) : bool :=
  existsb (fun ab => (fst ab <=? ch) && (ch <=? snd ab))%N emoji_ranges.

(** The body of [for ch in txt], on [(new_chars, changed, count)]. *)
Definition emoji_step (acc : str * bool * nat) (ch : char)
  : str * bool * nat :=
  let '(new_chars, changed, count) := acc in
  if is_emoji ch then (new_chars, true, count + 1)
  else (new_chars ++ [ch], changed, count).

(** From [new_chars=[]] to the last change of [new2]: the new text of a
    document and the new value of [count]. *)
Definition normalize_text (txt : str) (count : nat) : str * nat :=
  let '(new_chars, _, count') := fold_left emoji_step txt ([], false, count) in
  let lines := splitlines new_chars in
  let new2 := join_with [nl] (map rstrip lines) in
  let new2 :=
    if endswith txt [nl] && negb (endswith new2 [nl]) then new2 ++ [nl]
    else new2 in
  (new2, count').

(** The accumulators [count] and [modified_files], and the logs of the
    paths read and of the (path, text) pairs written, oldest first (the
    logs are not in the source: they record the calls). *)
Record nstate := NState {
  count : nat;
  modified_files : list str;
  read_log : list str;
  write_log : list (str * str)
}.

Definition ninitial : nstate := NState 0 [] [] [].

Inductive noutcome :=
| NDone (st : nstate)
| NRaised (st : nstate).

Definition nbind (o : noutcome) (k : nstate -> noutcome) : noutcome :=
  match o with
  | NDone st => k st
  | NRaised st => NRaised st
  end.

Definition nstate_of (o : noutcome) : nstate :=
  match o with
  | NDone st => st
  | NRaised st => st
  end.

(** The body of [for fn in files]. *)
Definition normalize_file (can_write : str -> bool) (dirpath : str)
    (file : str * option str) (st : nstate) : noutcome :=
  let (fn, content) := file in
  if negb (endswith fn (lit ".md")) then NDone st
  else
    let fp := path_join dirpath fn in
    let st1 := NState (count st) (modified_files st) (read_log st ++ [fp])
                      (write_log st) in
    match content with
    | None => NRaised st1
    | Some txt =>
        let (new2, count') := normalize_text txt (count st1) in
        let st2 := NState count' (modified_files st1) (read_log st1)
                          (write_log st1) in
        if negb (str_eqb new2 txt) then
          let bak := fp ++ lit ".bak" in
          if can_write bak then
            let st3 := NState (count st2) (modified_files st2) (read_log st2)
                              (write_log st2 ++ [(bak, txt)]) in
            if can_write fp then
              NDone (NState (count st3) (modified_files st3 ++ [fp])
                            (read_log st3) (write_log st3 ++ [(fp, new2)]))
            else NRaised st3
          else NRaised st2
        else NDone st2
    end.

Fixpoint normalize_files (can_write : str -> bool) (dirpath : str)
    (files : list (str * option str)) (st : nstate) : noutcome :=
  match files with
  | [] => NDone st
  | f :: rest =>
      nbind (normalize_file can_write dirpath f st)
            (normalize_files can_write dirpath rest)
  end.

(** The test at the head of the loop body. *)
Definition skipped_dirpath (dirpath : str) : bool :=
  contains (lit ".git") dirpath || contains (lit "node_modules") dirpath.

(** [for dirpath,dirs,files in os.walk(top)] with the body of the script.
    The body leaves a skipped directory with [continue] and does not
    touch [dirs]: the walk still goes into every sub-directory it can
    list. *)
Fixpoint nwalk (can_write : str -> bool) (top : str) (dir : node)
    (st : nstate) {struct dir} : noutcome :=
  match dir with
  | File _ => NDone st
  | Dir false _ => NDone st
  | Dir true entries =>
      nbind (if skipped_dirpath top then NDone st
             else normalize_files can_write top (walk_files entries) st)
        (fun st1 =>
           (fix subdirs (es : list (str * node)) (st : nstate) {struct es}
              : noutcome :=
              match es with
              | [] => NDone st
              | (d, x) :: es' =>
                  match x with
                  | Dir _ _ =>
                      nbind (nwalk can_write (path_join top d) x st)
                            (subdirs es')
                  | File _ => subdirs es' st
                  end
              end) entries st1)
  end.

Fixpoint nwalk_subdirs (can_write : str -> bool) (top : str)
    (es : list (str * node)) (st : nstate) : noutcome :=
  match es with
  | [] => NDone st
  | (d, x) :: es' =>
      match x with
      | Dir _ _ =>
          nbind (nwalk can_write (path_join top d) x st)
                (nwalk_subdirs can_write top es')
      | File _ => nwalk_subdirs can_write top es' st
      end
  end.

(** The loop of the script from ['.']. *)
Definition normalize_scan (w : world) (can_write : str -> bool) : noutcome :=
  match cwd_place w with
  | Some (_, dir) => nwalk can_write (lit ".") dir ninitial
  | None => NDone ninitial
  end.

(** The end of the script, from the first [print]. *)
Definition normalize_report (st : nstate) : ending :=
  let out :=
    print (lit "Processed " ++ str_of_nat (length (modified_files st))
           ++ lit " files, removed " ++ str_of_nat (count st)
           ++ lit " emoji characters.") [] in
  match modified_files st with
  | [] => Exit out 0
  | _ :: _ =>
      Exit (fold_left (fun o p => print p o) (firstn 200 (modified_files st))
                      (print (lit "Modified files (first 200):") out))
           0
  end.

Definition normalize_docs (w : world) (can_write : str -> bool) : ending :=
  match normalize_scan w can_write with
  | NDone st => normalize_report st
  | NRaised _ => Traceback
  end.

(** ** Vocabulary for [normalize_docs.py] *)

(** The text without its emoji, and the number of emoji in it. *)
Definition without_emoji (txt : str) : str :=
  filter (fun c => negb (is_emoji c)) txt.

Definition emoji_in (txt : str) : nat := length (filter is_emoji txt).

(** The new text of a document. *)
Definition normalized (txt : str) : str := fst (normalize_text txt 0).

(** Where [splitlines] goes on after the line boundary [c]: past the
    [\n] of a [\r\n]. *)
Definition after_break (c : char) (s : str) : str :=
  if (c =? 13)%N then
    match s with
    | c' :: s' => if (c' =? 10)%N then s' else s
    | [] => s
    end
  else s.

(** A line as the script leaves it: no emoji, no line boundary, no white
    space at its end. *)
Definition clean_line (l : str) : Prop :=
  forallb (fun c => negb (is_emoji c)) l = true
  /\ forallb (fun c => negb (is_linebreak c)) l = true
  /\ rstrip l = l.

(** [fp] is the path the walk gives a file of the tree [dir], in
    directories it can list, and [txt] is the text of that file. *)
Definition tree_doc (dir : node) (fp txt : str) : Prop :=
  exists dirs fn, fp = walk_path dirs fn /\ has_file dir dirs fn (Some txt).

(** The writes, the list of modified files and the count of a run that
    rewrote documents one after the other, each after its backup: each is
    a document [known] with its text, the backup holds that text, and
    the count is the number of emoji in these texts. *)
Inductive rewrites (known : str -> str -> Prop)
  : list (str * str) -> list str -> nat -> Prop :=
| rewrites_none : rewrites known [] [] 0
| rewrites_more ws ms n fp txt :
    rewrites known ws ms n ->
    known fp txt ->
    normalized txt <> txt ->
    rewrites known (ws ++ [(fp ++ lit ".bak", txt); (fp, normalized txt)])
             (ms ++ [fp]) (n + emoji_in txt).

(** A directory path the script works in. *)
Definition worked_dir (top : str) : Prop :=
  top <> [] /\ endswith top [sep] = false
  /\ exists dirs, top = fold_left path_join dirs (lit ".")
                  /\ split sep top = lit "." :: dirs.

(** A path the script reads: a [.md] file in a directory whose path has
    neither [.git] nor [node_modules] in it. *)
Definition worked_file (fp : str) : Prop :=
  endswith fp (lit ".md") = true
  /\ exists dirs fn,
       split sep fp = lit "." :: dirs ++ [fn]
       /\ skipped_dirpath (fold_left path_join dirs (lit ".")) = false.

(** A small repository for the normalizer: a document with an emoji and
    trailing blanks, a clean one, and documents in [.github] and
    [node_modules]. *)
Definition untidy_text : str :=
  lit "Title  " ++ [nl] ++ [9733%N] ++ lit " done" ++ [9%N; nl].

Definition tidy_repo : list (str * node) :=
  [ (lit "notes.md", File (Some untidy_text));
    doc "clean.md" "ok";
    folder ".github" [ (lit "ci.md", File (Some untidy_text)) ];
    folder "node_modules" [ (lit "pkg.md", File (Some untidy_text)) ] ].

Definition tidy_world : world := World (Dir true tidy_repo) [].

(** The lines of the new text, and the lines joined. *)
Definition trimmed_lines (txt : str) : list str :=
  map rstrip (splitlines (without_emoji txt)).

Definition joined_lines (txt : str) : str := join_with [nl] (trimmed_lines txt).

(** The last character of [l], if any, is no white space. *)
Definition ends_clean (l : str) : Prop :=
  forall a c, l = a ++ [c] -> isspace c = false.

(** No white space stands at the end of a line of [s]: a white-space
    character before a newline or at the end of [s] is a newline. *)
Definition no_trailing_space (s : str) : Prop :=
  (forall a c b, s = a ++ c :: nl :: b -> isspace c = true -> c = nl)
  /\ (forall a c, s = a ++ [c] -> isspace c = true -> c = nl).

(** The state of a run of the normalizer between two documents, and the
    state it can be left in by an exception: the same, but for the backup
    of a document that was then not rewritten, and for [count]. *)
Definition settled (known : str -> str -> Prop) (st : nstate) : Prop :=
  rewrites known (write_log st) (modified_files st) (count st).

Definition interrupted (known : str -> str -> Prop) (st : nstate) : Prop :=
  exists ws n,
    rewrites known ws (modified_files st) n
    /\ (write_log st = ws
        \/ exists fp txt,
             known fp txt /\ write_log st = ws ++ [(fp ++ lit ".bak", txt)]).

Definition backed_up (known : str -> str -> Prop) (o : noutcome) : Prop :=
  match o with
  | NDone st => settled known st
  | NRaised st => interrupted known st
  end.

(** An outcome with [Qd] for a state the loops go on from and [Qr] for
    the state an exception leaves. *)
Definition keeps (Qd Qr : nstate -> Prop) (o : noutcome) : Prop :=
  match o with
  | NDone st => Qd st
  | NRaised st => Qr st
  end.

(** Every path read is one the script works on, and every write goes to a
    path read or to its backup. *)
Definition reads_and_writes_ok (st : nstate) : Prop :=
  Forall worked_file (read_log st)
  /\ Forall (fun pt => exists fp,
                 In fp (read_log st)
                 /\ (fst pt = fp \/ fst pt = fp ++ lit ".bak"))
            (write_log st).

(** A directory name with [.git] or [node_modules] in it. *)
Definition skipped_name (d : str) : bool :=
  contains (lit ".git") d || contains (lit "node_modules") d.

(** * Properties *)

(** ** Strings *)

Section Strings.

Lemma str_eqb_eq (a b : str) : str_eqb a b = true <-> a = b.
Proof.
  revert b; induction a as [|x a IH]; intros [|y b]; simpl;
    try (split; [discriminate | discriminate]); try tauto.
  rewrite andb_true_iff, N.eqb_eq, IH.
  split; [intros [-> ->]; reflexivity | intros H; inversion H; auto].
Qed.

Lemma str_eqb_refl (a : str) : str_eqb a a = true.
Proof. apply str_eqb_eq; reflexivity. Qed.

Lemma str_eqb_neq (a b : str) : str_eqb a b = false <-> a <> b.
Proof.
  rewrite <- str_eqb_eq. destruct (str_eqb a b); split; congruence.
Qed.

Lemma startswith_app (p r : str) : startswith (p ++ r) p = true.
Proof.
  induction p as [|c p IH]; simpl; [reflexivity|].
  rewrite N.eqb_refl; exact IH.
Qed.

Lemma startswith_prefix (s p : str) :
  startswith s p = true <-> exists r, s = p ++ r.
Proof.
  split.
  - revert s; induction p as [|c p IH]; intros s H; simpl in *.
    + exists s; reflexivity.
    + destruct s as [|x s]; [discriminate|].
      apply andb_true_iff in H as [Hx Hs]. apply N.eqb_eq in Hx; subst x.
      destruct (IH _ Hs) as [r ->]. exists r; reflexivity.
  - intros [r ->]. apply startswith_app.
Qed.

Lemma endswith_app (r p : str) : endswith (r ++ p) p = true.
Proof. unfold endswith. rewrite rev_app_distr. apply startswith_app. Qed.

Lemma endswith_suffix (s p : str) :
  endswith s p = true <-> exists r, s = r ++ p.
Proof.
  unfold endswith. rewrite startswith_prefix. split; intros [r H].
  - exists (rev r). rewrite <- (rev_involutive s), H, rev_app_distr.
    rewrite rev_involutive; reflexivity.
  - exists (rev r). rewrite H, rev_app_distr; reflexivity.
Qed.

Lemma take_drop_while (p : char -> bool) (s : str) :
  takewhile p s ++ dropwhile p s = s.
Proof.
  induction s as [|c s IH]; simpl; [reflexivity|].
  destruct (p c); simpl; [rewrite IH|]; reflexivity.
Qed.

Lemma takewhile_all (p : char -> bool) (s : str) :
  Forall (fun c => p c = true) (takewhile p s).
Proof.
  induction s as [|c s IH]; simpl; [constructor|].
  destruct (p c) eqn:E; constructor; assumption.
Qed.

Lemma dropwhile_head (p : char -> bool) (s : str) (c : char) (r : str) :
  dropwhile p s = c :: r -> p c = false.
Proof.
  induction s as [|x s IH]; simpl; [discriminate|].
  destruct (p x) eqn:E; [exact IH|].
  intros H; inversion H; subst; exact E.
Qed.

Lemma takewhile_app_stop (p : char -> bool) (a : str) (c : char) (r : str) :
  forallb p a = true -> p c = false -> takewhile p (a ++ c :: r) = a.
Proof.
  intros Ha Hc. induction a as [|x a IH]; simpl in *.
  - rewrite Hc; reflexivity.
  - apply andb_true_iff in Ha as [Hx Ha]. rewrite Hx, (IH Ha); reflexivity.
Qed.

Lemma dropwhile_app_stop (p : char -> bool) (a : str) (c : char) (r : str) :
  forallb p a = true -> p c = false -> dropwhile p (a ++ c :: r) = c :: r.
Proof.
  intros Ha Hc. induction a as [|x a IH]; simpl in *.
  - rewrite Hc; reflexivity.
  - apply andb_true_iff in Ha as [Hx Ha]. rewrite Hx; exact (IH Ha).
Qed.

Lemma takewhile_whole (p : char -> bool) (a : str) :
  forallb p a = true -> takewhile p a = a.
Proof.
  induction a as [|x a IH]; simpl; [reflexivity|].
  intros H; apply andb_true_iff in H as [Hx Ha].
  rewrite Hx, (IH Ha); reflexivity.
Qed.

Lemma dropwhile_whole (p : char -> bool) (a : str) :
  forallb p a = true -> dropwhile p a = [].
Proof.
  induction a as [|x a IH]; simpl; [reflexivity|].
  intros H; apply andb_true_iff in H as [Hx Ha].
  rewrite Hx; exact (IH Ha).
Qed.

Lemma firstn_takewhile (p : char -> bool) (s : str) :
  firstn (length s - length (dropwhile p s)) s = takewhile p s.
Proof.
  rewrite <- (take_drop_while p s) at 1 3.
  rewrite length_app.
  replace (length (takewhile p s) + length (dropwhile p s)
           - length (dropwhile p s)) with (length (takewhile p s) + 0) by lia.
  rewrite firstn_app_2. simpl. apply app_nil_r.
Qed.

Lemma lacks_app (c : char) (a b : str) :
  lacks c (a ++ b) = lacks c a && lacks c b.
Proof. apply forallb_app. Qed.

Lemma split_first_spec (c : char) (s : str) :
  lacks c (split_first c s) = true
  /\ exists rest, s = split_first c s ++ rest
                  /\ (rest = [] \/ exists r, rest = c :: r).
Proof.
  unfold split_first, lacks. split.
  - apply forallb_forall. intros x Hx.
    pose proof (takewhile_all (fun x => negb (x =? c)%N) s) as H.
    rewrite Forall_forall in H. exact (H x Hx).
  - exists (dropwhile (fun x => negb (x =? c)%N) s). split.
    + symmetry; apply take_drop_while.
    + destruct (dropwhile _ s) as [|x r] eqn:E; [left; reflexivity|right].
      apply dropwhile_head in E. apply negb_false_iff, N.eqb_eq in E.
      subst x. exists r; reflexivity.
Qed.

Lemma dropwhile_snoc (p : char -> bool) (a : str) (x : char) :
  dropwhile p (a ++ [x])
  = if forallb p a then (if p x then [] else [x]) else dropwhile p a ++ [x].
Proof.
  induction a as [|c a IH]; cbn [app dropwhile forallb]; [reflexivity|].
  destruct (p c); [exact IH|reflexivity].
Qed.

(** Trimming on the right keeps the first character, when it leaves any. *)
Lemma rstrip_head (s : str) (x : char) :
  isspace x = false -> startswith (rstrip s) [x] = startswith s [x].
Proof.
  intros Hx. destruct s as [|c r]; [reflexivity|].
  unfold rstrip. cbn [rev]. rewrite dropwhile_snoc.
  destruct (forallb isspace (rev r)).
  - destruct (isspace c) eqn:Hc; [|reflexivity].
    cbn [rev startswith]. rewrite andb_true_r.
    destruct (c =? x)%N eqn:E; [|reflexivity].
    apply N.eqb_eq in E; subst c. congruence.
  - rewrite rev_app_distr. reflexivity.
Qed.

End Strings.

(** ** The pattern [link_re] *)

Section Pattern.

(** A greedy repetition followed by something that never starts with a
    character of the class takes the longest run: giving characters back
    cannot help. *)
Lemma m_star_longest (cs : cset) (k : str -> match_result) (s : str) :
  (forall c t, cset_mem cs c = true -> k (c :: t) = None) ->
  m_star cs k s = k (dropwhile (cset_mem cs) s).
Proof.
  intros Hk. induction s as [|c s IH]; simpl; [reflexivity|].
  destruct (cset_mem cs c) eqn:E; [|reflexivity].
  rewrite IH. destruct (k (dropwhile (cset_mem cs) s)) eqn:K; [reflexivity|].
  apply Hk; exact E.
Qed.

(** Backtracking never changes what [link_re] matches: the matcher is the
    direct reading [link_at] of the pattern. *)
Lemma re_match_link_re (s : str) : re_match link_re s = link_at s.
Proof.
  unfold re_match, link_re, link_at.
  set (L := cset_mem (AllBut (chr "]"))).
  set (T := cset_mem (AllBut (chr ")"))).
  assert (HL : forall x, L x = negb (x =? chr "]")%N) by reflexivity.
  assert (HT : forall x, T x = negb (x =? chr ")")%N) by reflexivity.
  destruct s as [|c r]; [reflexivity|].
  cbn [m_items m_atom]. fold L T. cbn [cset_mem].
  destruct (c =? chr "[")%N; [|reflexivity].
  rewrite m_star_longest.
  2:{ intros x t Hx. rewrite HL in Hx. apply negb_true_iff in Hx.
      rewrite Hx; reflexivity. }
  fold L. destruct (dropwhile L r) as [|c1 [|c2 r2]]; [reflexivity| |].
  - destruct (c1 =? chr "]")%N; reflexivity.
  - destruct (c1 =? chr "]")%N; [|reflexivity].
    destruct (c2 =? chr "(")%N; [|reflexivity]. cbn [andb].
    destruct r2 as [|g gs]; [reflexivity|].
    cbn [takewhile dropwhile].
    destruct (T g) eqn:G; [|reflexivity].
    rewrite m_star_longest.
    2:{ intros x t Hx. rewrite HT in Hx. apply negb_true_iff in Hx.
        rewrite Hx; reflexivity. }
    fold T. destruct (dropwhile T gs) as [|x rest] eqn:D; [reflexivity|].
    pose proof (dropwhile_head _ _ _ _ D) as Hx. rewrite HT in Hx.
    apply negb_false_iff in Hx. rewrite Hx.
    f_equal. f_equal.
    pose proof (firstn_takewhile T (g :: gs)) as F.
    cbn [takewhile dropwhile] in F. rewrite G, D in F. exact F.
Qed.

(** A well-formed link at the start of the text is matched, its target is
    the group, and the match ends at its closing parenthesis. *)
Lemma link_at_link (label target post : str) :
  lacks (chr "]") label = true ->
  lacks (chr ")") target = true ->
  target <> [] ->
  link_at (lit "[" ++ label ++ lit "](" ++ target ++ lit ")" ++ post)
  = Some (target, post).
Proof.
  intros Hl Ht Hne. unfold link_at. cbn [lit list_ascii_of_string map app].
  change (N_of_ascii "[") with (chr "["). rewrite N.eqb_refl.
  change (N_of_ascii "]" :: N_of_ascii "(" :: target ++ N_of_ascii ")" :: post)
    with (chr "]" :: (chr "(" :: target ++ chr ")" :: post)).
  rewrite dropwhile_app_stop; [|exact Hl|reflexivity].
  rewrite !N.eqb_refl. cbn [andb].
  rewrite takewhile_app_stop, dropwhile_app_stop;
    [|exact Ht|reflexivity|exact Ht|reflexivity].
  destruct target; [congruence|reflexivity].
Qed.

(** With nothing between the parentheses there is no match. *)
Lemma link_at_empty_target (label post : str) :
  lacks (chr "]") label = true ->
  link_at (lit "[" ++ label ++ lit "]()" ++ post) = None.
Proof.
  intros Hl. unfold link_at. cbn [lit list_ascii_of_string map app].
  change (N_of_ascii "[") with (chr "["). rewrite N.eqb_refl.
  change (N_of_ascii "]" :: N_of_ascii "(" :: N_of_ascii ")" :: post)
    with (chr "]" :: (chr "(" :: chr ")" :: post)).
  rewrite dropwhile_app_stop; [|exact Hl|reflexivity].
  reflexivity.
Qed.

Lemma link_at_other (c : char) (r : str) :
  (c =? chr "[")%N = false -> link_at (c :: r) = None.
Proof. intros H. unfold link_at. rewrite H. reflexivity. Qed.

(** The group of a match is never empty: [[^)]+] takes a character. *)
Lemma link_at_group (s g rest : str) : link_at s = Some (g, rest) -> g <> [].
Proof.
  unfold link_at. destruct s as [|c r]; [discriminate|].
  destruct (c =? chr "[")%N; [|discriminate].
  destruct (dropwhile _ r) as [|c1 [|c2 r2]]; try discriminate.
  destruct ((c1 =? chr "]")%N && (c2 =? chr "(")%N); [|discriminate].
  destruct (takewhile _ r2) as [|x xs]; [discriminate|].
  destruct (dropwhile _ r2); [discriminate|].
  intros H; inversion H; discriminate.
Qed.

(** The text a match leaves is shorter than the text it starts on. *)
Lemma link_at_rest (s g rest : str) :
  link_at s = Some (g, rest) -> length rest + length g + 4 <= length s.
Proof.
  unfold link_at. destruct s as [|c r]; [discriminate|].
  destruct (c =? chr "[")%N; [|discriminate].
  pose proof (take_drop_while (cset_mem (AllBut (chr "]"))) r) as E1.
  destruct (dropwhile _ r) as [|c1 [|c2 r2]] eqn:D1; try discriminate.
  destruct ((c1 =? chr "]")%N && (c2 =? chr "(")%N); [|discriminate].
  pose proof (take_drop_while (cset_mem (AllBut (chr ")"))) r2) as E2.
  destruct (takewhile _ r2) as [|x xs] eqn:T2; [discriminate|].
  destruct (dropwhile _ r2) as [|y ys] eqn:D2; [discriminate|].
  intros H. injection H as Hg Hrest.
  apply (f_equal (@length char)) in E1, E2.
  rewrite length_app in E1, E2. cbn [length] in *.
  rewrite <- Hg, <- Hrest. cbn [length]. lia.
Qed.

(** Passing over the characters of a match. *)
Lemma finditer_skip (p : regex) (a b : str) :
  finditer_from p (length a) (a ++ b) = finditer_from p 0 b.
Proof.
  induction a as [|c a IH]; simpl; [reflexivity|exact IH].
Qed.

(** A stretch of text where no match starts yields nothing. *)
Lemma finditer_no_match (p : regex) (a b : str) :
  (forall a1 c a2, a = a1 ++ c :: a2 -> re_match p (c :: a2 ++ b) = None) ->
  finditer_from p 0 (a ++ b) = finditer_from p 0 b.
Proof.
  induction a as [|c a IH]; intros H; simpl; [reflexivity|].
  rewrite (H [] c a eq_refl). apply IH.
  intros a1 c' a2 ->. apply (H (c :: a1) c' a2). reflexivity.
Qed.

(** A match at the start of the text is yielded, and the search goes on
    after it. *)
Lemma finditer_match (s g rest : str) :
  link_at s = Some (g, rest) ->
  (exists m, s = m ++ rest) ->
  finditer link_re s = g :: finditer link_re rest.
Proof.
  intros H [m ->]. unfold finditer.
  pose proof (link_at_rest _ _ _ H) as L. rewrite length_app in L.
  destruct m as [|c m]; [simpl in L; lia|].
  cbn [app] in *. cbn [finditer_from]. rewrite re_match_link_re, H. f_equal.
  cbn [length]. rewrite length_app.
  replace (S (length m + length rest) - length rest - 1) with (length m) by lia.
  apply finditer_skip.
Qed.

(** Every group [finditer] yields has at least one character. *)
Lemma finditer_groups (s : str) (skip : nat) (g : str) :
  In g (finditer_from link_re skip s) -> g <> [].
Proof.
  revert skip; induction s as [|c s IH]; intros skip; simpl; [tauto|].
  destruct skip as [|n]; [|apply IH].
  rewrite re_match_link_re.
  destruct (link_at (c :: s)) as [[g' rest]|] eqn:E; [|apply IH].
  intros [<-|Hin]; [exact (link_at_group _ _ _ E)|exact (IH _ Hin)].
Qed.

End Pattern.

Section Documents.

(** No match starts in a text without [[]. *)
Lemma finditer_lacks (a b : str) :
  lacks (chr "[") a = true ->
  finditer link_re (a ++ b) = finditer link_re b.
Proof.
  unfold finditer. induction a as [|c a IH]; intros H; [reflexivity|].
  cbn [lacks forallb] in H. apply andb_true_iff in H as [Hc Ha].
  cbn [app finditer_from]. rewrite re_match_link_re, link_at_other.
  - apply IH; exact Ha.
  - apply negb_true_iff; exact Hc.
Qed.

(** The scan of [pre ++ rest] yields what it finds in [pre] and then what
    it finds in [rest], when it comes to [rest] between two matches. *)
Lemma finditer_before (p : regex) (pre rest : str) :
  forall skip found,
    matches_before p skip pre rest = Some found ->
    finditer_from p skip (pre ++ rest) = found ++ finditer_from p 0 rest.
Proof.
  induction pre as [|c pre IH]; intros skip found H.
  - cbn [matches_before] in H. destruct skip as [|n]; [|discriminate].
    injection H as <-. reflexivity.
  - cbn [matches_before app] in H. cbn [app finditer_from].
    destruct skip as [|n]; [|exact (IH n found H)].
    destruct (re_match p (c :: pre ++ rest)) as [[g r]|].
    + destruct (matches_before p (length (c :: pre ++ rest) - length r - 1)
                  pre rest) as [found'|] eqn:E; [|discriminate].
      cbn [option_map] in H. injection H as <-.
      cbn [app]. f_equal. exact (IH _ _ E).
    + exact (IH 0 found H).
Qed.

(** Where no [[] stands the scan finds nothing and comes through. *)
Lemma matches_before_lacks (pre rest : str) :
  lacks (chr "[") pre = true -> matches_before link_re 0 pre rest = Some [].
Proof.
  induction pre as [|c pre IH]; intros H; [reflexivity|].
  cbn [lacks forallb] in H. apply andb_true_iff in H as [Hc Hp].
  cbn [matches_before app]. rewrite re_match_link_re, link_at_other.
  - exact (IH Hp).
  - apply negb_true_iff; exact Hc.
Qed.

(** A link in a text: the first match when no [[] comes before it. *)
Lemma finditer_link (pre label target post : str) :
  lacks (chr "[") pre = true ->
  lacks (chr "]") label = true ->
  lacks (chr ")") target = true ->
  target <> [] ->
  finditer link_re
    (pre ++ lit "[" ++ label ++ lit "](" ++ target ++ lit ")" ++ post)
  = target :: finditer link_re post.
Proof.
  intros Hp Hl Ht Hne. rewrite (finditer_lacks _ _ Hp).
  apply finditer_match.
  - apply link_at_link; assumption.
  - exists (lit "[" ++ label ++ lit "](" ++ target ++ lit ")").
    rewrite <- !app_assoc. reflexivity.
Qed.

(** No match starts inside [label]() either, whatever the label holds. *)
Lemma finditer_in_empty_link (label post : str) :
  lacks (chr "]") label = true ->
  finditer link_re (label ++ lit "]()" ++ post) = finditer link_re post.
Proof.
  unfold finditer. induction label as [|c label IH]; intros H.
  - cbn [app lit list_ascii_of_string map finditer_from].
    rewrite !re_match_link_re, !link_at_other; reflexivity.
  - cbn [lacks forallb] in H. apply andb_true_iff in H as [_ Hl].
    cbn [app finditer_from]. rewrite re_match_link_re.
    destruct (c =? chr "[")%N eqn:E.
    + apply N.eqb_eq in E; subst c.
      replace (link_at (chr "[" :: label ++ lit "]()" ++ post))
        with (@None (str * str))
        by (symmetry; apply (link_at_empty_target label post Hl)).
      apply IH; exact Hl.
    + rewrite (link_at_other _ _ E). apply IH; exact Hl.
Qed.

Lemma finditer_empty_link (pre label post : str) :
  lacks (chr "[") pre = true ->
  lacks (chr "]") label = true ->
  finditer link_re (pre ++ lit "[" ++ label ++ lit "]()" ++ post)
  = finditer link_re post.
Proof.
  intros Hp Hl. rewrite (finditer_lacks _ _ Hp).
  change (lit "[" ++ label ++ lit "]()" ++ post)
    with (chr "[" :: (label ++ lit "]()" ++ post)).
  unfold finditer. cbn [finditer_from].
  rewrite re_match_link_re.
  replace (link_at (chr "[" :: label ++ lit "]()" ++ post))
    with (@None (str * str))
    by (symmetry; apply (link_at_empty_target label post Hl)).
  apply (finditer_in_empty_link label post Hl).
Qed.

End Documents.

(** ** Paths and the file system *)

Section Paths.

Lemma split_nonempty (c : char) (s : str) : split c s <> [].
Proof.
  destruct s as [|x s]; simpl; [discriminate|].
  destruct (x =? c)%N; [discriminate|].
  destruct (split c s); discriminate.
Qed.

Lemma split_app_sep (c : char) (a b : str) :
  split c (a ++ c :: b) = split c a ++ split c b.
Proof.
  induction a as [|x a IH]; simpl.
  - rewrite N.eqb_refl; reflexivity.
  - destruct (x =? c)%N; [rewrite IH; reflexivity|].
    rewrite IH. pose proof (split_nonempty c a) as H.
    destruct (split c a); [congruence|reflexivity].
Qed.

Lemma split_lacks (c : char) (n : str) : lacks c n = true -> split c n = [n].
Proof.
  induction n as [|x n IH]; simpl; [reflexivity|].
  intros H; apply andb_true_iff in H as [Hx Hn].
  apply negb_true_iff in Hx. rewrite Hx, (IH Hn); reflexivity.
Qed.

Lemma split_app_name (c : char) (a n : str) :
  lacks c n = true -> split c (a ++ c :: n) = split c a ++ [n].
Proof. intros H. rewrite split_app_sep, (split_lacks _ _ H); reflexivity. Qed.

Lemma startswith_app_l (a b : str) (p : char) :
  a <> [] -> startswith (a ++ b) [p] = startswith a [p].
Proof. destruct a; [congruence|reflexivity]. Qed.

Lemma valid_name_spec (n : str) :
  valid_name n = true <-> n <> [] /\ lacks sep n = true.
Proof.
  unfold valid_name. rewrite andb_true_iff, negb_true_iff, str_eqb_neq.
  tauto.
Qed.

Lemma valid_name_head (n : str) :
  valid_name n = true -> startswith n [sep] = false.
Proof.
  intros H; apply valid_name_spec in H as [Hne Hl].
  destruct n as [|c n]; [congruence|]. simpl in *.
  apply andb_true_iff in Hl as [Hc _]. apply negb_true_iff in Hc.
  rewrite Hc; reflexivity.
Qed.

(** [os.path.join] of a path and a name. *)
Lemma path_join_name (p n : str) :
  p <> [] -> valid_name n = true ->
  path_join p n = if endswith p [sep] then p ++ n else p ++ sep :: n.
Proof.
  intros Hp Hn. unfold path_join.
  rewrite (valid_name_head _ Hn).
  apply str_eqb_neq in Hp. rewrite Hp. reflexivity.
Qed.

(** Looking a plain name up where the resolution of a path has arrived. *)
Lemma resolve_step_name (x : option place) (n : str) :
  n <> [] -> n <> lit "." -> n <> lit ".." ->
  at_node (resolve_step x n)
  = match at_node x with
    | Some (Dir _ es) => child es n
    | _ => None
    end.
Proof.
  intros H0 H1 H2. apply str_eqb_neq in H0, H1, H2.
  destruct x as [[up [c|lb es]]|]; simpl; try reflexivity.
  rewrite H0, H1, H2. simpl. destruct (child es n); reflexivity.
Qed.

(** A trailing slash asks for a directory and stays in it. *)
Lemma resolve_step_empty (x : option place) :
  at_node (resolve_step x [])
  = match at_node x with
    | Some (Dir lb es) => Some (Dir lb es)
    | _ => None
    end.
Proof. destruct x as [[up [c|lb es]]|]; reflexivity. Qed.

Lemma fold_left_snoc {A B : Type} (f : A -> B -> A) (l : list B) (x : B)
    (a : A) :
  fold_left f (l ++ [x]) a = f (fold_left f l a) x.
Proof. rewrite fold_left_app; reflexivity. Qed.

(** What [os.path.join(p, name)] names: the entry [name] of the directory
    [p] names. *)
Lemma resolve_join (w : world) (p n : str) :
  p <> [] -> valid_name n = true -> n <> lit "." -> n <> lit ".." ->
  resolve w (path_join p n)
  = match resolve w p with
    | Some (Dir _ es) => child es n
    | _ => None
    end.
Proof.
  intros Hp Hn H1 H2.
  pose proof Hn as Hv. apply valid_name_spec in Hv as [Hne Hl].
  rewrite (path_join_name _ _ Hp Hn).
  destruct (endswith p [sep]) eqn:E.
  - apply endswith_suffix in E as [q ->].
    unfold resolve.
    assert (Hq1 : str_eqb ((q ++ [sep]) ++ n) [] = false)
      by (apply str_eqb_neq; destruct q; discriminate).
    assert (Hq2 : str_eqb (q ++ [sep]) [] = false)
      by (apply str_eqb_neq; destruct q; discriminate).
    rewrite Hq1, Hq2, (startswith_app_l _ n sep Hp).
    set (start := if startswith (q ++ [sep]) [sep] then _ else _).
    rewrite <- app_assoc. cbn [app].
    rewrite (split_app_name _ q n Hl).
    replace (split sep (q ++ [sep])) with (split sep q ++ [[]])
      by (rewrite split_app_sep; reflexivity).
    rewrite !fold_left_snoc.
    fold (at_node (resolve_step (fold_left resolve_step (split sep q) start) n)).
    fold (at_node (resolve_step (fold_left resolve_step (split sep q) start) [])).
    rewrite resolve_step_name, resolve_step_empty by assumption.
    destruct (at_node _) as [[c|lb es]|]; reflexivity.
  - unfold resolve.
    assert (Hq1 : str_eqb (p ++ sep :: n) [] = false)
      by (apply str_eqb_neq; destruct p; discriminate).
    pose proof Hp as Hq2. apply str_eqb_neq in Hq2.
    rewrite Hq1, Hq2, (startswith_app_l _ (sep :: n) sep Hp).
    set (start := if startswith p [sep] then _ else _).
    rewrite (split_app_name _ p n Hl), fold_left_snoc.
    fold (at_node (resolve_step (fold_left resolve_step (split sep p) start) n)).
    fold (at_node (fold_left resolve_step (split sep p) start)).
    rewrite resolve_step_name by assumption.
    reflexivity.
Qed.

Lemma resolve_empty (w : world) : resolve w [] = None.
Proof. reflexivity. Qed.

Lemma isfile_regular (w : world) (p : str) :
  isfile w p = true <-> regular_file w p.
Proof.
  unfold isfile, regular_file.
  destruct (resolve w p) as [[c|lb es]|]; split; try discriminate.
  - exists c; reflexivity.
  - reflexivity.
  - intros [c H]; discriminate.
  - intros [c H]; discriminate.
Qed.

(** The third tier of [link_exists]. *)
Lemma readme_tier (w : world) (p : str) :
  isdir w p && isfile w (path_join p (lit "README.md")) = true
  <-> dir_with_readme w p.
Proof.
  unfold dir_with_readme, isdir, isfile.
  destruct p as [|c p].
  - rewrite resolve_empty. split; [discriminate|].
    intros (lb & es & x & H & _); discriminate.
  - rewrite (resolve_join w (c :: p) (lit "README.md"));
      [|discriminate|reflexivity|discriminate|discriminate].
    destruct (resolve w (c :: p)) as [[x|lb es]|]; simpl.
    + split; [discriminate|]. intros (lb & es & y & H & _); discriminate.
    + destruct (child es (lit "README.md")) as [[y|lb' es']|] eqn:C; split;
        try discriminate.
      * intros _. exists lb, es, y. rewrite C. split; reflexivity.
      * reflexivity.
      * intros (lb0 & es0 & y & H & C'). inversion H; subst lb0 es0.
        rewrite C in C'; discriminate.
      * intros (lb0 & es0 & y & H & C'). inversion H; subst lb0 es0.
        rewrite C in C'; discriminate.
    + split; [discriminate|]. intros (lb & es & y & H & _); discriminate.
Qed.

(** The [exists] flag says that one of the three checks holds. *)
Lemma link_exists_spec (w : world) (cand : str) :
  link_exists w cand = true
  <-> regular_file w cand \/ regular_file w (cand ++ lit ".md")
      \/ dir_with_readme w cand.
Proof.
  unfold link_exists. rewrite <- !isfile_regular, <- readme_tier.
  destruct (isfile w cand); [tauto|].
  destruct (isfile w (cand ++ lit ".md")); [tauto|].
  destruct (isdir w cand && isfile w (path_join cand (lit "README.md")));
    [tauto|].
  split; [discriminate|]. intros [H|[H|H]]; discriminate.
Qed.

End Paths.

(** ** The loops *)

Section Loops.

(** Induction on a tree, with the property at hand for the nodes of a
    directory. *)
Lemma node_ind (P : node -> Prop) :
  (forall c, P (File c)) ->
  (forall lb es, Forall (fun e => P (snd e)) es -> P (Dir lb es)) ->
  forall n, P n.
Proof.
  intros HF HD. fix IH 1. intros [c|lb es]; [apply HF|apply HD].
  induction es as [|[nm x] es IHes]; constructor; [apply IH|exact IHes].
Qed.

Lemma walk_Dir (w : world) (top : str) (es : list (str * node)) (st : state) :
  walk w top (Dir true es) st
  = (st1 <- scan_files w top (walk_files es) st ;; walk_subdirs w top es st1).
Proof.
  cbn [walk]. destruct (scan_files w top (walk_files es) st) as [st1|st1];
    [|reflexivity].
  cbn [bind]. induction es as [|[d x] es IH] in st1 |- *; [reflexivity|].
  cbn [walk_subdirs]. destruct x as [c|lb sub]; [exact (IH st1)|].
  destruct (in_skip_dirs d); [exact (IH st1)|].
  destruct (walk w (path_join top d) (Dir lb sub) st1) as [s|s]; [|reflexivity].
  exact (IH s).
Qed.

Lemma wf_node_Dir (lb : bool) (es : list (str * node)) :
  wf_node (Dir lb es) = wf_entries es.
Proof.
  unfold wf_entries. induction es as [|[nm x] es IH]; [reflexivity|].
  cbn [wf_node] in *. cbn [forallb fst snd]. rewrite <- IH. reflexivity.
Qed.

Lemma wf_entries_files (es : list (str * node)) :
  wf_entries es = true ->
  Forall (fun f => valid_name (fst f) = true) (walk_files es).
Proof.
  unfold wf_entries. induction es as [|[nm [c|lb sub]] es IH]; intros H;
    cbn [forallb fst snd walk_files] in *.
  - constructor.
  - apply andb_true_iff in H as [H1 H2]. apply andb_true_iff in H1 as [H1 _].
    constructor; [exact H1|exact (IH H2)].
  - apply andb_true_iff in H as [_ H2]. exact (IH H2).
Qed.

Lemma state_of_bind (o : outcome) (k : state -> outcome) :
  state_of (bind o k)
  = match o with
    | Done st => state_of (k st)
    | Raised st => st
    end.
Proof. destruct o; reflexivity. Qed.

(** A property of the state that every file keeps and that depends on the
    directory through [G] holds after the whole walk. *)
Section Invariant.

Variable w : world.
Variable Q : state -> Prop.
Variable G : str -> Prop.

Hypothesis file_step :
  forall top f st,
    G top -> valid_name (fst f) = true -> Q st ->
    Q (state_of (scan_file w top f st)).

Hypothesis dir_step :
  forall top d,
    G top -> valid_name d = true -> in_skip_dirs d = false ->
    G (path_join top d).

Lemma scan_files_inv (files : list (str * option str)) (top : str)
    (st : state) :
  G top -> Forall (fun f => valid_name (fst f) = true) files -> Q st ->
  Q (state_of (scan_files w top files st)).
Proof.
  intros HG HV. revert st.
  induction HV as [|f files Hf HV IH]; intros st HQ; [exact HQ|].
  cbn [scan_files]. rewrite state_of_bind.
  pose proof (file_step top f st HG Hf HQ) as H.
  destruct (scan_file w top f st) as [s|s]; [apply IH|]; exact H.
Qed.

Lemma walk_inv (dir : node) :
  forall top st,
    wf_node dir = true -> G top -> Q st ->
    Q (state_of (walk w top dir st)).
Proof.
  induction dir as [c|lb es IHes] using node_ind; intros top st Hwf HG HQ;
    [exact HQ|].
  destruct lb; [|exact HQ].
  rewrite walk_Dir, state_of_bind. rewrite wf_node_Dir in Hwf.
  pose proof (scan_files_inv (walk_files es) top st HG
                (wf_entries_files es Hwf) HQ) as H1.
  destruct (scan_files w top (walk_files es) st) as [st1|st1];
    [|exact H1]. cbn [state_of] in H1.
  clear HQ st. revert st1 H1. unfold wf_entries in Hwf.
  induction IHes as [|[d x] es Hx _ IH]; intros st HQ; [exact HQ|].
  cbn [forallb fst snd] in Hwf.
  apply andb_true_iff in Hwf as [Hdx Hes].
  apply andb_true_iff in Hdx as [Hd Hwx].
  cbn [walk_subdirs]. destruct x as [c|lb sub]; [exact (IH Hes st HQ)|].
  destruct (in_skip_dirs d) eqn:Hskip; [exact (IH Hes st HQ)|].
  rewrite state_of_bind. cbn [snd] in Hx.
  pose proof (Hx (path_join top d) st Hwx (dir_step top d HG Hd Hskip) HQ)
    as H2.
  destruct (walk w (path_join top d) (Dir lb sub) st) as [s|s];
    [exact (IH Hes s H2)|exact H2].
Qed.

End Invariant.

(** The link loop leaves the log of opened files alone. *)
Lemma check_link_opened (w : world) (dirpath fp g : str) (st : state) :
  opened (check_link w dirpath fp g st) = opened st.
Proof.
  unfold check_link. destruct (classify (strip g)); try reflexivity.
  destruct (negb _); reflexivity.
Qed.

Lemma scan_text_opened (w : world) (dirpath fp txt : str) (st : state) :
  opened (scan_text w dirpath fp txt st) = opened st.
Proof.
  unfold scan_text. revert st.
  induction (finditer link_re txt) as [|g gs IH]; intros st; [reflexivity|].
  cbn [fold_left]. rewrite IH. apply check_link_opened.
Qed.

(** What one link does to the two accumulators. *)
Lemma check_link_internal (w : world) (dirpath fp g path : str) (st : state) :
  classify (strip g) = Internal path ->
  checked (check_link w dirpath fp g st) = checked st + 1
  /\ missing (check_link w dirpath fp g st)
     = if link_exists w (candidate_of dirpath path) then missing st
       else missing st ++ [(fp, strip g, candidate_of dirpath path)].
Proof.
  intros H. unfold check_link. rewrite H.
  destruct (link_exists w (candidate_of dirpath path)); split; reflexivity.
Qed.

Lemma check_link_skipped (w : world) (dirpath fp g : str) (st : state) :
  (forall path, classify (strip g) <> Internal path) ->
  check_link w dirpath fp g st = st.
Proof.
  intros H. unfold check_link.
  destruct (classify (strip g)) as [| | |path]; try reflexivity.
  destruct (H path eq_refl).
Qed.

Lemma check_link_bound (w : world) (dirpath fp g : str) (st : state) :
  length (missing st) <= checked st ->
  length (missing (check_link w dirpath fp g st))
  <= checked (check_link w dirpath fp g st).
Proof.
  intros H. unfold check_link. destruct (classify (strip g)); try exact H.
  destruct (negb _); cbn [checked missing]; [rewrite length_app; simpl|]; lia.
Qed.

Lemma scan_text_bound (w : world) (dirpath fp txt : str) (st : state) :
  length (missing st) <= checked st ->
  length (missing (scan_text w dirpath fp txt st))
  <= checked (scan_text w dirpath fp txt st).
Proof.
  unfold scan_text. revert st.
  induction (finditer link_re txt) as [|g gs IH]; intros st H; [exact H|].
  cbn [fold_left]. apply IH, check_link_bound, H.
Qed.

Lemma scan_file_bound (w : world) (top : str) (f : str * option str)
    (st : state) :
  length (missing st) <= checked st ->
  length (missing (state_of (scan_file w top f st)))
  <= checked (state_of (scan_file w top f st)).
Proof.
  intros H. destruct f as [fn [txt|]]; unfold scan_file;
    destruct (negb (endswith fn (lit ".md"))); cbn [state_of]; try exact H.
  apply scan_text_bound; exact H.
Qed.

(** The counter moves by the number of links that survive the skip
    rules. *)
Lemma scan_text_checked (w : world) (dirpath fp txt : str) (st : state) :
  checked (scan_text w dirpath fp txt st)
  = checked st + length (filter survives (finditer link_re txt)).
Proof.
  unfold scan_text. revert st.
  induction (finditer link_re txt) as [|g gs IH]; intros st;
    cbn [fold_left filter length]; [lia|].
  rewrite IH. unfold survives at 2, check_link.
  destruct (classify (strip g)); cbn [length]; try lia.
  destruct (negb _); cbn [checked]; lia.
Qed.

Lemma classify_internal (target path : str) :
  classify target = Internal path -> path = split_first (chr "#") target.
Proof.
  unfold classify. destruct (is_external target); [discriminate|].
  destruct (startswith target (lit "!")); [discriminate|].
  cbv zeta. destruct (_ || _); [discriminate|].
  intros H; inversion H; reflexivity.
Qed.

Lemma check_link_missing (w : world) (dirpath fp g : str) (st : state) :
  missing (check_link w dirpath fp g st)
  = missing st ++ (if fails w dirpath g then [failure_of dirpath fp g] else []).
Proof.
  unfold check_link, fails, failure_of.
  destruct (classify (strip g)) as [| | |path] eqn:Hc;
    try (symmetry; apply app_nil_r).
  rewrite <- (classify_internal _ _ Hc).
  destruct (link_exists w (candidate_of dirpath path)); cbn [negb missing];
    [symmetry; apply app_nil_r|reflexivity].
Qed.

(** The failures of a document: those of its links that fail, in the
    order of the text. *)
Lemma scan_text_missing (w : world) (dirpath fp txt : str) (st : state) :
  missing (scan_text w dirpath fp txt st)
  = missing st
    ++ map (failure_of dirpath fp)
           (filter (fails w dirpath) (finditer link_re txt)).
Proof.
  unfold scan_text. revert st.
  induction (finditer link_re txt) as [|g gs IH]; intros st;
    cbn [fold_left filter map]; [symmetry; apply app_nil_r|].
  rewrite IH, check_link_missing, <- app_assoc.
  destruct (fails w dirpath g); reflexivity.
Qed.

Lemma scan_files_bound (w : world) (files : list (str * option str))
    (top : str) (st : state) :
  length (missing st) <= checked st ->
  length (missing (state_of (scan_files w top files st)))
  <= checked (state_of (scan_files w top files st)).
Proof.
  revert st; induction files as [|f files IH]; intros st H; [exact H|].
  cbn [scan_files]. rewrite state_of_bind.
  pose proof (scan_file_bound w top f st H) as H1.
  destruct (scan_file w top f st) as [s|s]; [apply IH|]; exact H1.
Qed.

(** There are never more failures than links checked. *)
Lemma walk_bound (w : world) (dir : node) :
  forall top st,
    length (missing st) <= checked st ->
    length (missing (state_of (walk w top dir st)))
    <= checked (state_of (walk w top dir st)).
Proof.
  induction dir as [c|lb es IHes] using node_ind; intros top st H; [exact H|].
  destruct lb; [|exact H].
  rewrite walk_Dir, state_of_bind.
  pose proof (scan_files_bound w (walk_files es) top st H) as H1.
  destruct (scan_files w top (walk_files es) st) as [st1|st1]; [|exact H1].
  cbn [state_of] in H1. revert st1 H1.
  induction IHes as [|[d x] es Hx _ IH]; intros st1 H1; [exact H1|].
  cbn [walk_subdirs]. destruct x as [c|lb sub]; [exact (IH st1 H1)|].
  destruct (in_skip_dirs d); [exact (IH st1 H1)|].
  rewrite state_of_bind. cbn [snd] in Hx.
  pose proof (Hx (path_join top d) st1 H1) as H2.
  destruct (walk w (path_join top d) (Dir lb sub) st1) as [s|s];
    [exact (IH s H2)|exact H2].
Qed.

End Loops.

(** ** Where the walk goes *)

Section Traversal.

Lemma endswith_sep_name (a d : str) :
  valid_name d = true -> endswith (a ++ d) [sep] = false.
Proof.
  intros H. apply valid_name_spec in H as [Hne Hl].
  unfold endswith. rewrite rev_app_distr.
  destruct (rev d) as [|x r] eqn:E.
  - apply (f_equal (@rev char)) in E. rewrite rev_involutive in E.
    simpl in E; congruence.
  - cbn [app rev startswith]. rewrite andb_true_r.
    assert (Hin : In x d) by (apply in_rev; rewrite E; left; reflexivity).
    unfold lacks in Hl. rewrite forallb_forall in Hl.
    apply negb_true_iff, (Hl x Hin).
Qed.

Lemma endswith_keep (a d p : str) :
  endswith d p = true -> endswith (a ++ d) p = true.
Proof.
  intros H. apply endswith_suffix in H as [r ->].
  apply endswith_suffix. exists (a ++ r). apply app_assoc.
Qed.

(** Joining a name to a walked directory appends [/] and the name. *)
Lemma walked_join (top n : str) :
  walked_dir top -> valid_name n = true ->
  path_join top n = top ++ sep :: n
  /\ split sep (path_join top n) = split sep top ++ [n].
Proof.
  intros (Hne & He & _) Hn.
  rewrite (path_join_name _ _ Hne Hn), He. split; [reflexivity|].
  apply split_app_name. apply valid_name_spec in Hn; tauto.
Qed.

Lemma walked_root : walked_dir ROOT.
Proof.
  split; [discriminate|]. split; [reflexivity|].
  exists []. split; [reflexivity|constructor].
Qed.

Lemma walked_sub (top d : str) :
  walked_dir top -> valid_name d = true -> in_skip_dirs d = false ->
  walked_dir (path_join top d).
Proof.
  intros Ht Hd Hs. destruct (walked_join top d Ht Hd) as [E S].
  destruct Ht as (Hne & He & dirs & Hsplit & Hk).
  unfold walked_dir. rewrite S, E. split; [destruct top; discriminate|]. split.
  - change (top ++ sep :: d) with (top ++ [sep] ++ d). rewrite app_assoc.
    apply endswith_sep_name; exact Hd.
  - exists (dirs ++ [d]). rewrite Hsplit. split; [reflexivity|].
    apply Forall_app. split; [exact Hk|]. constructor; [exact Hs|constructor].
Qed.

Lemma walked_open (top fn : str) :
  walked_dir top -> valid_name fn = true -> endswith fn (lit ".md") = true ->
  walked_file (path_join top fn).
Proof.
  intros Ht Hn Hmd. destruct (walked_join top fn Ht Hn) as [E S].
  destruct Ht as (Hne & He & dirs & Hsplit & Hk). split.
  - rewrite E. change (top ++ sep :: fn) with (top ++ [sep] ++ fn).
    rewrite app_assoc. apply endswith_keep; exact Hmd.
  - exists dirs, fn. rewrite S, Hsplit. split; [reflexivity|exact Hk].
Qed.

(** The components of the path [os.walk] builds for a file. *)
Lemma walk_path_split (dirs : list str) (fn : str) :
  Forall (fun d => valid_name d = true) dirs -> valid_name fn = true ->
  split sep (walk_path dirs fn) = lit "." :: dirs ++ [fn].
Proof.
  intros Hd Hfn. unfold walk_path.
  assert (H : forall top,
             top <> [] -> endswith top [sep] = false ->
             split sep (path_join (fold_left path_join dirs top) fn)
             = split sep top ++ dirs ++ [fn]).
  { induction Hd as [|d dirs Hv _ IH]; intros top Hne He; cbn [fold_left app].
    - rewrite (path_join_name _ _ Hne Hfn), He.
      apply split_app_name. apply valid_name_spec in Hfn; tauto.
    - rewrite IH.
      + rewrite (path_join_name _ _ Hne Hv), He.
        rewrite split_app_name by (apply valid_name_spec in Hv; tauto).
        rewrite <- app_assoc. reflexivity.
      + rewrite (path_join_name _ _ Hne Hv), He. destruct top; discriminate.
      + rewrite (path_join_name _ _ Hne Hv), He.
        change (top ++ sep :: d) with (top ++ [sep] ++ d). rewrite app_assoc.
        apply endswith_sep_name; exact Hv. }
  apply (H ROOT); [discriminate|reflexivity].
Qed.

(** Every path the script opens is a [.md] file in a directory the walk
    keeps. *)
Lemma scan_file_walked (w : world) (top : str) (f : str * option str)
    (st : state) :
  walked_dir top -> valid_name (fst f) = true ->
  Forall walked_file (opened st) ->
  Forall walked_file (opened (state_of (scan_file w top f st))).
Proof.
  intros Ht Hv H. destruct f as [fn content]. cbn [fst] in Hv.
  unfold scan_file. destruct (endswith fn (lit ".md")) eqn:Hmd;
    cbn [negb]; [|exact H].
  assert (H' : Forall walked_file (opened st ++ [path_join top fn])).
  { apply Forall_app. split; [exact H|].
    constructor; [apply walked_open; assumption|constructor]. }
  destruct content as [txt|]; cbn [state_of]; [|exact H'].
  rewrite scan_text_opened. exact H'.
Qed.

Lemma walk_walked (w : world) (dir : node) :
  wf_node dir = true ->
  Forall walked_file (opened (state_of (walk w ROOT dir initial))).
Proof.
  intros Hwf.
  apply (walk_inv w (fun st => Forall walked_file (opened st)) walked_dir).
  - intros top f st. apply scan_file_walked.
  - apply walked_sub.
  - exact Hwf.
  - exact walked_root.
  - constructor.
Qed.

(** The source of every failure is a document the script opened. *)
Lemma check_link_sources (w : world) (dirpath fp g : str) (st : state) :
  In fp (opened st) ->
  Forall (fun m => In (fst (fst m)) (opened st)) (missing st) ->
  Forall (fun m => In (fst (fst m)) (opened st))
         (missing (check_link w dirpath fp g st)).
Proof.
  intros Hfp H. unfold check_link.
  destruct (classify (strip g)); try exact H.
  destruct (negb _); cbn [missing]; [|exact H].
  apply Forall_app. split; [exact H|]. constructor; [exact Hfp|constructor].
Qed.

Lemma scan_file_sources (w : world) (top : str) (f : str * option str)
    (st : state) :
  Forall (fun m => In (fst (fst m)) (opened st)) (missing st) ->
  let st' := state_of (scan_file w top f st) in
  Forall (fun m => In (fst (fst m)) (opened st')) (missing st').
Proof.
  intros H. destruct f as [fn content]. unfold scan_file.
  destruct (negb (endswith fn (lit ".md"))); [exact H|].
  set (fp := path_join top fn).
  assert (H0 : Forall (fun m => In (fst (fst m)) (opened st ++ [fp]))
                      (missing st)).
  { eapply Forall_impl; [|exact H]. intros m Hm.
    apply in_or_app; left; exact Hm. }
  destruct content as [txt|]; cbn [state_of]; [|exact H0].
  unfold scan_text.
  set (st0 := State (checked st) (missing st) (opened st ++ [fp])).
  assert (Hfp : In fp (opened st0))
    by (apply in_or_app; right; left; reflexivity).
  change (Forall (fun m => In (fst (fst m)) (opened st0)) (missing st0)) in H0.
  revert Hfp H0. generalize st0.
  induction (finditer link_re txt) as [|g gs IH]; intros s Hfp H0;
    [exact H0|].
  cbn [fold_left]. apply IH.
  - rewrite check_link_opened; exact Hfp.
  - pose proof (check_link_sources w top fp g s Hfp H0) as H1.
    rewrite check_link_opened. exact H1.
Qed.

End Traversal.

(** ** What a run depends on *)

Section Dependence.

Lemma shape_Dir (lb : bool) (es : list (str * node)) :
  shape (Dir lb es) = Dir true (shape_entries es).
Proof.
  cbn [shape]. f_equal. unfold shape_entries.
  induction es as [|[nm x] es IH]; [reflexivity|].
  cbn [map fst snd]. rewrite <- IH. reflexivity.
Qed.

Lemma child_shape (es : list (str * node)) (n : str) :
  child (shape_entries es) n = option_map shape (child es n).
Proof.
  unfold shape_entries. induction es as [|[nm x] es IH]; [reflexivity|].
  cbn [map fst snd child]. destruct (str_eqb nm n); [reflexivity|exact IH].
Qed.

(** Resolution looks at names and kinds only. *)
Lemma resolve_step_shape (x : option place) (comp : str) :
  resolve_step (option_map place_shape x) comp
  = option_map place_shape (resolve_step x comp).
Proof.
  destruct x as [[up [c|lb es]]|]; [reflexivity| |reflexivity].
  unfold place_shape at 1. cbn [option_map fst snd]. rewrite shape_Dir.
  cbn [resolve_step].
  destruct (str_eqb comp [] || str_eqb comp (lit ".")).
  { cbn [option_map]. unfold place_shape. cbn [fst snd].
    rewrite shape_Dir. reflexivity. }
  destruct (str_eqb comp (lit "..")).
  { destruct up as [|parent up']; cbn [map option_map]; unfold place_shape;
      cbn [fst snd map]; [rewrite shape_Dir|]; reflexivity. }
  rewrite child_shape. destruct (child es comp) as [y|]; [|reflexivity].
  cbn [option_map]. unfold place_shape. cbn [fst snd map].
  rewrite shape_Dir. reflexivity.
Qed.

Lemma resolve_fold_shape (comps : list str) (x : option place) :
  option_map place_shape (fold_left resolve_step comps x)
  = fold_left resolve_step comps (option_map place_shape x).
Proof.
  revert x; induction comps as [|c comps IH]; intros x; [reflexivity|].
  cbn [fold_left]. rewrite IH, resolve_step_shape. reflexivity.
Qed.

Lemma at_node_shape (x : option place) :
  option_map shape (at_node x) = at_node (option_map place_shape x).
Proof. destruct x as [[up n]|]; reflexivity. Qed.

Lemma resolve_shape (w1 w2 : world) (p : str) :
  fs_cwd w1 = fs_cwd w2 ->
  shape (fs_root w1) = shape (fs_root w2) ->
  option_map shape (resolve w1 p) = option_map shape (resolve w2 p).
Proof.
  intros Hc Hr. unfold resolve.
  destruct (str_eqb p []); [reflexivity|].
  fold (at_node (fold_left resolve_step (split sep p)
          (if startswith p [sep] then Some ([], fs_root w1) else cwd_place w1))).
  fold (at_node (fold_left resolve_step (split sep p)
          (if startswith p [sep] then Some ([], fs_root w2) else cwd_place w2))).
  rewrite !at_node_shape, !resolve_fold_shape. do 2 f_equal.
  destruct (startswith p [sep]).
  - cbn [option_map]. unfold place_shape. cbn [fst snd map].
    rewrite Hr; reflexivity.
  - unfold cwd_place. rewrite !resolve_fold_shape, Hc.
    cbn [option_map]. unfold place_shape. cbn [fst snd map].
    rewrite Hr; reflexivity.
Qed.

Lemma isfile_shape (w1 w2 : world) (p : str) :
  fs_cwd w1 = fs_cwd w2 ->
  shape (fs_root w1) = shape (fs_root w2) ->
  isfile w1 p = isfile w2 p /\ isdir w1 p = isdir w2 p.
Proof.
  intros Hc Hr. pose proof (resolve_shape w1 w2 p Hc Hr) as H.
  unfold isfile, isdir.
  destruct (resolve w1 p) as [[c1|l1 es1]|], (resolve w2 p) as [[c2|l2 es2]|];
    cbn [option_map] in H; try rewrite !shape_Dir in H;
    cbn [shape] in H; try discriminate; split; reflexivity.
Qed.

(** The walk asks the file system two questions only. *)
Section SameAnswers.

Variables w1 w2 : world.
Hypothesis same_isfile : forall p, isfile w1 p = isfile w2 p.
Hypothesis same_isdir : forall p, isdir w1 p = isdir w2 p.

Lemma link_exists_ext (cand : str) : link_exists w1 cand = link_exists w2 cand.
Proof.
  unfold link_exists. rewrite !same_isfile, same_isdir. reflexivity.
Qed.

Lemma check_link_ext (dirpath fp g : str) (st : state) :
  check_link w1 dirpath fp g st = check_link w2 dirpath fp g st.
Proof.
  unfold check_link. destruct (classify (strip g)); try reflexivity.
  cbv zeta. rewrite link_exists_ext. reflexivity.
Qed.

Lemma scan_text_ext (dirpath fp txt : str) (st : state) :
  scan_text w1 dirpath fp txt st = scan_text w2 dirpath fp txt st.
Proof.
  unfold scan_text. revert st.
  induction (finditer link_re txt) as [|g gs IH]; intros st; [reflexivity|].
  cbn [fold_left]. rewrite check_link_ext. apply IH.
Qed.

Lemma scan_files_ext (top : str) (files : list (str * option str))
    (st : state) :
  scan_files w1 top files st = scan_files w2 top files st.
Proof.
  revert st; induction files as [|[fn content] files IH]; intros st;
    [reflexivity|].
  cbn [scan_files scan_file]. destruct (negb _); cbn [bind]; [apply IH|].
  destruct content as [txt|]; cbn [bind]; [|reflexivity].
  rewrite scan_text_ext. apply IH.
Qed.

Lemma walk_ext (dir : node) :
  forall top st, walk w1 top dir st = walk w2 top dir st.
Proof.
  induction dir as [c|lb es IHes] using node_ind; intros top st; [reflexivity|].
  destruct lb; [|reflexivity].
  rewrite !walk_Dir, scan_files_ext.
  destruct (scan_files w2 top (walk_files es) st) as [st1|st1];
    [|reflexivity]. cbn [bind]. revert st1.
  induction IHes as [|[d x] es Hx _ IH]; intros st1; [reflexivity|].
  cbn [walk_subdirs]. destruct x as [c|lb sub]; [apply IH|].
  destruct (in_skip_dirs d); [apply IH|].
  cbn [snd] in Hx. rewrite Hx.
  destruct (walk w2 (path_join top d) (Dir lb sub) st1) as [s|s];
    [apply IH|reflexivity].
Qed.

End SameAnswers.

End Dependence.

(** ** The directory of a document *)

Section DocumentDirectory.

Lemma lacks_rev (c : char) (s : str) : lacks c s = true -> lacks c (rev s) = true.
Proof.
  unfold lacks. rewrite !forallb_forall. intros H x Hx.
  apply H, in_rev, Hx.
Qed.

Lemma last_not_sep (top : str) :
  top <> [] -> endswith top [sep] = false ->
  exists x r, rev top = x :: r /\ (x =? sep)%N = false.
Proof.
  intros Hne He. unfold endswith in He. destruct (rev top) as [|x r] eqn:E.
  - apply (f_equal (@rev char)) in E. rewrite rev_involutive in E.
    simpl in E; congruence.
  - exists x, r. split; [reflexivity|]. cbn [rev app startswith] in He.
    rewrite andb_true_r in He. exact He.
Qed.

Lemma rstrip_char_sep (top : str) :
  top <> [] -> endswith top [sep] = false ->
  rstrip_char sep (top ++ [sep]) = top.
Proof.
  intros Hne He. destruct (last_not_sep top Hne He) as (x & r & E & Hx).
  unfold rstrip_char. rewrite rev_app_distr. cbn [rev app dropwhile].
  rewrite N.eqb_refl, E. cbn [dropwhile].
  rewrite N.eqb_sym, Hx, <- E. apply rev_involutive.
Qed.

Lemma not_all_sep (top : str) (n : nat) :
  top <> [] -> endswith top [sep] = false ->
  str_eqb (top ++ [sep]) (repeat sep n) = false.
Proof.
  intros Hne He. destruct (last_not_sep top Hne He) as (x & r & E & Hx).
  apply str_eqb_neq. intros H.
  assert (Hin : In x (top ++ [sep])).
  { apply in_or_app; left. apply in_rev. rewrite E; left; reflexivity. }
  rewrite H in Hin. apply repeat_spec in Hin. subst x.
  rewrite N.eqb_refl in Hx; discriminate.
Qed.

(** [os.path.dirname] undoes the [os.path.join] of the walk: the
    directory of a document is the [dirpath] it was found in. *)
Lemma dirname_join (top fn : str) :
  walked_dir top -> valid_name fn = true ->
  dirname (path_join top fn) = top.
Proof.
  intros Ht Hfn. destruct (walked_join top fn Ht Hfn) as [E _].
  destruct Ht as (Hne & He & _). rewrite E.
  pose proof Hfn as Hv. apply valid_name_spec in Hv as [_ Hl].
  assert (Hhead : firstn (after_last_sep (top ++ sep :: fn)) (top ++ sep :: fn)
                  = top ++ [sep]).
  { unfold after_last_sep. rewrite rev_app_distr. cbn [rev].
    rewrite <- app_assoc. cbn [app].
    rewrite takewhile_app_stop;
      [|apply (lacks_rev sep fn Hl)|rewrite N.eqb_refl; reflexivity].
    rewrite length_app, length_rev. cbn [length].
    replace (length top + S (length fn) - length fn)
      with (length (top ++ [sep]) + 0)
      by (rewrite length_app; cbn [length]; lia).
    change (top ++ sep :: fn) with (top ++ [sep] ++ fn).
    rewrite app_assoc, firstn_app_2. cbn [firstn]. apply app_nil_r. }
  unfold dirname. rewrite Hhead.
  assert (H0 : str_eqb (top ++ [sep]) [] = false)
    by (apply str_eqb_neq; destruct top; discriminate).
  rewrite H0, (not_all_sep top _ Hne He). cbn [negb andb].
  apply rstrip_char_sep; assumption.
Qed.

(** The [candidate] of the source is the candidate of the documentation. *)
Lemma candidate_of_spec (dirpath path : str) :
  candidate_of dirpath path = candidate_spec ROOT dirpath path.
Proof.
  unfold candidate_of, candidate_spec, lstrip_char.
  destruct path as [|c path]; [reflexivity|].
  cbn [startswith]. rewrite andb_true_r. reflexivity.
Qed.

(** What [print] writes for the failures. *)
Lemma print_failures (ms : list (str * str * str)) (out : str) :
  fold_left (fun o m => print (failure_line m) o) ms out
  = out ++ failure_lines ms.
Proof.
  unfold failure_lines. revert out.
  induction ms as [|m ms IH]; intros out; cbn [fold_left map concat].
  - symmetry; apply app_nil_r.
  - rewrite IH. unfold print. rewrite <- !app_assoc. reflexivity.
Qed.

(** Every failure of a run carries the candidate of the resolution rule
    for its own document. *)
Lemma check_link_by_rule (w : world) (top fn g : str) (st : state) :
  walked_dir top -> valid_name fn = true ->
  Forall resolved_by_rule (missing st) ->
  Forall resolved_by_rule (missing (check_link w top (path_join top fn) g st)).
Proof.
  intros Ht Hfn H. unfold check_link.
  destruct (classify (strip g)) as [| | |path] eqn:Hc; try exact H.
  destruct (negb _); cbn [missing]; [|exact H].
  apply Forall_app. split; [exact H|]. constructor; [|constructor].
  unfold resolved_by_rule.
  rewrite (dirname_join top fn Ht Hfn), <- (classify_internal _ _ Hc).
  apply candidate_of_spec.
Qed.

Lemma scan_by_rule (w : world) :
  wf_world w = true ->
  Forall resolved_by_rule (missing (state_of (scan w))).
Proof.
  unfold wf_world, scanned, scan.
  destruct (cwd_place w) as [[up dir]|]; cbn [at_node option_map snd];
    [|intros _; constructor].
  intros Hwf.
  apply (walk_inv w (fun st => Forall resolved_by_rule (missing st))
                  walked_dir).
  - intros top [fn content] st Ht Hfn H. cbn [fst] in Hfn. unfold scan_file.
    destruct (negb _); [exact H|].
    destruct content as [txt|]; cbn [state_of]; [|exact H].
    unfold scan_text.
    set (st0 := State (checked st) (missing st)
                      (opened st ++ [path_join top fn])).
    change (Forall resolved_by_rule (missing st0)) in H.
    revert H. generalize st0.
    induction (finditer link_re txt) as [|g gs IH]; intros s H; [exact H|].
    cbn [fold_left]. apply IH, check_link_by_rule; assumption.
  - apply walked_sub.
  - exact Hwf.
  - exact walked_root.
  - constructor.
Qed.

End DocumentDirectory.

(** ** The documents of a run *)

Section RunDocuments.

Variable w : world.

Lemma scan_docs_app (a b : list document) (st : state) :
  scan_docs w (a ++ b) st = (st1 <- scan_docs w a st ;; scan_docs w b st1).
Proof.
  revert st; induction a as [|d a IH]; intros st; [reflexivity|].
  cbn [app scan_docs]. destruct (scan_file w (fst d) (snd d) st) as [s|s];
    cbn [bind]; [apply IH|reflexivity].
Qed.

(** The file loop passes over the files that are no documents. *)
Lemma scan_files_docs (top : str) (files : list (str * option str))
    (st : state) :
  scan_files w top files st
  = scan_docs w (map (pair top) (filter is_md files)) st.
Proof.
  revert st; induction files as [|[fn c] files IH]; intros st; [reflexivity|].
  cbn [scan_files filter]. unfold is_md at 1. cbn [fst].
  destruct (endswith fn (lit ".md")) eqn:Hmd.
  - cbn [map scan_docs fst snd].
    destruct (scan_file w top (fn, c) st) as [s|s]; cbn [bind];
      [apply IH|reflexivity].
  - unfold scan_file. rewrite Hmd. cbn [negb bind]. apply IH.
Qed.

Lemma documents_Dir (top : str) (es : list (str * node)) :
  documents top (Dir true es)
  = map (pair top) (filter is_md (walk_files es)) ++ documents_below top es.
Proof.
  cbn [documents]. f_equal. unfold documents_below.
  induction es as [|[d x] es IH]; [reflexivity|].
  cbn [flat_map fst snd]. rewrite <- IH. reflexivity.
Qed.

(** The walk is the file loop over the documents of the tree. *)
Lemma walk_documents (dir : node) :
  forall top st, walk w top dir st = scan_docs w (documents top dir) st.
Proof.
  induction dir as [c|lb es IHes] using node_ind; intros top st; [reflexivity|].
  destruct lb; [|reflexivity].
  rewrite walk_Dir, documents_Dir, scan_docs_app, scan_files_docs.
  destruct (scan_docs w (map (pair top) (filter is_md (walk_files es))) st)
    as [st1|st1]; [|reflexivity].
  cbn [bind]. revert st1. unfold documents_below.
  induction IHes as [|[d x] es Hx _ IH]; intros st1; [reflexivity|].
  cbn [walk_subdirs flat_map fst snd]. destruct x as [c|lb sub].
  - destruct (in_skip_dirs d); exact (IH st1).
  - destruct (in_skip_dirs d); [exact (IH st1)|].
    rewrite scan_docs_app. cbn [snd] in Hx. rewrite Hx.
    destruct (scan_docs w (documents (path_join top d) (Dir lb sub)) st1)
      as [s|s]; [exact (IH s)|reflexivity].
Qed.

Lemma documents_md (dir : node) :
  forall top, Forall (fun d => is_md (snd d) = true) (documents top dir).
Proof.
  induction dir as [c|lb es IHes] using node_ind; intros top; [constructor|].
  destruct lb; [|constructor].
  rewrite documents_Dir. apply Forall_app. split.
  - apply Forall_forall. intros d Hd. apply in_map_iff in Hd as [f [<- Hf]].
    apply filter_In in Hf as [_ Hf]. exact Hf.
  - unfold documents_below. induction IHes as [|[d x] es Hx _ IH];
      [constructor|].
    cbn [flat_map fst snd]. apply Forall_app. split; [|exact IH].
    destruct (in_skip_dirs d); [constructor|apply Hx].
Qed.

(** What a document does to the state when it can be read. *)
Lemma scan_file_document (d : document) (st st' : state) :
  is_md (snd d) = true ->
  scan_file w (fst d) (snd d) st = Done st' ->
  checked st' = checked st + doc_checked d
  /\ missing st' = missing st ++ doc_failures w d
  /\ opened st' = opened st ++ [doc_path d].
Proof.
  destruct d as [dp [fn c]]. unfold is_md, doc_checked, doc_failures,
    doc_links, doc_path. cbn [fst snd]. intros Hmd H.
  unfold scan_file in H. rewrite Hmd in H. cbn [negb] in H.
  destruct c as [txt|]; [|discriminate]. injection H as <-.
  rewrite scan_text_checked, scan_text_missing, scan_text_opened.
  repeat split.
Qed.

(** The accumulators after the documents [docs], all read. *)
Lemma scan_docs_account (docs : list document) :
  Forall (fun d => is_md (snd d) = true) docs ->
  forall st st',
    scan_docs w docs st = Done st' ->
    checked st' = checked st + list_sum (map doc_checked docs)
    /\ missing st' = missing st ++ concat (map (doc_failures w) docs)
    /\ opened st' = opened st ++ map doc_path docs.
Proof.
  unfold list_sum.
  induction 1 as [|d docs Hd _ IH]; intros st st' H.
  - injection H as <-. cbn [map fold_right concat]. rewrite !app_nil_r.
    repeat split. lia.
  - cbn [scan_docs] in H.
    destruct (scan_file w (fst d) (snd d) st) as [s|s] eqn:Hf; [|discriminate].
    cbn [bind] in H.
    destruct (scan_file_document d st s Hd Hf) as (H1 & H2 & H3).
    destruct (IH s st' H) as (H4 & H5 & H6).
    cbn [map fold_right concat]. rewrite H4, H5, H6, H1, H2, H3, <- !app_assoc.
    repeat split. lia.
Qed.

End RunDocuments.

Lemma walk_files_In (es : list (str * node)) (fn : str) (c : option str) :
  In (fn, c) (walk_files es) -> In (fn, File c) es.
Proof.
  induction es as [|[nm [c'|lb sub]] es IH]; cbn [walk_files]; [tauto| |].
  - intros [H|H]; [injection H as -> ->; left; reflexivity|right; exact (IH H)].
  - intros H. right; exact (IH H).
Qed.

(** The files of the tree in directories the walk keeps and can list are
    among its documents. *)
Lemma has_file_documents (dirs : list str) :
  forall dir top fn c,
    has_file dir dirs fn c -> kept_dirs dirs ->
    endswith fn (lit ".md") = true ->
    In (fold_left path_join dirs top, (fn, c)) (documents top dir).
Proof.
  induction dirs as [|d ds IH]; intros dir top fn c Hfile Hk Hmd;
    destruct dir as [c0|[|] es]; try destruct Hfile.
  - rewrite documents_Dir. apply in_or_app; left. cbn [fold_left].
    apply in_map. apply filter_In. split; [|exact Hmd].
    induction es as [|[nm [c'|lb sub]] es IHes]; [destruct Hfile| |];
      cbn [walk_files].
    + destruct Hfile as [H|H];
        [injection H as -> ->; left; reflexivity|right; exact (IHes H)].
    + destruct Hfile as [H|H]; [discriminate|exact (IHes H)].
  - destruct H as [sub [Hin Hsub]]. rename x into lb.
    inversion Hk as [|d' ds' Hd Hk']; subst.
    rewrite documents_Dir. apply in_or_app; right. cbn [fold_left].
    unfold documents_below. apply in_flat_map.
    exists (d, Dir lb sub). split; [exact Hin|]. cbn [fst snd].
    rewrite Hd. exact (IH (Dir lb sub) (path_join top d) fn c Hsub Hk' Hmd).
Qed.

(** And its documents are such files. *)
Lemma documents_has_file (dir : node) :
  forall top dp fn c,
    In (dp, (fn, c)) (documents top dir) ->
    exists dirs,
      dp = fold_left path_join dirs top /\ has_file dir dirs fn c
      /\ kept_dirs dirs /\ endswith fn (lit ".md") = true.
Proof.
  induction dir as [c0|lb es IHes] using node_ind; intros top dp fn c Hin;
    [destruct Hin|].
  destruct lb; [|destruct Hin].
  rewrite documents_Dir in Hin. apply in_app_or in Hin as [Hin|Hin].
  - apply in_map_iff in Hin as [[fn' c'] [Heq Hf]]. injection Heq as <- -> ->.
    apply filter_In in Hf as [Hf Hmd]. exists []. split; [reflexivity|].
    split; [exact (walk_files_In es fn c Hf)|]. split; [constructor|exact Hmd].
  - unfold documents_below in Hin. apply in_flat_map in Hin as [[d x] [He Hin]].
    cbn [fst snd] in Hin.
    destruct (in_skip_dirs d) eqn:Hd; [destruct Hin|].
    rewrite Forall_forall in IHes. specialize (IHes (d, x) He). cbn [snd] in IHes.
    destruct (IHes (path_join top d) dp fn c Hin) as (dirs & H1 & H2 & H3 & H4).
    exists (d :: dirs). split; [exact H1|]. split; [|split; [|exact H4]].
    + destruct x as [c'|lb sub]; [destruct dirs; destruct H2|].
      exists lb, sub. split; assumption.
    + constructor; assumption.
Qed.

(** * The claims *)

(** C1.  For a link that survives the skip rules, the candidate is judged
    existing exactly when it is a regular file, or it is one with [.md]
    appended, or it is a directory with a regular file [README.md]; the
    flag is the three tests of the source in their order, and a link that
    fails all three is appended to [missing]. *)
Theorem link_exists_three_tiers (w : world) (dirpath fp g path : str)
    (st : state) :
  classify (strip g) = Internal path ->
  let cand := candidate_of dirpath path in
  (link_exists w cand = true
   <-> regular_file w cand \/ regular_file w (cand ++ lit ".md")
       \/ dir_with_readme w cand)
  /\ link_exists w cand
     = (isfile w cand
        || (isfile w (cand ++ lit ".md")
            || (isdir w cand && isfile w (path_join cand (lit "README.md")))))
  /\ (link_exists w cand = false ->
      missing (check_link w dirpath fp g st)
      = missing st ++ [(fp, strip g, cand)])
  /\ (link_exists w cand = true ->
      missing (check_link w dirpath fp g st) = missing st).
Proof.
  intros Hc cand. split; [apply link_exists_spec|]. split.
  - unfold link_exists. destruct (isfile w cand); [reflexivity|].
    destruct (isfile w (cand ++ lit ".md")); [reflexivity|].
    destruct (isdir w cand && isfile w (path_join cand (lit "README.md")));
      reflexivity.
  - destruct (check_link_internal w dirpath fp g path st Hc) as [_ Hm].
    fold cand in Hm. split; intros He; rewrite He in Hm; exact Hm.
Qed.

Lemma link_exists_three_tiers_witness :
  link_exists demo_world (lit "folder") = true
  /\ dir_with_readme demo_world (lit "folder").
Proof.
  pose proof (link_exists_three_tiers demo_world (lit ".") (lit "./README.md")
                (lit "folder/") (lit "folder/") initial eq_refl) as H.
  cbv zeta in H. destruct H as (Hiff & Hflag & _).
  change (candidate_of (lit ".") (lit "folder/")) with (lit "folder") in *.
  assert (Htrue : link_exists demo_world (lit "folder") = true)
    by (rewrite Hflag; reflexivity).
  split; [exact Htrue|].
  destruct (proj1 Hiff Htrue) as [[c Hc]|[[c Hc]|Hd]];
    [discriminate Hc|discriminate Hc|exact Hd].
Defined.

(** C2.  For a link that survives the skip rules in a document [fn] of a
    walked directory, the path is the target before its fragment, and the
    candidate is the one of the resolution rule: a path with a leading [/]
    loses its leading slashes and is joined to the scan root, any other
    path is joined to the directory of the document; both are normalized.
    It is this candidate a failure records. *)
Theorem candidate_resolution (w : world) (top fn g path : str) (st : state) :
  walked_dir top -> valid_name fn = true ->
  classify (strip g) = Internal path ->
  let fp := path_join top fn in
  let cand := candidate_spec ROOT (dirname fp) path in
  path = split_first (chr "#") (strip g)
  /\ candidate_of top path = cand
  /\ (startswith path [sep] = true ->
      cand = normpath (path_join ROOT (lstrip_char sep path)))
  /\ (startswith path [sep] = false ->
      cand = normpath (path_join (dirname fp) path))
  /\ missing (check_link w top fp g st)
     = if link_exists w cand then missing st
       else missing st ++ [(fp, strip g, cand)].
Proof.
  intros Ht Hfn Hc fp cand.
  assert (Hcand : candidate_of top path = cand).
  { unfold cand, fp. rewrite (dirname_join top fn Ht Hfn).
    apply candidate_of_spec. }
  split; [|split; [exact Hcand|split; [|split]]].
  - apply classify_internal; exact Hc.
  - intros Hs. unfold cand, candidate_spec, lstrip_char.
    destruct path as [|c path]; [discriminate|].
    cbn [startswith] in Hs. rewrite andb_true_r in Hs. rewrite Hs.
    reflexivity.
  - intros Hs. unfold cand, candidate_spec.
    destruct path as [|c path]; [reflexivity|].
    cbn [startswith] in Hs. rewrite andb_true_r in Hs. rewrite Hs.
    reflexivity.
  - rewrite <- Hcand.
    exact (proj2 (check_link_internal w top fp g path st Hc)).
Qed.

Lemma candidate_resolution_witness :
  candidate_of (lit "./folder") (lit "/guide") = lit "guide"
  /\ candidate_of (lit "./folder") (lit "../sibling") = lit "sibling".
Proof.
  assert (Hw : walked_dir (lit "./folder")).
  { split; [discriminate|]. split; [reflexivity|].
    exists [lit "folder"]. split; [reflexivity|].
    constructor; [reflexivity|constructor]. }
  split.
  - exact (proj1 (proj2 (candidate_resolution demo_world (lit "./folder")
             (lit "README.md") (lit "/guide#intro") (lit "/guide") initial
             Hw eq_refl eq_refl))).
  - exact (proj1 (proj2 (candidate_resolution demo_world (lit "./folder")
             (lit "README.md") (lit " ../sibling ") (lit "../sibling") initial
             Hw eq_refl eq_refl))).
Defined.

(** C3.  A link whose trimmed target begins with [http://], [https://],
    [mailto:] or [javascript:], or with [!], is left with [continue] before
    anything is resolved: it is classed external or image, and the counter
    and the failures stay as they were. *)
Theorem external_and_bang_skipped (w : world) (dirpath fp g : str)
    (st : state) :
  let target := strip g in
  startswith target (lit "http://") = true
  \/ startswith target (lit "https://") = true
  \/ startswith target (lit "mailto:") = true
  \/ startswith target (lit "javascript:") = true
  \/ startswith target (lit "!") = true ->
  (classify target = External \/ classify target = Image)
  /\ check_link w dirpath fp g st = st.
Proof.
  intros target H.
  assert (Hc : classify target = External \/ classify target = Image).
  { unfold classify, is_external.
    destruct H as [H|[H|[H|[H|H]]]]; rewrite H;
      rewrite ?orb_true_r; cbn [orb]; try (left; reflexivity).
    destruct (_ || _); [left|right]; reflexivity. }
  split; [exact Hc|].
  apply check_link_skipped. fold target.
  intros path Hp. destruct Hc as [Hc|Hc]; rewrite Hc in Hp; discriminate.
Qed.

Lemma external_and_bang_skipped_witness :
  check_link demo_world (lit ".") (lit "./README.md")
             (lit " http://example.com ") initial = initial
  /\ check_link demo_world (lit ".") (lit "./README.md")
                (lit "!banner.png") initial = initial.
Proof.
  split.
  - apply (external_and_bang_skipped demo_world (lit ".") (lit "./README.md")
             (lit " http://example.com ") initial).
    left; reflexivity.
  - apply (external_and_bang_skipped demo_world (lit ".") (lit "./README.md")
             (lit "!banner.png") initial).
    right; right; right; right; reflexivity.
Defined.

(** C4.  For a link past the external and [!] tests, the path is the
    target up to its first [#] (no [#] in it, and what follows it in the
    target is nothing or begins with [#]).  When the path is empty, or the
    target starts with [#], the link is classed an anchor and the counter
    and the failures stay as they were; otherwise the link goes on with
    that path. *)
Theorem fragment_and_anchor (w : world) (dirpath fp g : str) (st : state) :
  let target := strip g in
  let path := split_first (chr "#") target in
  is_external target = false ->
  startswith target (lit "!") = false ->
  (lacks (chr "#") path = true
   /\ exists rest, target = path ++ rest
                   /\ (rest = [] \/ exists r, rest = chr "#" :: r))
  /\ (path = [] \/ startswith target (lit "#") = true ->
      classify target = Anchor /\ check_link w dirpath fp g st = st)
  /\ (path <> [] -> classify target = Internal path).
Proof.
  intros target path He Hb.
  split; [apply split_first_spec|].
  assert (Hhash : startswith path (lit "#") = false).
  { destruct (split_first_spec (chr "#") target) as [Hl _]. fold path in Hl.
    destruct path as [|c p]; [reflexivity|].
    cbn [lacks forallb] in Hl. apply andb_true_iff in Hl as [Hc _].
    apply negb_true_iff in Hc. cbn [lit list_ascii_of_string map startswith].
    change (N_of_ascii "#") with (chr "#"). rewrite Hc. reflexivity. }
  assert (Hcl : classify target
                = if str_eqb path [] then Anchor else Internal path).
  { unfold classify. rewrite He, Hb. fold path. rewrite Hhash, orb_false_r.
    reflexivity. }
  split.
  - intros Hp.
    assert (Hnil : path = []).
    { destruct Hp as [Hp|Hp]; [exact Hp|].
      unfold path, split_first. destruct target as [|c t]; [reflexivity|].
      cbn [lit list_ascii_of_string map startswith] in Hp.
      rewrite andb_true_r in Hp. cbn [takewhile].
      change (N_of_ascii "#") with (chr "#") in Hp. rewrite Hp. reflexivity. }
    rewrite Hnil in Hcl. cbn [str_eqb] in Hcl. split; [exact Hcl|].
    apply check_link_skipped. fold target. rewrite Hcl. discriminate.
  - intros Hne. apply str_eqb_neq in Hne. rewrite Hne in Hcl. exact Hcl.
Qed.

Lemma fragment_and_anchor_witness :
  classify (lit "#top") = Anchor
  /\ classify (lit "guide#usage") = Internal (lit "guide").
Proof.
  split.
  - exact (proj1 (proj1 (proj2 (fragment_and_anchor demo_world (lit ".")
             (lit "./README.md") (lit "#top") initial eq_refl eq_refl))
             (or_intror eq_refl))).
  - apply (proj2 (proj2 (fragment_and_anchor demo_world (lit ".")
             (lit "./README.md") (lit "guide#usage") initial
             eq_refl eq_refl))).
    discriminate.
Defined.

(** C5.  A link that survives the skip rules adds one to [checked],
    whether it resolves or not, and a link that fails the three checks is
    appended to [missing] as (document path, trimmed target, candidate).
    So a document adds the number of its surviving links to [checked] and
    its failing links, in the order of the text, to [missing]; and a run
    that ends, on a tree no deeper than the walk reaches, has counted the
    surviving links of all the documents of the tree and holds in
    [missing] their failing links, document after document in discovery
    order: every failing link of every [.md] file in directories that are
    kept and can be listed is there, and each entry of [missing] is such
    a link.  When the run ends [missing] has at most [checked] entries. *)
Theorem checked_and_missing (w : world) :
  (forall dirpath fp g path st,
      classify (strip g) = Internal path ->
      let st' := check_link w dirpath fp g st in
      checked st' = checked st + 1
      /\ missing st'
         = if link_exists w (candidate_of dirpath path) then missing st
           else missing st ++ [(fp, strip g, candidate_of dirpath path)])
  /\ (forall dirpath fp txt st,
         checked (scan_text w dirpath fp txt st)
         = checked st + length (filter survives (finditer link_re txt))
         /\ missing (scan_text w dirpath fp txt st)
            = missing st
              ++ map (failure_of dirpath fp)
                     (filter (fails w dirpath) (finditer link_re txt)))
  /\ (forall dir st,
         scanned w = Some dir -> walk_depth dir <= walk_budget ->
         scan w = Done st ->
         checked st = list_sum (map doc_checked (documents ROOT dir))
         /\ missing st = concat (map (doc_failures w) (documents ROOT dir))
         /\ (forall dirs fn txt g,
                has_file dir dirs fn (Some txt) -> kept_dirs dirs ->
                endswith fn (lit ".md") = true ->
                In g (finditer link_re txt) ->
                fails w (fold_left path_join dirs ROOT) g = true ->
                In (failure_of (fold_left path_join dirs ROOT)
                               (walk_path dirs fn) g)
                   (missing st))
         /\ (forall m,
                In m (missing st) ->
                exists dirs fn txt g,
                  has_file dir dirs fn (Some txt) /\ kept_dirs dirs
                  /\ endswith fn (lit ".md") = true
                  /\ In g (finditer link_re txt)
                  /\ fails w (fold_left path_join dirs ROOT) g = true
                  /\ m = failure_of (fold_left path_join dirs ROOT)
                                    (walk_path dirs fn) g))
  /\ length (missing (state_of (scan w))) <= checked (state_of (scan w)).
Proof.
  split; [|split; [|split]].
  - intros dirpath fp g path st Hc. apply check_link_internal; exact Hc.
  - intros dirpath fp txt st. split;
      [apply scan_text_checked|apply scan_text_missing].
  - intros dir st Hdir _ Hscan. unfold scanned, scan in *.
    destruct (cwd_place w) as [[up d]|]; cbn [at_node option_map snd] in Hdir;
      [|discriminate].
    injection Hdir as ->. rewrite walk_documents in Hscan.
    destruct (scan_docs_account w (documents ROOT dir) (documents_md dir ROOT)
                initial st Hscan) as (H1 & H2 & _).
    cbn [checked missing initial app] in H1, H2.
    split; [exact H1|]. split; [exact H2|]. split.
    + intros dirs fn txt g Hfile Hk Hmd Hg Hfail. rewrite H2.
      apply in_concat.
      exists (doc_failures w (fold_left path_join dirs ROOT, (fn, Some txt))).
      split.
      * apply in_map. apply has_file_documents; assumption.
      * unfold doc_failures, doc_links, doc_path, walk_path. cbn [fst snd].
        apply in_map. apply filter_In. split; assumption.
    + intros m Hm. rewrite H2 in Hm.
      apply in_concat in Hm as [ms [Hms Hm]].
      apply in_map_iff in Hms as [[dp [fn c]] [<- Hd]].
      unfold doc_failures, doc_links, doc_path in Hm. cbn [fst snd] in Hm.
      destruct c as [txt|]; [|destruct Hm].
      apply in_map_iff in Hm as [g [<- Hg]].
      apply filter_In in Hg as [Hg Hfail].
      destruct (documents_has_file dir ROOT dp fn (Some txt) Hd)
        as (dirs & -> & Hfile & Hk & Hmd).
      exists dirs, fn, txt, g. repeat split; assumption.
  - unfold scan. destruct (cwd_place w) as [[up dir]|]; [|cbn; lia].
    apply walk_bound. cbn; lia.
Qed.

Lemma checked_and_missing_witness :
  (checked (check_link demo_world (lit ".") (lit "./README.md")
                       (lit "logo.png") initial) = 1
   /\ missing (check_link demo_world (lit ".") (lit "./README.md")
                          (lit "logo.png") initial)
      = [(lit "./README.md", lit "logo.png", lit "logo.png")])
  /\ checked (state_of (scan demo_world)) = 6
  /\ missing (state_of (scan demo_world))
     = [(lit "./README.md", lit "logo.png", lit "logo.png");
        (lit "./README.md", lit "../missing-page", lit "../missing-page")].
Proof.
  split.
  - exact (proj1 (checked_and_missing demo_world) (lit ".") (lit "./README.md")
             (lit "logo.png") (lit "logo.png") initial eq_refl).
  - destruct (proj1 (proj2 (proj2 (checked_and_missing demo_world)))
                (Dir true demo_repo) (state_of (scan demo_world)) eq_refl
                (proj1 (Nat.leb_le (walk_depth (Dir true demo_repo)) walk_budget)
                       eq_refl)
                eq_refl) as (H1 & H2 & _ & _).
    split; [exact (eq_trans H1 eq_refl)|exact (eq_trans H2 eq_refl)].
Defined.

(** C6.  When the run ends with no failure the script prints
    [Checked <N> links: no missing internal markdown links found.] and
    exits with status 0; otherwise it prints
    [Checked <N> links: <M> missing internal links:], an empty line, and
    one line [In <source>: -> <target>  (resolved: <candidate>)] per
    failure in order, and exits with status 2, which is not 0. *)
Theorem report_format (w : world) (st : state) :
  scan w = Done st ->
  (missing st = [] ->
   main w
   = Exit (lit "Checked " ++ str_of_nat (checked st)
           ++ lit " links: no missing internal markdown links found." ++ [nl])
          0)
  /\ (missing st <> [] ->
      main w
      = Exit (lit "Checked " ++ str_of_nat (checked st) ++ lit " links: "
              ++ str_of_nat (length (missing st))
              ++ lit " missing internal links:" ++ [nl] ++ [nl]
              ++ concat
                   (map (fun m : str * str * str =>
                           let '(src, target, cand) := m in
                           lit "In " ++ src ++ lit ": -> " ++ target
                           ++ lit "  (resolved: " ++ cand ++ lit ")" ++ [nl])
                        (missing st)))
             2)
  /\ 2%N <> 0%N.
Proof.
  intros Hs. unfold main. rewrite Hs. unfold report.
  split; [|split; [|discriminate]].
  - intros ->. unfold print. cbn [app]. rewrite <- !app_assoc. reflexivity.
  - intros Hne. destruct (missing st) as [|m ms] eqn:E; [congruence|].
    rewrite print_failures. unfold print, failure_lines.
    replace (map (fun x => failure_line x ++ [nl]) (m :: ms))
      with (map (fun x : str * str * str =>
                   let '(src, target, cand) := x in
                   lit "In " ++ src ++ lit ": -> " ++ target
                   ++ lit "  (resolved: " ++ cand ++ lit ")" ++ [nl])
                (m :: ms)).
    + cbn [app]. rewrite <- !app_assoc. reflexivity.
    + apply map_ext. intros [[src target] cand]. unfold failure_line.
      rewrite <- !app_assoc. reflexivity.
Qed.

Lemma report_format_witness :
  main demo_world
  = Exit (lit "Checked 6 links: 2 missing internal links:" ++ [nl; nl]
          ++ lit "In ./README.md: -> logo.png  (resolved: logo.png)" ++ [nl]
          ++ lit "In ./README.md: -> ../missing-page  (resolved: ../missing-page)"
          ++ [nl])
         2.
Proof.
  apply (proj1 (proj2 (report_format demo_world (state_of (scan demo_world))
                         eq_refl))).
  discriminate.
Defined.

(** C7.  In a tree of valid names, no file below a directory called
    [.git], [node_modules] or [db] (the names from the scan root down) is
    ever opened, whatever its own name; every file opened has a name
    ending in [.md]; and every failure comes from a document that was
    opened. *)
Theorem excluded_never_opened (w : world) :
  wf_world w = true ->
  let final := state_of (scan w) in
  (forall dirs fn,
      Forall (fun d => valid_name d = true) dirs -> valid_name fn = true ->
      Exists (fun d => in_skip_dirs d = true) dirs ->
      ~ In (walk_path dirs fn) (opened final))
  /\ (forall fp, In fp (opened final) -> endswith fp (lit ".md") = true)
  /\ (forall src target cand,
         In (src, target, cand) (missing final) -> In src (opened final)).
Proof.
  unfold wf_world, scanned, scan.
  destruct (cwd_place w) as [[up dir]|]; cbn [at_node option_map snd];
    [|intros _; cbn; repeat split; intros; tauto].
  intros Hwf. set (final := state_of (walk w ROOT dir initial)).
  pose proof (walk_walked w dir Hwf) as Hlog. fold final in Hlog.
  rewrite Forall_forall in Hlog.
  split; [|split].
  - intros dirs fn Hd Hfn Hex Hin.
    destruct (Hlog _ Hin) as (_ & dirs' & fn' & Hsplit & Hkept).
    rewrite (walk_path_split dirs fn Hd Hfn) in Hsplit.
    injection Hsplit as Hsplit. apply app_inj_tail in Hsplit as [-> _].
    apply Exists_exists in Hex as (d & Hdin & Hskip).
    unfold kept_dirs in Hkept. rewrite Forall_forall in Hkept.
    rewrite (Hkept d Hdin) in Hskip. discriminate.
  - intros fp Hin. exact (proj1 (Hlog _ Hin)).
  - assert (Hsrc : Forall (fun m => In (fst (fst m)) (opened final))
                          (missing final)).
    { apply (walk_inv w
               (fun st => Forall (fun m => In (fst (fst m)) (opened st))
                                 (missing st))
               (fun _ => True)).
      - intros top f st _ _ H. apply scan_file_sources; exact H.
      - intros; exact I.
      - exact Hwf.
      - exact I.
      - constructor. }
    rewrite Forall_forall in Hsrc.
    intros src target cand Hin. exact (Hsrc _ Hin).
Qed.

Lemma excluded_never_opened_witness :
  ~ In (lit "./db/index.md") (opened (state_of (scan demo_world)))
  /\ ~ In (lit "./docs/.git/notes/HEAD.md")
          (opened (state_of (scan demo_world))).
Proof.
  split.
  - apply (proj1 (excluded_never_opened demo_world eq_refl) [lit "db"]
             (lit "index.md")).
    + constructor; [reflexivity|constructor].
    + reflexivity.
    + left; reflexivity.
  - apply (proj1 (excluded_never_opened demo_world eq_refl)
             [lit "docs"; lit ".git"; lit "notes"] (lit "HEAD.md")).
    + repeat constructor.
    + reflexivity.
    + right; left; reflexivity.
Defined.

(** C8.  The report is a function of the tree.  Two runs end the same way,
    with the same counter, the same failures in the same order, the same
    output and the same status, when the scanned tree is the same, entry
    for entry in listing order and byte for byte, and the rest of the
    file system has the same names and kinds; in particular two runs over
    an unchanged file system do. *)
Theorem scan_deterministic (w1 w2 : world) :
  scanned w1 = scanned w2 ->
  fs_cwd w1 = fs_cwd w2 ->
  shape (fs_root w1) = shape (fs_root w2) ->
  scan w1 = scan w2 /\ main w1 = main w2.
Proof.
  intros Hs Hc Hr.
  assert (H : scan w1 = scan w2).
  { unfold scan. unfold scanned in Hs.
    destruct (cwd_place w1) as [[up1 d1]|], (cwd_place w2) as [[up2 d2]|];
      cbn [at_node option_map snd] in Hs; try discriminate; [|reflexivity].
    injection Hs as ->.
    apply walk_ext; intros p; apply (isfile_shape w1 w2 p Hc Hr). }
  split; [exact H|]. unfold main. rewrite H. reflexivity.
Qed.

Lemma scan_deterministic_witness :
  main demo_world = main demo_world_later
  /\ main demo_world = main demo_world.
Proof.
  split.
  - exact (proj2 (scan_deterministic demo_world demo_world_later
                    eq_refl eq_refl eq_refl)).
  - exact (proj2 (scan_deterministic demo_world demo_world
                    eq_refl eq_refl eq_refl)).
Defined.

(** The order in which a directory lists its entries is part of the tree:
    the failures are reported in that order. *)
Lemma listing_order_matters : main listing_ab <> main listing_ba.
Proof. vm_compute. discriminate. Qed.

(** Counterexample to C9 as worded: an image link inside the parentheses
    of a link that is not closed is not matched from its [[].  The match
    that begins at the earlier [[] runs over it, the group begins with
    [!], and the target of the image, a path that survives the skip
    rules, is neither counted nor resolved. *)
Lemma image_link_swallowed :
  swallowed_image = lit "[x](![alt](t.png)"
  /\ finditer link_re swallowed_image = [lit "![alt](t.png"]
  /\ ~ In (lit "t.png") (finditer link_re swallowed_image)
  /\ classify (strip (lit "![alt](t.png")) = Image
  /\ classify (strip (lit "t.png")) = Internal (lit "t.png")
  /\ scan_text demo_world (lit ".") (lit "./README.md") swallowed_image initial
     = initial
  /\ matches_before link_re 0 (lit "[x](") (lit "![alt](t.png)") = None.
Proof.
  split; [reflexivity|]. split; [reflexivity|]. split.
  - change (finditer link_re swallowed_image) with [lit "![alt](t.png"].
    intros [H|[]]. discriminate H.
  - repeat split.
Qed.

(** C9.  In an image link [![alt](target)] that the scan of the text
    comes to between two matches (no match that begins before it runs
    into it, as is the case when no [[] stands before it) the pattern
    matches from the [[] on and its group is [target], without the [!]:
    the text yields the links found before, then [target], then the links
    of the rest, as it does for the link without the [!]; the target goes
    through the loop body as any link does, and when it survives the skip
    rules it is counted and resolved.  The image rule applies exactly
    when the text between the parentheses, trimmed as the loop body trims
    it, begins with [!], that is when it does so past its leading white
    space. *)
Theorem image_link_extracted (w : world) (dirpath fp : str)
    (pre alt target post : str) (found : list str) (st : state) :
  lacks (chr "]") alt = true ->
  lacks (chr ")") target = true ->
  target <> [] ->
  let link := lit "[" ++ alt ++ lit "](" ++ target ++ lit ")" ++ post in
  let image := pre ++ lit "!" ++ link in
  let plain := pre ++ link in
  matches_before link_re 0 pre (lit "!" ++ link) = Some found ->
  re_match link_re link = Some (target, post)
  /\ finditer link_re image = found ++ target :: finditer link_re post
  /\ (lacks (chr "[") pre = true ->
      found = [] /\ finditer link_re image = finditer link_re plain)
  /\ (forall found',
         matches_before link_re 0 pre link = Some found' ->
         finditer link_re plain = found' ++ target :: finditer link_re post)
  /\ scan_text w dirpath fp image st
     = scan_text w dirpath fp post
         (check_link w dirpath fp target
            (fold_left (fun s g => check_link w dirpath fp g s) found st))
  /\ (forall path st',
         classify (strip target) = Internal path ->
         checked (check_link w dirpath fp target st') = checked st' + 1
         /\ missing (check_link w dirpath fp target st')
            = if link_exists w (candidate_of dirpath path) then missing st'
              else missing st'
                   ++ [(fp, strip target, candidate_of dirpath path)])
  /\ (classify (strip target) = Image
      <-> startswith (strip target) (lit "!") = true)
  /\ startswith (strip target) (lit "!")
     = startswith (lstrip target) (lit "!").
Proof.
  intros Ha Ht Hne link image plain Hpre.
  assert (Hlink : finditer link_re link = target :: finditer link_re post).
  { exact (finditer_link [] alt target post eq_refl Ha Ht Hne). }
  assert (Hbang : finditer link_re (lit "!" ++ link)
                  = target :: finditer link_re post).
  { exact (finditer_link (lit "!") alt target post eq_refl Ha Ht Hne). }
  assert (Himage : finditer link_re image
                   = found ++ target :: finditer link_re post).
  { unfold image, finditer.
    rewrite (finditer_before link_re pre (lit "!" ++ link) 0 found Hpre).
    f_equal. exact Hbang. }
  split; [|split; [exact Himage|split; [|split; [|split; [|split; [|split]]]]]].
  - rewrite re_match_link_re. apply link_at_link; assumption.
  - intros Hp. rewrite (matches_before_lacks pre (lit "!" ++ link) Hp) in Hpre.
    injection Hpre as <-. split; [reflexivity|].
    rewrite Himage. unfold plain. rewrite (finditer_lacks _ _ Hp).
    symmetry. exact Hlink.
  - intros found' Hpre'. unfold plain, finditer.
    rewrite (finditer_before link_re pre link 0 found' Hpre').
    f_equal. exact Hlink.
  - unfold scan_text. rewrite Himage, fold_left_app. reflexivity.
  - intros path st' Hc. apply check_link_internal; exact Hc.
  - unfold classify, is_external.
    destruct (startswith (strip target) (lit "!")) eqn:Hb.
    + destruct (strip target) as [|c t]; [discriminate|].
      cbn [lit list_ascii_of_string map startswith] in *.
      rewrite andb_true_r in Hb. apply N.eqb_eq in Hb. subst c.
      cbn. split; reflexivity.
    + destruct (_ || _); [split; discriminate|].
      cbv zeta. destruct (_ || _); split; discriminate.
  - unfold strip. apply rstrip_head. reflexivity.
Qed.

Lemma image_link_extracted_witness :
  finditer link_re (lit "see [a](b) and ![logo](logo.png).")
  = [lit "b"; lit "logo.png"]
  /\ checked (scan_text demo_world (lit ".") (lit "./README.md")
                        (lit "Logo: ![logo](logo.png).") initial) = 1.
Proof.
  split.
  - pose proof (image_link_extracted demo_world (lit ".") (lit "./README.md")
                  (lit "see [a](b) and ") (lit "logo") (lit "logo.png")
                  (lit ".") [lit "b"] initial eq_refl eq_refl) as H.
    cbv zeta in H.
    destruct H as (_ & H2 & _); [discriminate|reflexivity|].
    exact H2.
  - pose proof (image_link_extracted demo_world (lit ".") (lit "./README.md")
                  (lit "Logo: ") (lit "logo") (lit "logo.png") (lit ".") []
                  initial eq_refl eq_refl) as H.
    cbv zeta in H.
    destruct H as (_ & _ & _ & _ & H5 & H6 & _); [discriminate|reflexivity|].
    change (lit "Logo: ![logo](logo.png).")
      with (lit "Logo: " ++ lit "!" ++ lit "[" ++ lit "logo" ++ lit "]("
            ++ lit "logo.png" ++ lit ")" ++ lit ".").
    rewrite H5. exact (proj1 (H6 (lit "logo.png") _ eq_refl)).
Defined.

(** C10.  A link written [[label]()] is not extracted: every group the
    pattern yields has at least one character, no match starts at such a
    link or inside it, and the text up to its closing parenthesis adds
    nothing to the counter or to the failures. *)
Theorem empty_target_not_extracted (w : world) (dirpath fp : str) :
  (forall txt g, In g (finditer link_re txt) -> g <> [])
  /\ (forall label post,
         lacks (chr "]") label = true ->
         re_match link_re (lit "[" ++ label ++ lit "]()" ++ post) = None)
  /\ (forall pre label post,
         lacks (chr "[") pre = true ->
         lacks (chr "]") label = true ->
         finditer link_re (pre ++ lit "[" ++ label ++ lit "]()" ++ post)
         = finditer link_re post)
  /\ (forall pre label post st,
         lacks (chr "[") pre = true ->
         lacks (chr "]") label = true ->
         scan_text w dirpath fp (pre ++ lit "[" ++ label ++ lit "]()" ++ post)
                   st
         = scan_text w dirpath fp post st)
  /\ (forall pre label st,
         lacks (chr "[") pre = true ->
         lacks (chr "]") label = true ->
         scan_text w dirpath fp (pre ++ lit "[" ++ label ++ lit "]()") st = st).
Proof.
  split; [|split; [|split; [|split]]].
  - intros txt g. apply finditer_groups.
  - intros label post Hl. rewrite re_match_link_re.
    apply link_at_empty_target; exact Hl.
  - intros pre label post Hp Hl. apply finditer_empty_link; assumption.
  - intros pre label post st Hp Hl. unfold scan_text.
    rewrite (finditer_empty_link pre label post Hp Hl). reflexivity.
  - intros pre label st Hp Hl. unfold scan_text.
    rewrite <- (app_nil_r (lit "]()")).
    rewrite (finditer_empty_link pre label [] Hp Hl). reflexivity.
Qed.

Lemma empty_target_not_extracted_witness :
  finditer link_re (lit "See [label]() and [more](more.md).")
  = [lit "more.md"]
  /\ scan_text demo_world (lit ".") (lit "./README.md") (lit "See [label]()")
               initial = initial.
Proof.
  destruct (empty_target_not_extracted demo_world (lit ".") (lit "./README.md"))
    as (_ & _ & H3 & _ & H5).
  split.
  - exact (eq_trans (H3 (lit "See ") (lit "label") (lit " and [more](more.md).")
                        eq_refl eq_refl) eq_refl).
  - exact (H5 (lit "See ") (lit "label") initial eq_refl eq_refl).
Defined.

(** ** The examples of the documentation, run on the small repository *)

Example root_relative_guide :
  candidate_of (lit ".") (lit "/guide") = lit "guide"
  /\ link_exists demo_world (lit "guide") = true.
Proof. split; reflexivity. Qed.

Example sibling_with_md :
  candidate_of (lit ".") (lit "./sibling") = lit "sibling"
  /\ isfile demo_world (lit "sibling") = false
  /\ link_exists demo_world (lit "sibling") = true.
Proof. repeat split; reflexivity. Qed.

Example missing_page_recorded :
  check_link demo_world (lit ".") (lit "./README.md") (lit "../missing-page")
             initial
  = State 1 [(lit "./README.md", lit "../missing-page", lit "../missing-page")]
          [].
Proof. reflexivity. Qed.

Example demo_opened :
  opened (state_of (scan demo_world))
  = [lit "./README.md"; lit "./guide.md"; lit "./sibling.md";
     lit "./folder/README.md"].
Proof. reflexivity. Qed.

Example unlistable_directory_passed_over :
  opened (state_of (scan demo_world_private)) = [lit "./README.md"]
  /\ main demo_world_private
     = Exit (lit "Checked 1 links: no missing internal markdown links found."
             ++ [nl]) 0.
Proof. split; reflexivity. Qed.

Example no_links_no_counts :
  scan_text demo_world (lit ".") (lit "./sibling.md") (lit "no links here")
            initial = initial.
Proof. reflexivity. Qed.

(** * Further properties of the link checker *)

Section LinkRules.

Lemma startswith_before (c : char) (p f pre : str) :
  lacks c p = true -> lacks c pre = true ->
  startswith (p ++ c :: f) pre = startswith p pre.
Proof.
  revert p. induction pre as [|x pre IH]; intros p Hp Hpre; [reflexivity|].
  cbn [lacks forallb] in Hpre. apply andb_true_iff in Hpre as [Hx Hpre].
  destruct p as [|y p]; cbn [app startswith].
  - apply negb_true_iff in Hx. rewrite N.eqb_sym, Hx. reflexivity.
  - cbn [lacks forallb] in Hp. apply andb_true_iff in Hp as [_ Hp].
    rewrite (IH p Hp Hpre). reflexivity.
Qed.

Lemma split_first_head (c : char) (s : str) :
  startswith (split_first c s) [c] = false.
Proof.
  destruct (split_first_spec c s) as [Hl _].
  destruct (split_first c s) as [|x r]; [reflexivity|].
  cbn [lacks forallb] in Hl. apply andb_true_iff in Hl as [Hx _].
  apply negb_true_iff in Hx. cbn [startswith]. rewrite Hx. reflexivity.
Qed.

(** X1.  The second half of the anchor test, [path.startswith('#')], never
    holds: [path] is cut at the first [#].  A link is classed an anchor
    exactly when it is past the two tests before and its path is empty. *)
Theorem anchor_test_second_half_dead (target : str) :
  startswith (split_first (chr "#") target) (lit "#") = false
  /\ (classify target = Anchor
      <-> is_external target = false
          /\ startswith target (lit "!") = false
          /\ split_first (chr "#") target = []).
Proof.
  pose proof (split_first_head (chr "#") target) as Hd.
  split; [exact Hd|].
  unfold classify. destruct (is_external target).
  { split; [discriminate|]. intros [H _]; discriminate. }
  destruct (startswith target (lit "!")).
  { split; [discriminate|]. intros (_ & H & _); discriminate. }
  cbv zeta. change (lit "#") with [chr "#"]. rewrite Hd, orb_false_r.
  destruct (split_first (chr "#") target) as [|x r]; cbn [str_eqb].
  - split; [intros _; repeat split|reflexivity].
  - split; [discriminate|]. intros (_ & _ & H); discriminate.
Qed.

(** X2.  What follows the first [#] of a target never changes how it is
    classed nor the path that is resolved: a target and the same target
    with any fragment get the same class. *)
Theorem fragment_ignored (p f : str) :
  lacks (chr "#") p = true ->
  classify (p ++ chr "#" :: f) = classify p.
Proof.
  intros Hp. unfold classify, is_external.
  rewrite !(startswith_before (chr "#") p f) by (exact Hp || reflexivity).
  unfold split_first.
  rewrite (takewhile_app_stop (fun x : char => negb (x =? chr "#")%N)
             p (chr "#") f Hp)
    by (rewrite N.eqb_refl; reflexivity).
  rewrite (takewhile_whole (fun x : char => negb (x =? chr "#")%N) p Hp).
  reflexivity.
Qed.

Lemma fragment_ignored_witness :
  classify (lit "docs/guide#install") = Internal (lit "docs/guide")
  /\ classify (lit "#top") = Anchor.
Proof.
  split.
  - exact (fragment_ignored (lit "docs/guide") (lit "install") eq_refl).
  - exact (fragment_ignored [] (lit "top") eq_refl).
Defined.

Lemma strip_blank (g : str) : forallb isspace g = true -> strip g = [].
Proof.
  intros H. unfold strip, lstrip. rewrite (dropwhile_whole _ _ H). reflexivity.
Qed.

(** X3.  A link with nothing but white space between its parentheses is
    classed an anchor: it is neither counted nor reported. *)
Theorem blank_target_skipped (w : world) (dirpath fp g : str) (st : state) :
  forallb isspace g = true ->
  classify (strip g) = Anchor /\ check_link w dirpath fp g st = st.
Proof.
  intros H. unfold check_link. rewrite (strip_blank g H). split; reflexivity.
Qed.

Lemma blank_target_skipped_witness :
  finditer link_re (lit "[later](  )") = [lit "  "]
  /\ scan_text demo_world (lit ".") (lit "./README.md") (lit "[later](  )")
               initial = initial.
Proof.
  split; [reflexivity|].
  exact (proj2 (blank_target_skipped demo_world (lit ".") (lit "./README.md")
                  (lit "  ") initial eq_refl)).
Defined.

(** X4.  The failures of a document are those of its links that survive
    the skip rules and fail the three checks, in the order the links have
    in the text, each with the path of the document, the trimmed target
    and the candidate. *)
Theorem document_failures_in_order (w : world) (dirpath fp txt : str)
    (st : state) :
  missing (scan_text w dirpath fp txt st)
  = missing st
    ++ map (failure_of dirpath fp)
           (filter (fails w dirpath) (finditer link_re txt)).
Proof. exact (scan_text_missing w dirpath fp txt st). Qed.

End LinkRules.

Section WalkGrows.

Lemma extends_refl (st : state) : extends st st.
Proof.
  split; [lia|]. split; exists []; symmetry; apply app_nil_r.
Qed.

Lemma extends_trans (a b c : state) : extends a b -> extends b c -> extends a c.
Proof.
  intros (H1 & [m1 H2] & [o1 H3]) (H4 & [m2 H5] & [o2 H6]).
  split; [lia|]. split.
  - exists (m1 ++ m2). rewrite H5, H2, app_assoc. reflexivity.
  - exists (o1 ++ o2). rewrite H6, H3, app_assoc. reflexivity.
Qed.

Lemma check_link_extends (w : world) (dirpath fp g : str) (st : state) :
  extends st (check_link w dirpath fp g st).
Proof.
  split; [|split].
  - unfold check_link. destruct (classify (strip g)); try lia.
    destruct (negb _); cbn [checked]; lia.
  - rewrite check_link_missing. eexists; reflexivity.
  - rewrite check_link_opened. exists []. symmetry; apply app_nil_r.
Qed.

Lemma scan_text_extends (w : world) (dirpath fp txt : str) (st : state) :
  extends st (scan_text w dirpath fp txt st).
Proof.
  unfold scan_text. revert st.
  induction (finditer link_re txt) as [|g gs IH]; intros st;
    [apply extends_refl|].
  cbn [fold_left]. eapply extends_trans; [apply check_link_extends|apply IH].
Qed.

Lemma scan_file_extends (w : world) (top : str) (f : str * option str)
    (st : state) :
  extends st (state_of (scan_file w top f st)).
Proof.
  destruct f as [fn content]. unfold scan_file.
  destruct (negb _); [apply extends_refl|].
  set (st0 := State (checked st) (missing st) (opened st ++ [path_join top fn])).
  assert (H0 : extends st st0).
  { split; [cbn; lia|]. split; [exists []; symmetry; apply app_nil_r|].
    eexists; reflexivity. }
  destruct content as [txt|]; cbn [state_of]; [|exact H0].
  eapply extends_trans; [exact H0|apply scan_text_extends].
Qed.

Lemma scan_files_extends (w : world) (top : str)
    (files : list (str * option str)) (st : state) :
  extends st (state_of (scan_files w top files st)).
Proof.
  revert st; induction files as [|f files IH]; intros st;
    [apply extends_refl|].
  cbn [scan_files]. rewrite state_of_bind.
  pose proof (scan_file_extends w top f st) as H.
  destruct (scan_file w top f st) as [s|s]; [|exact H].
  eapply extends_trans; [exact H|apply IH].
Qed.

Lemma walk_subdirs_extends (w : world) (top : str) (es : list (str * node))
    (st : state) :
  Forall (fun e => forall top st, extends st (state_of (walk w top (snd e) st)))
         es ->
  extends st (state_of (walk_subdirs w top es st)).
Proof.
  intros H. revert st.
  induction H as [|[d x] es Hx _ IH]; intros st; [apply extends_refl|].
  cbn [walk_subdirs]. destruct x as [c|lb sub]; [apply IH|].
  destruct (in_skip_dirs d); [apply IH|].
  rewrite state_of_bind. cbn [snd] in Hx.
  pose proof (Hx (path_join top d) st) as H2.
  destruct (walk w (path_join top d) (Dir lb sub) st) as [s|s]; [|exact H2].
  eapply extends_trans; [exact H2|apply IH].
Qed.

Lemma walk_extends (w : world) (dir : node) :
  forall top st, extends st (state_of (walk w top dir st)).
Proof.
  induction dir as [c|lb es IHes] using node_ind; intros top st;
    [apply extends_refl|].
  destruct lb; [|apply extends_refl].
  rewrite walk_Dir, state_of_bind.
  pose proof (scan_files_extends w top (walk_files es) st) as H1.
  destruct (scan_files w top (walk_files es) st) as [st1|st1]; [|exact H1].
  eapply extends_trans; [exact H1|].
  apply walk_subdirs_extends. exact IHes.
Qed.

(** X5.  The walk only ever adds: from any state, and whether it ends or
    raises, the counter has not gone down and the failures and the
    opened paths recorded before are still there, in front. *)
Theorem walk_only_appends (w : world) (dir : node) (top : str) (st : state) :
  let st' := state_of (walk w top dir st) in
  checked st <= checked st'
  /\ (exists ms, missing st' = missing st ++ ms)
  /\ (exists os, opened st' = opened st ++ os).
Proof. exact (walk_extends w dir top st). Qed.

(** X6.  A run that ends, on a tree no deeper than the walk reaches, has
    opened the documents of the tree, in discovery order, and nothing
    else: every [.md] file that lies in directories the walk keeps and can
    list was opened, no document is passed over. *)
Theorem every_document_opened (w : world) (dir : node) (st : state) :
  scanned w = Some dir -> walk_depth dir <= walk_budget ->
  scan w = Done st ->
  opened st = map doc_path (documents ROOT dir)
  /\ (forall dirs fn c,
         has_file dir dirs fn c -> kept_dirs dirs ->
         endswith fn (lit ".md") = true ->
         In (walk_path dirs fn) (opened st))
  /\ (forall fp,
         In fp (opened st) ->
         exists dirs fn c,
           has_file dir dirs fn c /\ kept_dirs dirs
           /\ endswith fn (lit ".md") = true /\ fp = walk_path dirs fn).
Proof.
  unfold scanned, scan. destruct (cwd_place w) as [[up d]|];
    cbn [at_node option_map snd]; [|discriminate].
  intros Hd _ Hs. injection Hd as ->. rewrite walk_documents in Hs.
  destruct (scan_docs_account w (documents ROOT dir) (documents_md dir ROOT)
              initial st Hs) as (_ & _ & H).
  cbn [opened initial app] in H. split; [exact H|]. split.
  - intros dirs fn c Hfile Hk Hmd. rewrite H.
    exact (in_map doc_path _ _
             (has_file_documents dirs dir ROOT fn c Hfile Hk Hmd)).
  - intros fp Hfp. rewrite H in Hfp.
    apply in_map_iff in Hfp as [[dp [fn c]] [<- Hd]].
    destruct (documents_has_file dir ROOT dp fn c Hd)
      as (dirs & -> & Hfile & Hk & Hmd).
    exists dirs, fn, c. repeat split; assumption.
Qed.

Lemma every_document_opened_witness :
  In (lit "./folder/README.md") (opened (state_of (scan demo_world))).
Proof.
  apply (proj1 (proj2 (every_document_opened demo_world (Dir true demo_repo)
                         (state_of (scan demo_world)) eq_refl
                         (proj1 (Nat.leb_le (walk_depth (Dir true demo_repo))
                                   walk_budget) eq_refl)
                         eq_refl))
               [lit "folder"] (lit "README.md") (Some (lit "[e]()"))).
  - exists true, [doc "README.md" "[e]()"]. split.
    + do 4 right. left. reflexivity.
    + left. reflexivity.
  - constructor; [reflexivity|constructor].
  - reflexivity.
Defined.

End WalkGrows.

Section Reading.

Lemma readable_Dir (es : list (str * node)) :
  readable (Dir true es) = forallb readable_entry es.
Proof.
  induction es as [|[nm x] es IH]; [reflexivity|].
  cbn [readable] in *. cbn [forallb]. rewrite <- IH.
  unfold readable_entry, readable_file. cbn [fst snd].
  destruct x; reflexivity.
Qed.

Lemma scan_files_done (w : world) (top : str)
    (files : list (str * option str)) (st : state) :
  is_done (scan_files w top files st) = forallb readable_file files.
Proof.
  revert st; induction files as [|[fn c] files IH]; intros st; [reflexivity|].
  cbn [scan_files forallb scan_file]. unfold readable_file at 1.
  cbn [fst snd]. destruct (negb (endswith fn (lit ".md"))); cbn [bind orb].
  - apply IH.
  - destruct c as [txt|]; cbn [bind is_some andb]; [apply IH|reflexivity].
Qed.

Lemma walk_done (w : world) (dir : node) :
  forall top st, is_done (walk w top dir st) = readable dir.
Proof.
  induction dir as [c|lb es IHes] using node_ind; intros top st; [reflexivity|].
  destruct lb; [|reflexivity].
  rewrite walk_Dir, readable_Dir.
  assert (Hsplit : forallb readable_entry es
                   = forallb readable_file (walk_files es)
                     && forallb (fun e => match snd e with
                                          | File _ => true
                                          | Dir _ _ => readable_entry e
                                          end) es).
  { clear. induction es as [|[nm [c|lb sub]] es IH]; [reflexivity| |];
      cbn [forallb walk_files snd]; rewrite IH.
    - unfold readable_entry at 1. cbn [fst snd].
      rewrite andb_assoc. reflexivity.
    - rewrite andb_comm, <- andb_assoc. f_equal. apply andb_comm. }
  rewrite Hsplit, <- (scan_files_done w top (walk_files es) st).
  clear Hsplit.
  destruct (scan_files w top (walk_files es) st) as [st1|st1];
    [|reflexivity]. cbn [bind is_done andb]. revert st1.
  induction IHes as [|[d x] es Hx _ IH]; intros st1; [reflexivity|].
  cbn [walk_subdirs forallb snd]. destruct x as [c|lb sub]; [apply IH|].
  unfold readable_entry at 1. cbn [fst snd].
  destruct (in_skip_dirs d); cbn [orb]; [apply IH|].
  cbn [snd] in Hx. rewrite <- (Hx (path_join top d) st1).
  destruct (walk w (path_join top d) (Dir lb sub) st1) as [s|s];
    cbn [bind is_done andb]; [apply IH|reflexivity].
Qed.

(** X7.  When some [.md] file in a directory the walk keeps and can list
    cannot be read, the run ends in an uncaught exception.  When all of
    them can be read and the tree is no deeper than the walk reaches, the
    loop ends and the script goes on to its report: a file that cannot be
    read elsewhere (another suffix, an excluded directory, a directory
    that cannot be listed) never stops it. *)
Theorem unreadable_document_stops_run (w : world) (dir : node) :
  scanned w = Some dir ->
  (readable dir = false -> main w = Traceback)
  /\ (readable dir = true -> walk_depth dir <= walk_budget ->
      exists st, scan w = Done st /\ main w = report st).
Proof.
  unfold main, scan, scanned.
  destruct (cwd_place w) as [[up d]|]; cbn [at_node option_map snd];
    [|discriminate].
  intros Hd. injection Hd as ->.
  pose proof (walk_done w dir ROOT initial) as H.
  destruct (walk w ROOT dir initial) as [st|st]; cbn [is_done] in H.
  - split; [intros Hr; congruence|]. intros _ _. exists st.
    split; reflexivity.
  - split; [reflexivity|]. intros Hr; congruence.
Qed.

Lemma unreadable_document_stops_run_witness :
  main demo_world_locked = Traceback
  /\ exists st,
       scan demo_world_touched = Done st
       /\ main demo_world_touched = report st.
Proof.
  split.
  - exact (proj1 (unreadable_document_stops_run demo_world_locked _ eq_refl)
             eq_refl).
  - exact (proj2 (unreadable_document_stops_run demo_world_touched
                    (Dir true demo_repo_touched) eq_refl)
             eq_refl
             (proj1 (Nat.leb_le (walk_depth (Dir true demo_repo_touched))
                       walk_budget) eq_refl)).
Defined.

Lemma visible_Dir (lb : bool) (es : list (str * node)) :
  visible (Dir lb es) = Dir lb (map visible_entry es).
Proof.
  cbn [visible]. f_equal.
  induction es as [|[nm x] es IH]; [reflexivity|].
  cbn [map]. rewrite <- IH. unfold visible_entry. cbn [fst snd].
  destruct x; reflexivity.
Qed.

Section SameAnswersSeen.

Variables w1 w2 : world.
Hypothesis same_isfile : forall p, isfile w1 p = isfile w2 p.
Hypothesis same_isdir : forall p, isdir w1 p = isdir w2 p.

Lemma scan_files_seen (top : str) (es1 : list (str * node)) :
  forall es2 st,
    map visible_entry es1 = map visible_entry es2 ->
    scan_files w1 top (walk_files es1) st
    = scan_files w2 top (walk_files es2) st.
Proof.
  induction es1 as [|[n1 x1] es1 IH]; intros [|[n2 x2] es2] st H;
    try discriminate; [reflexivity|].
  cbn [map] in H. injection H as Hn Hx Hes. cbn [fst snd] in Hn, Hx.
  subst n2. destruct x1 as [c1|l1 s1], x2 as [c2|l2 s2]; cbn [walk_files].
  - cbn [scan_files scan_file].
    destruct (endswith n1 (lit ".md")); cbn [negb bind].
    + injection Hx as ->. destruct c2 as [txt|]; cbn [bind]; [|reflexivity].
      rewrite (scan_text_ext w1 w2 same_isfile same_isdir).
      apply IH; exact Hes.
    + apply IH; exact Hes.
  - destruct (in_skip_dirs n1);
      [rewrite shape_Dir in Hx|rewrite visible_Dir in Hx];
      destruct (endswith n1 (lit ".md")); discriminate.
  - destruct (in_skip_dirs n1);
      [rewrite shape_Dir in Hx|rewrite visible_Dir in Hx];
      destruct (endswith n1 (lit ".md")); discriminate.
  - apply IH; exact Hes.
Qed.

Lemma walk_seen (d1 : node) :
  forall d2 top st,
    visible d1 = visible d2 -> walk w1 top d1 st = walk w2 top d2 st.
Proof.
  induction d1 as [c1|l1 es1 IHes] using node_ind; intros [c2|l2 es2] top st H.
  - reflexivity.
  - rewrite visible_Dir in H. discriminate.
  - rewrite visible_Dir in H. discriminate.
  - rewrite !visible_Dir in H. injection H as Hl H. subst l2.
    destruct l1; [|reflexivity].
    rewrite !walk_Dir, (scan_files_seen top es1 es2 st H).
    destruct (scan_files w2 top (walk_files es2) st) as [st1|st1];
      [|reflexivity]. cbn [bind]. revert es2 H st1.
    induction IHes as [|[n1 x1] es1 Hx _ IH]; intros [|[n2 x2] es2] H st1;
      try discriminate; [reflexivity|].
    cbn [map] in H. injection H as Hn Hv Hes. cbn [fst snd] in Hn, Hv.
    subst n2. cbn [walk_subdirs snd] in *.
    destruct x1 as [c1|k1 s1], x2 as [c2|k2 s2].
    + apply IH; exact Hes.
    + destruct (in_skip_dirs n1);
        [rewrite shape_Dir in Hv|rewrite visible_Dir in Hv];
        destruct (endswith n1 (lit ".md")); discriminate.
    + destruct (in_skip_dirs n1);
        [rewrite shape_Dir in Hv|rewrite visible_Dir in Hv];
        destruct (endswith n1 (lit ".md")); discriminate.
    + destruct (in_skip_dirs n1); [apply IH; exact Hes|].
      rewrite (Hx (Dir k2 s2) (path_join top n1) st1 Hv).
      destruct (walk w2 (path_join top n1) (Dir k2 s2) st1) as [s|s];
        [apply IH; exact Hes|reflexivity].
Qed.

End SameAnswersSeen.

(** X8.  The script never reads what it does not scan: the text of files
    without the [.md] suffix and of everything below [.git],
    [node_modules] and [db], and whether those can be read at all, never
    changes the state the run ends in, its output or its status; only
    their names and kinds do, through the existence checks. *)
Theorem unread_content_never_matters (w1 w2 : world) :
  option_map visible (scanned w1) = option_map visible (scanned w2) ->
  fs_cwd w1 = fs_cwd w2 ->
  shape (fs_root w1) = shape (fs_root w2) ->
  scan w1 = scan w2 /\ main w1 = main w2.
Proof.
  intros Hv Hc Hr.
  assert (H : scan w1 = scan w2).
  { unfold scan. unfold scanned in Hv.
    destruct (cwd_place w1) as [[up1 d1]|], (cwd_place w2) as [[up2 d2]|];
      cbn [at_node option_map snd] in Hv; try discriminate; [|reflexivity].
    injection Hv as Hv.
    apply walk_seen; [| |exact Hv]; intros p;
      apply (isfile_shape w1 w2 p Hc Hr). }
  split; [exact H|]. unfold main. rewrite H. reflexivity.
Qed.

Lemma unread_content_never_matters_witness :
  main demo_world_touched = main demo_world.
Proof.
  exact (proj2 (unread_content_never_matters demo_world_touched demo_world
                  eq_refl eq_refl eq_refl)).
Defined.

End Reading.

(** * Properties of [scripts/append_prompt_history.py] *)

Section AppendHistory.

Lemma dropwhile_incl (p : char -> bool) (s : str) (c : char) :
  In c (dropwhile p s) -> In c s.
Proof.
  induction s as [|x s IH]; cbn [dropwhile]; [tauto|].
  destruct (p x); [right; apply IH; assumption|tauto].
Qed.

Lemma rstrip_incl (s : str) (c : char) : In c (rstrip s) -> In c s.
Proof.
  unfold rstrip. intros H. apply in_rev in H. apply dropwhile_incl in H.
  apply in_rev; exact H.
Qed.

Lemma strip_incl (s : str) (c : char) : In c (strip s) -> In c s.
Proof.
  unfold strip, lstrip. intros H. apply rstrip_incl in H.
  apply dropwhile_incl in H. exact H.
Qed.

Lemma lacks_In (c : char) (s : str) : lacks c s = true <-> ~ In c s.
Proof.
  unfold lacks. rewrite forallb_forall. split.
  - intros H Hin. specialize (H c Hin). rewrite N.eqb_refl in H. discriminate.
  - intros H x Hx. apply negb_true_iff, N.eqb_neq. intros ->. exact (H Hx).
Qed.

Lemma lacks_strip (c : char) (s : str) :
  lacks c s = true -> lacks c (strip s) = true.
Proof.
  rewrite !lacks_In. intros H Hin. apply H, strip_incl, Hin.
Qed.

Lemma uint_digits (d : Decimal.uint) :
  forallb is_digit (lit (NilEmpty.string_of_uint d)) = true.
Proof.
  unfold lit.
  induction d; cbn [NilEmpty.string_of_uint list_ascii_of_string map forallb];
    try rewrite IHd; reflexivity.
Qed.

Lemma str_of_nat_digits (n : nat) : forallb is_digit (str_of_nat n) = true.
Proof. apply uint_digits. Qed.

Lemma zero_pad_digits (width n : nat) :
  forallb is_digit (zero_pad width n) = true.
Proof.
  unfold zero_pad. rewrite forallb_app, str_of_nat_digits, andb_true_r.
  induction (width - length (str_of_nat n)) as [|k IH]; [reflexivity|].
  cbn [repeat forallb]. rewrite IH. reflexivity.
Qed.

Lemma digits_lack (c : char) (s : str) :
  is_digit c = false -> forallb is_digit s = true -> lacks c s = true.
Proof.
  intros Hc Hs. apply lacks_In. intros Hin.
  rewrite forallb_forall in Hs. rewrite (Hs c Hin) in Hc. discriminate.
Qed.

Lemma timestamp_lacks_nl (utcnow : datetime) :
  lacks nl (timestamp utcnow) = true.
Proof.
  unfold timestamp, isoformat, replace_microsecond.
  cbn [year month day hour minute second microsecond Nat.eqb].
  rewrite !lacks_app.
  rewrite !(digits_lack nl (zero_pad _ _) eq_refl (zero_pad_digits _ _)).
  reflexivity.
Qed.

Lemma zero_pad_2 (n : nat) : n < 100 -> length (zero_pad 2 n) = 2.
Proof.
  intros H.
  assert (Hall : forallb (fun k => length (zero_pad 2 k) =? 2) (seq 0 100)
                 = true) by (vm_compute; reflexivity).
  rewrite forallb_forall in Hall. apply Nat.eqb_eq, Hall, in_seq. lia.
Qed.

Lemma zero_pad_4 (n : nat) : n < 100 * 100 -> length (zero_pad 4 n) = 4.
Proof.
  intros H.
  assert (Hall : forallb (fun k => length (zero_pad 4 k) =? 4)
                         (seq 0 (100 * 100))
                 = true) by (vm_compute; reflexivity).
  rewrite forallb_forall in Hall. apply Nat.eqb_eq, Hall, in_seq. lia.
Qed.

Lemma encodable_app (a b : str) :
  encodable (a ++ b) = encodable a && encodable b.
Proof. apply forallb_app. Qed.

Lemma digits_encodable (s : str) :
  forallb is_digit s = true -> encodable s = true.
Proof.
  unfold encodable. rewrite !forallb_forall. intros H c Hc.
  specialize (H c Hc). unfold is_digit in H. unfold encodable_char.
  apply andb_true_iff in H as [_ H]. apply N.leb_le in H.
  apply orb_true_iff; left. apply N.ltb_lt. lia.
Qed.

Lemma timestamp_encodable (utcnow : datetime) :
  encodable (timestamp utcnow) = true.
Proof.
  unfold timestamp, isoformat, replace_microsecond.
  cbn [year month day hour minute second microsecond Nat.eqb].
  rewrite !encodable_app.
  rewrite !(digits_encodable (zero_pad _ _) (zero_pad_digits _ _)).
  reflexivity.
Qed.

(** The entry can be written when the paraphrase and the outcome can:
    the rest of it is ASCII and a dash. *)
Lemma entry_encodable (utcnow : datetime) (paraphrase outcome : str) :
  encodable (join_with [nl] (entry_lines utcnow paraphrase outcome))
  = encodable paraphrase && encodable outcome.
Proof.
  unfold entry_lines. pose proof (timestamp_encodable utcnow) as Ht.
  assert (Hcons : forall x s, encodable (x :: s)
                              = encodable_char x && encodable s)
    by reflexivity.
  destruct (str_eqb outcome []) eqn:E; cbn [negb join_with].
  - apply str_eqb_eq in E. subst outcome.
    repeat (rewrite ?encodable_app, ?Hcons). rewrite Ht.
    cbn. rewrite !andb_true_r. reflexivity.
  - repeat (rewrite ?encodable_app, ?Hcons). rewrite Ht.
    cbn. rewrite !andb_true_r. reflexivity.
Qed.

(** The three writes: all of the entry, or its first newline only. *)
Lemma write_entry_spec (utcnow : datetime) (paraphrase outcome : str) :
  write_entry (entry_lines utcnow paraphrase outcome)
  = if encodable paraphrase && encodable outcome
    then Writing (appended_text utcnow paraphrase outcome)
    else WriteError [nl].
Proof.
  unfold write_entry, appended_text. cbn [f_write encodable forallb app].
  change (encodable_char nl) with true. cbn [andb].
  unfold f_write at 2. rewrite entry_encodable.
  destruct (encodable paraphrase && encodable outcome); reflexivity.
Qed.

(** X9.  The script exits with status 0 exactly when it has a paraphrase
    on the command line, [PROMPT_HISTORY.md] is an existing file that can
    be opened for appending, and the paraphrase and the outcome can be
    encoded; it has then appended the whole entry.  It only ever appends
    with a paraphrase and an existing file (it never creates the file),
    and what it appends is the entry or, when the second write raises,
    the newline of the first; without a paraphrase or without the file
    it says so and exits with status 1. *)
Theorem append_only_when_ready (argv : list str) (w : world)
    (can_write : str -> bool) (utcnow : datetime) :
  let r := append_prompt_history argv w can_write utcnow in
  let paraphrase := strip (nth 1 argv []) in
  let outcome := if 2 <? length argv then strip (nth 2 argv []) else [] in
  ((exists out, fst r = Exit out 0)
   <-> 2 <= length argv
       /\ (exists c, resolve w history_file = Some (File c))
       /\ can_write history_file = true
       /\ encodable paraphrase = true /\ encodable outcome = true)
  /\ ((exists out, fst r = Exit out 0) ->
      snd r = Some (appended_text utcnow paraphrase outcome))
  /\ (snd r <> None ->
      2 <= length argv /\ exists c, resolve w history_file = Some (File c))
  /\ (forall text,
         snd r = Some text ->
         text = appended_text utcnow paraphrase outcome
         \/ (text = [nl] /\ fst r = Traceback
             /\ encodable paraphrase && encodable outcome = false))
  /\ (length argv < 2 -> r = (Exit (print usage_line []) 1, None))
  /\ (2 <= length argv -> resolve w history_file = None ->
      r = (Exit (print (lit "PROMPT_HISTORY.md not found in repo root") []) 1,
           None)).
Proof.
  unfold append_prompt_history.
  destruct (length argv <? 2) eqn:Hlen.
  - apply Nat.ltb_lt in Hlen. cbv zeta. cbn [fst snd].
    split; [|split; [|split; [|split; [|split]]]].
    + split; [intros [out H]; discriminate|]. intros [H _]. lia.
    + intros [out H]. discriminate.
    + congruence.
    + discriminate.
    + reflexivity.
    + lia.
  - apply Nat.ltb_ge in Hlen. cbv zeta.
    set (paraphrase := strip (nth 1 argv [])).
    set (outcome := if 2 <? length argv then strip (nth 2 argv []) else []).
    destruct (resolve w history_file) as [[c|lb es]|].
    + destruct (can_write history_file).
      * rewrite write_entry_spec.
        destruct (encodable paraphrase && encodable outcome) eqn:E;
          cbn [fst snd].
        -- apply andb_true_iff in E as [E1 E2].
           split; [|split; [|split; [|split; [|split]]]].
           ++ split; [|intros _; eexists; reflexivity].
              intros _. split; [exact Hlen|]. split; [exists c; reflexivity|].
              repeat split; assumption.
           ++ reflexivity.
           ++ intros _. split; [exact Hlen|exists c; reflexivity].
           ++ intros text H. injection H as <-. left; reflexivity.
           ++ intros; lia.
           ++ discriminate.
        -- split; [|split; [|split; [|split; [|split]]]].
           ++ split; [intros [out H]; discriminate|].
              intros (_ & _ & _ & E1 & E2). rewrite E1, E2 in E. discriminate.
           ++ intros [out H]. discriminate.
           ++ intros _. split; [exact Hlen|exists c; reflexivity].
           ++ intros text H. injection H as <-. right. repeat split.
           ++ intros; lia.
           ++ discriminate.
      * cbn [fst snd]. split; [|split; [|split; [|split; [|split]]]].
        -- split; [intros [out H]; discriminate|].
           intros (_ & _ & H & _). discriminate.
        -- intros [out H]. discriminate.
        -- congruence.
        -- discriminate.
        -- intros; lia.
        -- discriminate.
    + cbn [fst snd]. split; [|split; [|split; [|split; [|split]]]].
      * split; [intros [out H]; discriminate|].
        intros (_ & [c H] & _). discriminate.
      * intros [out H]. discriminate.
      * congruence.
      * discriminate.
      * intros; lia.
      * discriminate.
    + cbn [fst snd]. split; [|split; [|split; [|split; [|split]]]].
      * split; [intros [out H]; discriminate|].
        intros (_ & [c H] & _). discriminate.
      * intros [out H]. discriminate.
      * congruence.
      * discriminate.
      * intros; lia.
      * reflexivity.
Qed.

Lemma append_only_when_ready_witness :
  append_prompt_history [lit "append_prompt_history.py"] demo_world
    (fun _ => true) (Datetime 2025 1 2 3 4 5 6)
  = (Exit (print usage_line []) 1, None)
  /\ append_prompt_history [lit "append_prompt_history.py"; lit "Fix links"]
       demo_world (fun _ => true) (Datetime 2025 1 2 3 4 5 6)
     = (Exit (print (lit "PROMPT_HISTORY.md not found in repo root") []) 1,
        None)
  /\ snd (append_prompt_history
            [lit "append_prompt_history.py"; lit "Fix links"]
            history_world (fun _ => true) (Datetime 2025 1 2 3 4 5 6))
     = Some ([nl] ++ lit "- [2025-01-02T03:04:05Z] " ++ [dquote]
             ++ lit "Fix links" ++ [dquote] ++ [nl]).
Proof.
  split; [|split].
  - apply (proj1 (proj2 (proj2 (proj2 (proj2 (append_only_when_ready
             [lit "append_prompt_history.py"] demo_world (fun _ => true)
             (Datetime 2025 1 2 3 4 5 6))))))).
    cbn; lia.
  - apply (proj2 (proj2 (proj2 (proj2 (proj2 (append_only_when_ready
             [lit "append_prompt_history.py"; lit "Fix links"] demo_world
             (fun _ => true) (Datetime 2025 1 2 3 4 5 6))))))).
    + cbn; lia.
    + reflexivity.
  - refine (eq_trans
              (proj1 (proj2 (append_only_when_ready
                 [lit "append_prompt_history.py"; lit "Fix links"]
                 history_world (fun _ => true) (Datetime 2025 1 2 3 4 5 6)))
                 _)
              eq_refl).
    eexists. reflexivity.
Defined.

(** An argument that is no UTF-8 on the command line: the script appends
    a newline and ends in an exception. *)
Example surrogate_paraphrase :
  append_prompt_history [lit "append_prompt_history.py"; [0xDCFF%N]]
    history_world (fun _ => true) (Datetime 2025 1 2 3 4 5 6)
  = (Traceback, Some [nl]).
Proof. reflexivity. Qed.

(** X10.  When the script exits with status 0 and the paraphrase and the
    outcome given hold no newline, what it appended is one line of its
    own: a newline, a line that begins with [- [] and holds no newline,
    and a newline. *)
Theorem entry_is_one_line (argv : list str) (w : world)
    (can_write : str -> bool) (utcnow : datetime) (out text : str) :
  fst (append_prompt_history argv w can_write utcnow) = Exit out 0 ->
  snd (append_prompt_history argv w can_write utcnow) = Some text ->
  lacks nl (nth 1 argv []) = true ->
  lacks nl (nth 2 argv []) = true ->
  exists line,
    text = nl :: line ++ [nl]
    /\ lacks nl line = true
    /\ startswith line (lit "- [") = true.
Proof.
  unfold append_prompt_history.
  destruct (length argv <? 2); [discriminate|]. cbv zeta.
  destruct (resolve w history_file) as [[c|lb es]|]; try discriminate.
  destruct (can_write history_file); [|discriminate].
  rewrite write_entry_spec.
  destruct (encodable _ && encodable _); [|discriminate].
  cbn [fst snd]. intros _ H Hp Ho. injection H as <-.
  pose proof (lacks_strip nl _ Hp) as Hp'.
  set (p := strip (nth 1 argv [])) in *.
  assert (Ho' : lacks nl (if 2 <? length argv then strip (nth 2 argv []) else [])
                = true).
  { destruct (2 <? length argv); [apply lacks_strip; exact Ho|reflexivity]. }
  set (o := if 2 <? length argv then strip (nth 2 argv []) else []) in *.
  unfold appended_text, entry_lines.
  pose proof (timestamp_lacks_nl utcnow) as Ht.
  assert (Hcons : forall x s, lacks nl (x :: s) = negb (x =? nl)%N && lacks nl s)
    by reflexivity.
  destruct (negb (str_eqb o [])); cbn [join_with app]; eexists;
    (split; [reflexivity|]); (split; [|reflexivity]);
    repeat (rewrite ?lacks_app, ?Hcons);
    rewrite Ht, Hp', ?Ho'; reflexivity.
Qed.

Lemma entry_is_one_line_witness :
  exists line,
    snd (append_prompt_history
           [lit "append_prompt_history.py"; lit " Fix links "; lit "done"]
           history_world (fun _ => true) (Datetime 2025 1 2 3 4 5 6))
    = Some (nl :: line ++ [nl])
    /\ lacks nl line = true.
Proof.
  destruct (entry_is_one_line
              [lit "append_prompt_history.py"; lit " Fix links "; lit "done"]
              history_world (fun _ => true) (Datetime 2025 1 2 3 4 5 6) _ _
              eq_refl eq_refl eq_refl eq_refl) as (line & H1 & H2 & _).
  exists line. split; [|exact H2]. rewrite <- H1. reflexivity.
Defined.

(** X11.  For a date the clock can give, the time stamp of an entry has
    the twenty characters of [YYYY-MM-DDTHH:MM:SSZ]: digits, with [-] at
    4 and 7, [T] at 10, [:] at 13 and 16 and [Z] at 19; the microseconds
    of the clock never show in it. *)
Theorem timestamp_shape (utcnow : datetime) :
  year utcnow < 100 * 100 -> month utcnow <= 12 -> day utcnow <= 31 ->
  hour utcnow <= 23 -> minute utcnow <= 59 -> second utcnow <= 59 ->
  length (timestamp utcnow) = 20
  /\ map (fun i => nth i (timestamp utcnow) 0%N) [4; 7; 10; 13; 16; 19]
     = [chr "-"; chr "-"; chr "T"; chr ":"; chr ":"; chr "Z"]
  /\ forallb is_digit
       (map (fun i => nth i (timestamp utcnow) 0%N)
            [0; 1; 2; 3; 5; 6; 8; 9; 11; 12; 14; 15; 17; 18]) = true
  /\ (forall us, timestamp (replace_microsecond utcnow us) = timestamp utcnow).
Proof.
  intros Hy Hmo Hd Hh Hmi Hs.
  unfold timestamp, isoformat, replace_microsecond.
  cbn [year month day hour minute second microsecond Nat.eqb].
  pose proof (zero_pad_4 (year utcnow) ltac:(lia)) as L1.
  pose proof (zero_pad_2 (month utcnow) ltac:(lia)) as L2.
  pose proof (zero_pad_2 (day utcnow) ltac:(lia)) as L3.
  pose proof (zero_pad_2 (hour utcnow) ltac:(lia)) as L4.
  pose proof (zero_pad_2 (minute utcnow) ltac:(lia)) as L5.
  pose proof (zero_pad_2 (second utcnow) ltac:(lia)) as L6.
  pose proof (zero_pad_digits 4 (year utcnow)) as D1.
  pose proof (zero_pad_digits 2 (month utcnow)) as D2.
  pose proof (zero_pad_digits 2 (day utcnow)) as D3.
  pose proof (zero_pad_digits 2 (hour utcnow)) as D4.
  pose proof (zero_pad_digits 2 (minute utcnow)) as D5.
  pose proof (zero_pad_digits 2 (second utcnow)) as D6.
  destruct (zero_pad 4 (year utcnow)) as [|y1 [|y2 [|y3 [|y4 [|]]]]];
    try discriminate L1.
  destruct (zero_pad 2 (month utcnow)) as [|m1 [|m2 [|]]]; try discriminate L2.
  destruct (zero_pad 2 (day utcnow)) as [|d1 [|d2 [|]]]; try discriminate L3.
  destruct (zero_pad 2 (hour utcnow)) as [|h1 [|h2 [|]]]; try discriminate L4.
  destruct (zero_pad 2 (minute utcnow)) as [|i1 [|i2 [|]]];
    try discriminate L5.
  destruct (zero_pad 2 (second utcnow)) as [|s1 [|s2 [|]]];
    try discriminate L6.
  cbn [forallb] in D1, D2, D3, D4, D5, D6.
  repeat match goal with
         | H : _ && _ = true |- _ => apply andb_true_iff in H as [? H]
         end.
  split; [reflexivity|]. split; [reflexivity|]. split; [|reflexivity].
  cbn [lit list_ascii_of_string map app nth forallb].
  repeat match goal with
         | H : is_digit ?c = true |- _ => rewrite H; clear H
         end.
  reflexivity.
Qed.

Lemma timestamp_shape_witness :
  timestamp (Datetime 2025 1 2 3 4 5 4321) = lit "2025-01-02T03:04:05Z".
Proof.
  pose proof (timestamp_shape (Datetime 2025 1 2 3 4 5 0)) as H.
  cbn [year month day hour minute second] in H.
  destruct H as (_ & _ & _ & H); [lia|lia|lia|lia|lia|lia|].
  exact (eq_trans (H 4321) eq_refl).
Defined.

End AppendHistory.

(** * Properties of [scripts/normalize_docs.py] *)

Section NormalizeText.

Lemma emoji_loop (txt : str) :
  forall acc ch n,
    fold_left emoji_step txt (acc, ch, n)
    = (acc ++ without_emoji txt, ch || existsb is_emoji txt, n + emoji_in txt).
Proof.
  unfold without_emoji, emoji_in.
  induction txt as [|c txt IH]; intros acc ch n; cbn [fold_left filter existsb].
  - rewrite app_nil_r, orb_false_r, Nat.add_0_r. reflexivity.
  - unfold emoji_step at 2. destruct (is_emoji c); cbn [negb orb length].
    + rewrite IH, orb_true_r. f_equal. lia.
    + rewrite IH, <- app_assoc. reflexivity.
Qed.

Lemma normalize_text_eq (txt : str) (n : nat) :
  normalize_text txt n
  = (if endswith txt [nl] && negb (endswith (joined_lines txt) [nl])
     then joined_lines txt ++ [nl] else joined_lines txt,
     n + emoji_in txt).
Proof. unfold normalize_text. rewrite emoji_loop. reflexivity. Qed.

Lemma normalized_eq (txt : str) :
  normalized txt
  = if endswith txt [nl] && negb (endswith (joined_lines txt) [nl])
    then joined_lines txt ++ [nl] else joined_lines txt.
Proof. unfold normalized. rewrite normalize_text_eq. reflexivity. Qed.

Lemma splitlines_cons (line : str) (c : char) (s : str) :
  splitlines_from line (c :: s)
  = if is_linebreak c then line :: splitlines_from [] (after_break c s)
    else splitlines_from (line ++ [c]) s.
Proof.
  cbn [splitlines_from]. unfold after_break.
  destruct (is_linebreak c); [|reflexivity].
  destruct (c =? 13)%N; [|reflexivity].
  destruct s as [|c' s']; [reflexivity|].
  destruct (c' =? 10)%N; reflexivity.
Qed.

Lemma after_break_cases (c : char) (s : str) :
  after_break c s = s
  \/ (c = 13%N /\ s = 10%N :: after_break c s).
Proof.
  unfold after_break. destruct (c =? 13)%N eqn:E; [|left; reflexivity].
  destruct s as [|c' s']; [left; reflexivity|].
  destruct (c' =? 10)%N eqn:E'; [|left; reflexivity].
  right. apply N.eqb_eq in E, E'. subst. split; reflexivity.
Qed.

(** Induction along the way [splitlines] reads a text. *)
Lemma lines_ind (P : str -> Prop) :
  P [] ->
  (forall c s, is_linebreak c = false -> P s -> P (c :: s)) ->
  (forall c s, is_linebreak c = true -> P (after_break c s) -> P (c :: s)) ->
  forall s, P s.
Proof.
  intros Hnil Hchar Hbreak s.
  assert (H : forall n s, length s <= n -> P s).
  { clear s. induction n as [|n IH]; intros [|c s] Hlen;
      try exact Hnil; [cbn in Hlen; lia|].
    cbn [length] in Hlen. destruct (is_linebreak c) eqn:E.
    - apply Hbreak; [exact E|]. apply IH.
      destruct (after_break_cases c s) as [->|[_ Hs]]; [lia|].
      apply (f_equal (@length char)) in Hs. cbn [length] in Hs. lia.
    - apply Hchar; [exact E|]. apply IH. lia. }
  apply (H (length s)). lia.
Qed.

Lemma splitlines_empty (s : str) :
  forall line, splitlines_from line s = [] -> line = [] /\ s = [].
Proof.
  induction s as [|c s IH]; intros line H.
  - destruct line; [tauto|discriminate].
  - rewrite splitlines_cons in H. destruct (is_linebreak c); [discriminate|].
    destruct (IH _ H) as [H1 _]. destruct line; discriminate.
Qed.

(** The characters of a line are characters of the text that are no line
    boundaries. *)
Lemma splitlines_chars (s : str) :
  forall line l c,
    In l (splitlines_from line s) -> In c l ->
    In c line \/ (In c s /\ is_linebreak c = false).
Proof.
  induction s as [|x s Hx IH|x s Hx IH] using lines_ind; intros line l c Hl Hc.
  - destruct line; [destruct Hl|]. destruct Hl as [<-|[]]. left; exact Hc.
  - rewrite splitlines_cons, Hx in Hl.
    destruct (IH _ _ _ Hl Hc) as [Hin|[Hin Hb]].
    + apply in_app_or in Hin as [Hin|[<-|[]]]; [left; exact Hin|].
      right. split; [left; reflexivity|exact Hx].
    + right. split; [right; exact Hin|exact Hb].
  - rewrite splitlines_cons, Hx in Hl. destruct Hl as [<-|Hl];
      [left; exact Hc|].
    destruct (IH _ _ _ Hl Hc) as [[]|[Hin Hb]].
    right. split; [|exact Hb]. right.
    destruct (after_break_cases x s) as [E|[_ E]];
      [rewrite E in Hin; exact Hin|rewrite E; right; exact Hin].
Qed.

Lemma join_with_cons (sp l : str) (ls : list str) :
  ls <> [] -> join_with sp (l :: ls) = l ++ sp ++ join_with sp ls.
Proof. destruct ls; [congruence|reflexivity]. Qed.

Lemma join_with_chars (sp : str) (ls : list str) (c : char) :
  In c (join_with sp ls) -> In c sp \/ exists l, In l ls /\ In c l.
Proof.
  induction ls as [|l ls IH]; [intros []|].
  destruct ls as [|l' ls'].
  - cbn [join_with]. intros H. right. exists l. split; [left; reflexivity|exact H].
  - rewrite join_with_cons by discriminate. intros H.
    apply in_app_or in H as [H|H].
    + right. exists l. split; [left; reflexivity|exact H].
    + apply in_app_or in H as [H|H]; [left; exact H|].
      destruct (IH H) as [H'|(l0 & Hl0 & Hc)]; [left; exact H'|].
      right. exists l0. split; [right; exact Hl0|exact Hc].
Qed.

Lemma normalized_chars (txt : str) (c : char) :
  In c (normalized txt) ->
  c = nl \/ (In c txt /\ is_emoji c = false /\ is_linebreak c = false).
Proof.
  intros H.
  assert (Hj : In c (joined_lines txt) \/ c = nl).
  { rewrite normalized_eq in H. destruct (_ && _); [|left; exact H].
    apply in_app_or in H as [H|[<-|[]]]; [left; exact H|right; reflexivity]. }
  destruct Hj as [Hj|Hj]; [|left; exact Hj].
  apply join_with_chars in Hj as [[<-|[]]|(l & Hl & Hc)]; [left; reflexivity|].
  unfold trimmed_lines in Hl. apply in_map_iff in Hl as (l0 & <- & Hl0).
  apply rstrip_incl in Hc.
  destruct (splitlines_chars _ _ _ _ Hl0 Hc) as [[]|[Hin Hb]].
  unfold without_emoji in Hin. apply filter_In in Hin as [Hin He].
  right. split; [exact Hin|]. split; [apply negb_true_iff; exact He|exact Hb].
Qed.

(** X12.  The new text of a document holds no emoji and no line boundary
    but the newline, and nothing that was not in the old text but
    newlines. *)
Theorem normalized_text_is_plain (txt : str) (c : char) :
  In c (normalized txt) ->
  is_emoji c = false
  /\ (is_linebreak c = true -> c = nl)
  /\ (c = nl \/ In c txt).
Proof.
  intros H. destruct (normalized_chars txt c H) as [->|(Hin & He & Hb)].
  - split; [reflexivity|]. split; [reflexivity|left; reflexivity].
  - split; [exact He|]. split; [congruence|right; exact Hin].
Qed.

Lemma normalized_text_is_plain_witness :
  is_emoji (chr "T") = false
  /\ (is_linebreak (chr "T") = true -> chr "T" = nl)
  /\ (chr "T" = nl \/ In (chr "T") untidy_text).
Proof.
  apply (normalized_text_is_plain untidy_text (chr "T")).
  left. reflexivity.
Defined.

End NormalizeText.

Section TrailingSpace.

Lemma rstrip_ends_clean (l : str) : ends_clean (rstrip l).
Proof.
  intros a c H. unfold rstrip in H.
  apply (f_equal (@rev char)) in H.
  rewrite rev_involutive, rev_app_distr in H. cbn [rev app] in H.
  exact (dropwhile_head _ _ _ _ H).
Qed.

Lemma ends_clean_tail (y : char) (l : str) : ends_clean (y :: l) -> ends_clean l.
Proof. intros H a c ->. apply (H (y :: a) c). reflexivity. Qed.

Lemma trimmed_line_lacks_nl (txt l : str) :
  In l (trimmed_lines txt) -> lacks nl l = true.
Proof.
  unfold trimmed_lines. intros H. apply in_map_iff in H as (l0 & <- & Hl0).
  apply lacks_In. intros Hin. apply rstrip_incl in Hin.
  destruct (splitlines_chars _ _ _ _ Hl0 Hin) as [[]|[_ Hb]]. discriminate.
Qed.

Lemma last_split (s : str) : s = [] \/ exists a c, s = a ++ [c].
Proof.
  destruct (rev s) as [|c r] eqn:E.
  - left. apply (f_equal (@rev char)) in E. rewrite rev_involutive in E.
    exact E.
  - right. exists (rev r), c. apply (f_equal (@rev char)) in E.
    rewrite rev_involutive in E. exact E.
Qed.

Lemma tidy_line_then (l J : str) :
  lacks nl l = true -> ends_clean l -> no_trailing_space J ->
  no_trailing_space (l ++ nl :: J).
Proof.
  intros Hl Hc [HJ1 HJ2]. split.
  - revert Hl Hc. induction l as [|y l IH]; intros Hl Hc a c b H Hs.
    + destruct a as [|x a]; cbn [app] in H.
      * injection H as <- _. reflexivity.
      * injection H as _ H. exact (HJ1 _ _ _ H Hs).
    + cbn [lacks forallb] in Hl. apply andb_true_iff in Hl as [Hy Hl].
      destruct a as [|x a]; cbn [app] in H.
      * injection H as <- H.
        destruct l as [|z l].
        -- rewrite (Hc [] y eq_refl) in Hs. discriminate.
        -- cbn [app] in H. injection H as Hz _. subst z.
           cbn [lacks forallb] in Hl. rewrite N.eqb_refl in Hl. discriminate.
      * injection H as _ H.
        exact (IH Hl (ends_clean_tail _ _ Hc) a c b H Hs).
  - intros a c H Hs. destruct (last_split J) as [->|(J' & c' & ->)].
    + change (l ++ [nl]) with (l ++ [nl]) in H.
      apply app_inj_tail in H as [_ <-]. reflexivity.
    + change (l ++ nl :: J' ++ [c']) with (l ++ (nl :: J') ++ [c']) in H.
      rewrite app_assoc in H. apply app_inj_tail in H as [_ <-].
      exact (HJ2 J' c' eq_refl Hs).
Qed.

Lemma tidy_join (L : list str) :
  Forall (fun l => lacks nl l = true /\ ends_clean l) L ->
  no_trailing_space (join_with [nl] L).
Proof.
  induction 1 as [|l L [Hl Hc] HL IH].
  - split; intros a c; [intros b|]; intros H; destruct a; discriminate.
  - destruct L as [|l' L'].
    + cbn [join_with]. split.
      * intros a c b -> _. rewrite !lacks_app in Hl.
        cbn [lacks forallb] in Hl. rewrite N.eqb_refl in Hl.
        rewrite !andb_false_r in Hl. discriminate.
      * intros a c -> Hs. rewrite (Hc a c eq_refl) in Hs. discriminate.
    + rewrite join_with_cons by discriminate.
      apply tidy_line_then; assumption.
Qed.

Lemma tidy_newline (J : str) :
  no_trailing_space J -> no_trailing_space (J ++ [nl]).
Proof.
  intros [H1 H2]. split.
  - intros a c b H Hs. destruct (last_split b) as [->|(b' & z & ->)].
    + change (a ++ [c; nl]) with (a ++ [c] ++ [nl]) in H.
      rewrite app_assoc in H. apply app_inj_tail in H as [H _].
      exact (H2 a c H Hs).
    + change (a ++ c :: nl :: b' ++ [z]) with (a ++ (c :: nl :: b') ++ [z]) in H.
      rewrite app_assoc in H. apply app_inj_tail in H as [H _].
      exact (H1 a c b' H Hs).
  - intros a c H _. apply app_inj_tail in H as [_ <-]. reflexivity.
Qed.

(** X13.  In the new text of a document no line ends in white space: a
    white-space character that comes just before a newline, or last in
    the text, is itself a newline. *)
Theorem no_line_ends_in_space (txt : str) :
  (forall a c b,
      normalized txt = a ++ c :: nl :: b -> isspace c = true -> c = nl)
  /\ (forall a c, normalized txt = a ++ [c] -> isspace c = true -> c = nl).
Proof.
  assert (H : no_trailing_space (joined_lines txt)).
  { apply tidy_join. apply Forall_forall. intros l Hl. split.
    - exact (trimmed_line_lacks_nl txt l Hl).
    - unfold trimmed_lines in Hl. apply in_map_iff in Hl as (l0 & <- & _).
      apply rstrip_ends_clean. }
  rewrite normalized_eq. destruct (_ && _); [apply tidy_newline|]; exact H.
Qed.

Lemma no_line_ends_in_space_witness :
  normalized untidy_text = lit "Title" ++ [nl] ++ lit " done" ++ [nl]
  /\ nl = nl.
Proof.
  split; [reflexivity|].
  exact (proj1 (no_line_ends_in_space (lit "a" ++ [nl; nl] ++ lit "b"))
           (lit "a") nl (lit "b") eq_refl eq_refl).
Defined.

End TrailingSpace.

Section NormalizeLength.

Lemma endswith_cons (c x : char) (s : str) :
  s <> [] -> endswith (c :: s) [x] = endswith s [x].
Proof.
  intros H. unfold endswith. cbn [rev]. apply startswith_app_l.
  intros E. apply H. apply (f_equal (@rev char)) in E.
  rewrite rev_involutive in E. exact E.
Qed.

Lemma endswith_bound (s : str) :
  (if endswith s [nl] then 1 else 0) <= 1.
Proof. destruct (endswith s [nl]); lia. Qed.

Lemma rstrip_length (l : str) : length (rstrip l) <= length l.
Proof.
  unfold rstrip. rewrite length_rev, <- (length_rev l).
  induction (rev l) as [|c r IH]; cbn [dropwhile length]; [lia|].
  destruct (isspace c); cbn [length]; lia.
Qed.

Lemma join_rstrip_length (L : list str) :
  length (join_with [nl] (map rstrip L)) <= length (join_with [nl] L).
Proof.
  induction L as [|l L IH]; [cbn; lia|].
  destruct L as [|l' L'].
  - cbn [map join_with]. apply rstrip_length.
  - cbn [map] in *.
    rewrite (join_with_cons [nl] (rstrip l) (rstrip l' :: map rstrip L'))
      by discriminate.
    rewrite (join_with_cons [nl] l (l' :: L')) by discriminate.
    rewrite !length_app. pose proof (rstrip_length l). lia.
Qed.

(** Joining the lines of a text with newlines gives no more characters
    than the text has, and one less when the text ends in a newline. *)
Lemma lines_length (s : str) :
  forall line,
    length (join_with [nl] (splitlines_from line s))
    + (if endswith s [nl] then 1 else 0)
    <= length line + length s.
Proof.
  induction s as [|c s Hc IH|c s Hc IH] using lines_ind; intros line.
  - destruct line; cbn; lia.
  - rewrite splitlines_cons, Hc. specialize (IH (line ++ [c])).
    rewrite length_app in IH. cbn [length] in *.
    destruct s as [|x s'].
    + assert (E : endswith [c] [nl] = false).
      { unfold endswith. cbn [rev app startswith]. rewrite andb_true_r.
        destruct (c =? nl)%N eqn:E; [|reflexivity].
        apply N.eqb_eq in E; subst c. discriminate. }
      rewrite E. change (endswith [] [nl]) with false in IH.
      cbn [length] in *. lia.
    + rewrite (endswith_cons c nl (x :: s')) by discriminate. lia.
  - rewrite splitlines_cons, Hc. specialize (IH []).
    cbn [length] in *.
    destruct (splitlines_from [] (after_break c s)) as [|r R] eqn:ER.
    + cbn [join_with]. pose proof (endswith_bound (c :: s)). lia.
    + rewrite join_with_cons by discriminate. rewrite !length_app.
      cbn [length].
      assert (Hne : after_break c s <> []).
      { intros E. rewrite E in ER. discriminate. }
      destruct (after_break_cases c s) as [E|[_ E]].
      * rewrite E in *. rewrite (endswith_cons c nl s Hne). lia.
      * assert (Hlen : length s = S (length (after_break c s)))
          by (rewrite E at 1; reflexivity).
        assert (He : endswith (c :: s) [nl] = endswith (after_break c s) [nl]).
        { rewrite endswith_cons by (rewrite E; discriminate).
          rewrite E at 1. apply endswith_cons. exact Hne. }
        rewrite He. lia.
Qed.

Lemma filter_split_length (p : char -> bool) (s : str) :
  length (filter (fun c => negb (p c)) s) + length (filter p s) = length s.
Proof.
  induction s as [|c s IH]; [reflexivity|].
  cbn [filter]. destruct (p c); cbn [negb length]; lia.
Qed.

Lemma without_emoji_app (a b : str) :
  without_emoji (a ++ b) = without_emoji a ++ without_emoji b.
Proof. apply filter_app. Qed.

Lemma without_emoji_newline (txt : str) :
  endswith txt [nl] = true -> endswith (without_emoji txt) [nl] = true.
Proof.
  intros H. apply endswith_suffix in H as [r ->].
  rewrite without_emoji_app. apply endswith_app.
Qed.

Lemma normalized_length (txt : str) :
  length (normalized txt) <= length (without_emoji txt).
Proof.
  rewrite normalized_eq. unfold joined_lines, trimmed_lines, splitlines.
  pose proof (join_rstrip_length (splitlines_from [] (without_emoji txt))) as H1.
  pose proof (lines_length (without_emoji txt) []) as H2. cbn [length] in H2.
  destruct (endswith txt [nl]) eqn:E; cbn [andb].
  - rewrite (without_emoji_newline txt E) in H2.
    destruct (negb _); [rewrite length_app; cbn [length]|]; lia.
  - pose proof (endswith_bound (without_emoji txt)). lia.
Qed.

(** X14.  The new text of a document is never longer than the old one,
    and shorter by at least the number of its emoji: a document that
    holds an emoji is always rewritten. *)
Theorem never_longer (txt : str) :
  length (normalized txt) + emoji_in txt <= length txt
  /\ (0 < emoji_in txt -> normalized txt <> txt).
Proof.
  pose proof (normalized_length txt) as H1.
  pose proof (filter_split_length is_emoji txt) as H2.
  fold (without_emoji txt) in H2. fold (emoji_in txt) in H2.
  split; [lia|]. intros H E. rewrite E in H1. lia.
Qed.

Lemma never_longer_witness :
  normalized (9733%N :: lit " done") <> 9733%N :: lit " done".
Proof.
  apply (proj2 (never_longer (9733%N :: lit " done"))). cbn. lia.
Defined.

End NormalizeLength.

Section NormalizeFixedPoints.

Lemma splitlines_clean_app (l : str) :
  forall line s,
    forallb (fun c => negb (is_linebreak c)) l = true ->
    splitlines_from line (l ++ s) = splitlines_from (line ++ l) s.
Proof.
  induction l as [|c l IH]; intros line s H.
  - rewrite app_nil_r. reflexivity.
  - cbn [forallb] in H. apply andb_true_iff in H as [Hc Hl].
    apply negb_true_iff in Hc. cbn [app].
    rewrite splitlines_cons, Hc, (IH _ _ Hl), <- app_assoc. reflexivity.
Qed.

Lemma splitlines_newline (line s : str) :
  splitlines_from line (nl :: s) = line :: splitlines_from [] s.
Proof. rewrite splitlines_cons. reflexivity. Qed.

(** The lines of clean lines joined by newlines are these lines, with or
    without a newline at the end. *)
Lemma splitlines_join (L : list str) (tail : str) :
  L <> [] ->
  Forall (fun l => forallb (fun c => negb (is_linebreak c)) l = true) L ->
  last L [] <> [] ->
  tail = [] \/ tail = [nl] ->
  splitlines (join_with [nl] L ++ tail) = L.
Proof.
  intros Hne HL Hlast Htail. unfold splitlines. revert Hne Hlast.
  induction HL as [|l L Hl HL IH]; intros Hne Hlast;
    [destruct (Hne eq_refl)|].
  destruct L as [|l' L'].
  - cbn [join_with last] in *. rewrite (splitlines_clean_app l [] tail Hl).
    cbn [app]. destruct Htail as [->| ->].
    + destruct l; [congruence|reflexivity].
    + rewrite splitlines_newline. reflexivity.
  - rewrite join_with_cons by discriminate.
    rewrite <- !app_assoc. cbn [app].
    rewrite (splitlines_clean_app l [] _ Hl), splitlines_newline.
    cbn [app]. f_equal. apply IH; [discriminate|exact Hlast].
Qed.

Lemma forallb_join (p : char -> bool) (sp : str) (L : list str) :
  forallb p sp = true -> Forall (fun l => forallb p l = true) L ->
  forallb p (join_with sp L) = true.
Proof.
  intros Hsp HL. induction HL as [|l L Hl HL IH]; [reflexivity|].
  destruct L as [|l' L']; [exact Hl|].
  rewrite join_with_cons by discriminate.
  rewrite !forallb_app, Hl, Hsp, IH. reflexivity.
Qed.

Lemma filter_all (p : char -> bool) (s : str) :
  forallb p s = true -> filter p s = s.
Proof.
  induction s as [|c s IH]; [reflexivity|].
  cbn [forallb filter]. intros H. apply andb_true_iff in H as [Hc Hs].
  rewrite Hc, (IH Hs). reflexivity.
Qed.

Lemma filter_none (p : char -> bool) (s : str) :
  forallb (fun c => negb (p c)) s = true -> filter p s = [].
Proof.
  induction s as [|c s IH]; [reflexivity|].
  cbn [forallb filter]. intros H. apply andb_true_iff in H as [Hc Hs].
  apply negb_true_iff in Hc. rewrite Hc. exact (IH Hs).
Qed.

Lemma join_ends_with_last (sp : str) (L : list str) :
  L <> [] -> exists x, join_with sp L = x ++ last L [].
Proof.
  induction L as [|l L IH]; [congruence|]. intros _.
  destruct L as [|l' L']; [exists []; reflexivity|].
  destruct (IH ltac:(discriminate)) as [x Hx].
  exists (l ++ sp ++ x). rewrite join_with_cons by discriminate.
  rewrite Hx, <- !app_assoc. reflexivity.
Qed.

Lemma join_no_final_newline (L : list str) :
  L <> [] ->
  forallb (fun c => negb (is_linebreak c)) (last L []) = true ->
  last L [] <> [] ->
  endswith (join_with [nl] L) [nl] = false.
Proof.
  intros Hne Hb Hlast. destruct (join_ends_with_last [nl] L Hne) as [x ->].
  destruct (last_split (last L [])) as [E|(a & c & E)]; [congruence|].
  rewrite E in *. rewrite forallb_app in Hb. cbn [forallb] in Hb.
  rewrite andb_true_r in Hb. apply andb_true_iff in Hb as [_ Hc].
  unfold endswith. rewrite app_assoc, rev_app_distr.
  cbn [rev app startswith]. rewrite andb_true_r.
  destruct (c =? nl)%N eqn:Ec; [|reflexivity].
  apply N.eqb_eq in Ec; subst c. discriminate.
Qed.

(** X15.  A document that is clean already is left alone: when its lines
    hold no emoji, no line boundary and no white space at their end, are
    joined by newlines, and the last one is not empty, the new text is
    the old text, with or without a newline at its end, and [count] stays
    as it was.  Such a document is not written. *)
Theorem clean_text_untouched (L : list str) (tail : str) (n : nat) :
  L <> [] -> Forall clean_line L -> last L [] <> [] ->
  tail = [] \/ tail = [nl] ->
  normalize_text (join_with [nl] L ++ tail) n
  = (join_with [nl] L ++ tail, n).
Proof.
  intros Hne HL Hlast Htail.
  set (txt := join_with [nl] L ++ tail).
  assert (Hem : forallb (fun c => negb (is_emoji c)) txt = true).
  { unfold txt. rewrite forallb_app. apply andb_true_iff. split.
    - apply forallb_join; [reflexivity|].
      eapply Forall_impl; [|exact HL]. intros l (H & _ & _). exact H.
    - destruct Htail as [->| ->]; reflexivity. }
  assert (Hbr : Forall (fun l => forallb (fun c => negb (is_linebreak c)) l
                                 = true) L).
  { eapply Forall_impl; [|exact HL]. intros l (_ & H & _). exact H. }
  assert (Hlines : trimmed_lines txt = L).
  { unfold trimmed_lines, without_emoji. rewrite (filter_all _ _ Hem).
    unfold txt. rewrite (splitlines_join L tail Hne Hbr Hlast Htail).
    rewrite <- (map_id L) at 2. apply map_ext_in. intros l Hl.
    rewrite Forall_forall in HL. exact (proj2 (proj2 (HL l Hl))). }
  assert (Hlastb : forallb (fun c => negb (is_linebreak c)) (last L []) = true).
  { rewrite Forall_forall in Hbr. apply Hbr.
    clear -Hne. induction L as [|l L IH]; [congruence|].
    destruct L as [|l' L']; [left; reflexivity|].
    right. apply IH. discriminate. }
  rewrite normalize_text_eq. unfold joined_lines. rewrite Hlines.
  rewrite (join_no_final_newline L Hne Hlastb Hlast).
  unfold emoji_in. rewrite (filter_none _ _ Hem). cbn [length negb].
  rewrite Nat.add_0_r, andb_true_r. f_equal. unfold txt.
  destruct Htail as [->| ->].
  - rewrite app_nil_r, (join_no_final_newline L Hne Hlastb Hlast).
    reflexivity.
  - rewrite endswith_app. reflexivity.
Qed.

Lemma clean_text_untouched_witness :
  normalize_text (lit "Title" ++ [nl; nl] ++ lit "  done" ++ [nl]) 3
  = (lit "Title" ++ [nl; nl] ++ lit "  done" ++ [nl], 3).
Proof.
  apply (clean_text_untouched [lit "Title"; []; lit "  done"] [nl] 3).
  - discriminate.
  - repeat constructor.
  - discriminate.
  - right; reflexivity.
Defined.

Lemma after_break_app (c x : char) (u s : str) :
  after_break c ((x :: u) ++ s) = after_break c (x :: u) ++ s.
Proof.
  unfold after_break. destruct (c =? 13)%N; [|reflexivity].
  cbn [app]. destruct (x =? 10)%N; reflexivity.
Qed.

(** A second newline at the end of a text is one more, empty, line. *)
Lemma splitlines_blank_end (u : str) :
  forall line,
    splitlines_from line (u ++ [nl; nl])
    = splitlines_from line (u ++ [nl]) ++ [[]].
Proof.
  induction u as [|c u Hc IH|c u Hc IH] using lines_ind; intros line.
  - reflexivity.
  - cbn [app]. rewrite !splitlines_cons, Hc. apply IH.
  - cbn [app]. rewrite !splitlines_cons, Hc.
    destruct u as [|x u'].
    + cbn [app]. unfold after_break. destruct (c =? 13)%N; reflexivity.
    + rewrite !after_break_app, IH. reflexivity.
Qed.

Lemma join_with_snoc (sp x : str) (L : list str) :
  L <> [] -> join_with sp (L ++ [x]) = join_with sp L ++ sp ++ x.
Proof.
  induction L as [|l L IH]; [congruence|]. intros _.
  destruct L as [|l' L']; [reflexivity|].
  change ((l :: l' :: L') ++ [x]) with (l :: ((l' :: L') ++ [x])).
  rewrite join_with_cons by discriminate.
  rewrite (join_with_cons sp l (l' :: L')) by discriminate.
  rewrite IH by discriminate. rewrite <- !app_assoc. reflexivity.
Qed.

Lemma trimmed_lines_blank_end (u : str) :
  trimmed_lines (u ++ [nl; nl]) = trimmed_lines (u ++ [nl]) ++ [[]]
  /\ trimmed_lines (u ++ [nl]) <> [].
Proof.
  unfold trimmed_lines, splitlines. rewrite !without_emoji_app.
  change (without_emoji [nl; nl]) with [nl; nl].
  change (without_emoji [nl]) with [nl].
  rewrite splitlines_blank_end, map_app. split; [reflexivity|].
  intros H. apply map_eq_nil in H. apply splitlines_empty in H as [_ H].
  destruct (without_emoji u); discriminate.
Qed.

Lemma normalized_blank_end (u : str) :
  normalized (u ++ [nl; nl]) = joined_lines (u ++ [nl]) ++ [nl]
  /\ length (joined_lines (u ++ [nl])) <= length u.
Proof.
  destruct (trimmed_lines_blank_end u) as [E Hne]. split.
  - rewrite normalized_eq. unfold joined_lines. rewrite E.
    change (@cons (list char) [] []) with (@cons str [] []).
    rewrite (join_with_snoc [nl] [] _ Hne), app_nil_r.
    rewrite (endswith_app _ [nl]), andb_false_r. reflexivity.
  - unfold joined_lines, trimmed_lines, splitlines.
    pose proof (join_rstrip_length
                  (splitlines_from [] (without_emoji (u ++ [nl])))) as H1.
    pose proof (lines_length (without_emoji (u ++ [nl])) []) as H2.
    rewrite (without_emoji_newline (u ++ [nl]) (endswith_app u [nl])) in H2.
    pose proof (filter_split_length is_emoji (u ++ [nl])) as H3.
    fold (without_emoji (u ++ [nl])) in H3.
    rewrite length_app in H3. cbn [length] in *. lia.
Qed.

(** X16.  A document that ends in an empty line is always rewritten, and
    loses that line; so the script does not settle in one run: a document
    that ends in three newlines is rewritten by a run and again by the
    next. *)
Theorem blank_end_is_rewritten (u : str) :
  normalized (u ++ [nl; nl]) <> u ++ [nl; nl]
  /\ normalized (normalized (u ++ [nl; nl; nl]))
     <> normalized (u ++ [nl; nl; nl]).
Proof.
  assert (H : forall v, normalized (v ++ [nl; nl]) <> v ++ [nl; nl]).
  { intros v E. destruct (normalized_blank_end v) as [H1 H2].
    rewrite H1 in E. apply (f_equal (@length char)) in E.
    rewrite !length_app in E. cbn [length] in E. lia. }
  split; [apply H|].
  destruct (normalized_blank_end (u ++ [nl])) as [H1 _].
  rewrite <- !app_assoc in H1. cbn [app] in H1. rewrite H1.
  destruct (trimmed_lines_blank_end u) as [E Hne].
  unfold joined_lines. rewrite E.
  change (@cons (list char) [] []) with (@cons str [] []).
  rewrite (join_with_snoc [nl] [] _ Hne), app_nil_r, <- !app_assoc.
  apply H.
Qed.

End NormalizeFixedPoints.

Section NormalizeWalk.

Lemma nstate_of_nbind (o : noutcome) (k : nstate -> noutcome) :
  nstate_of (nbind o k)
  = match o with
    | NDone st => nstate_of (k st)
    | NRaised st => st
    end.
Proof. destruct o; reflexivity. Qed.

Lemma nwalk_Dir (cw : str -> bool) (top : str) (es : list (str * node))
    (st : nstate) :
  nwalk cw top (Dir true es) st
  = nbind (if skipped_dirpath top then NDone st
           else normalize_files cw top (walk_files es) st)
          (nwalk_subdirs cw top es).
Proof.
  cbn [nwalk].
  destruct (if skipped_dirpath top then NDone st
            else normalize_files cw top (walk_files es) st) as [st1|st1];
    [|reflexivity].
  cbn [nbind]. induction es as [|[d x] es IH] in st1 |- *; [reflexivity|].
  cbn [nwalk_subdirs]. destruct x as [c|lb sub]; [exact (IH st1)|].
  destruct (nwalk cw (path_join top d) (Dir lb sub) st1) as [s|s]; [|reflexivity].
  exact (IH s).
Qed.

Lemma normalize_text_split (txt : str) (n : nat) :
  normalize_text txt n = (normalized txt, n + emoji_in txt).
Proof. rewrite normalize_text_eq, normalized_eq. reflexivity. Qed.

Lemma unchanged_no_emoji (txt : str) : normalized txt = txt -> emoji_in txt = 0.
Proof.
  intros E. pose proof (normalized_length txt) as H1.
  pose proof (filter_split_length is_emoji txt) as H2.
  fold (without_emoji txt) in H2. fold (emoji_in txt) in H2.
  rewrite E in H1. lia.
Qed.

(** What the body of the file loop does to a document. *)
Lemma normalize_file_md (cw : str -> bool) (top fn : str) (txt : str)
    (st : nstate) :
  endswith fn (lit ".md") = true ->
  let fp := path_join top fn in
  let st2 := NState (count st + emoji_in txt) (modified_files st)
                    (read_log st ++ [fp]) (write_log st) in
  normalize_file cw top (fn, Some txt) st
  = if str_eqb (normalized txt) txt then NDone st2
    else if cw (fp ++ lit ".bak") then
      if cw fp then
        NDone (NState (count st2) (modified_files st ++ [fp]) (read_log st2)
                      ((write_log st ++ [(fp ++ lit ".bak", txt)])
                       ++ [(fp, normalized txt)]))
      else NRaised (NState (count st2) (modified_files st) (read_log st2)
                           (write_log st ++ [(fp ++ lit ".bak", txt)]))
    else NRaised st2.
Proof.
  intros Hmd fp st2. unfold normalize_file. rewrite Hmd. cbn [negb].
  cbn [count modified_files read_log write_log].
  rewrite normalize_text_split. fold fp.
  destruct (str_eqb (normalized txt) txt); reflexivity.
Qed.

Lemma normalize_file_backed_up (known : str -> str -> Prop)
    (cw : str -> bool) (top : str) (f : str * option str) (st : nstate) :
  (forall txt, snd f = Some txt -> known (path_join top (fst f)) txt) ->
  settled known st -> backed_up known (normalize_file cw top f st).
Proof.
  intros Hk H. destruct f as [fn [txt|]]; cbn [fst snd] in Hk.
  - destruct (endswith fn (lit ".md")) eqn:Hmd.
    + rewrite (normalize_file_md cw top fn txt st Hmd). cbv zeta.
      destruct (str_eqb (normalized txt) txt) eqn:E.
      * apply str_eqb_eq in E. cbn [backed_up]. unfold settled in *.
        cbn [count modified_files write_log].
        rewrite (unchanged_no_emoji txt E), Nat.add_0_r. exact H.
      * apply str_eqb_neq in E.
        destruct (cw (path_join top fn ++ lit ".bak")).
        -- destruct (cw (path_join top fn)); cbn [backed_up].
           ++ unfold settled in *. cbn [count modified_files write_log].
              rewrite <- app_assoc. cbn [app].
              apply rewrites_more; [exact H|exact (Hk txt eq_refl)|exact E].
           ++ exists (write_log st), (count st). split; [exact H|].
              right. exists (path_join top fn), txt.
              split; [exact (Hk txt eq_refl)|reflexivity].
        -- cbn [backed_up]. exists (write_log st), (count st).
           split; [exact H|left; reflexivity].
    + unfold normalize_file. rewrite Hmd. exact H.
  - unfold normalize_file. destruct (negb _); [exact H|].
    cbn [backed_up]. exists (write_log st), (count st).
    split; [exact H|left; reflexivity].
Qed.

(** A property of the outcome that every file of the tree keeps holds
    after the whole walk; [D] says what is known of a file from the tree:
    the path of its directory, its name and what reading it gives. *)
Section Outcome.

Variable cw : str -> bool.
Variables Qd Qr : nstate -> Prop.
Variable D : str -> str -> option str -> Prop.

Hypothesis file_keeps :
  forall top f st,
    D top (fst f) (snd f) -> Qd st -> keeps Qd Qr (normalize_file cw top f st).

Lemma normalize_files_keeps (top : str) (files : list (str * option str)) :
  Forall (fun f => D top (fst f) (snd f)) files ->
  forall st, Qd st -> keeps Qd Qr (normalize_files cw top files st).
Proof.
  induction 1 as [|f files Hf _ IH]; intros st H; [exact H|].
  cbn [normalize_files]. pose proof (file_keeps top f st Hf H) as H1.
  destruct (normalize_file cw top f st) as [s|s]; [apply IH|]; exact H1.
Qed.

Lemma nwalk_keeps (dir : node) :
  forall top st,
    (forall dirs fn c,
        has_file dir dirs fn c -> D (fold_left path_join dirs top) fn c) ->
    Qd st -> keeps Qd Qr (nwalk cw top dir st).
Proof.
  induction dir as [c|lb es IHes] using node_ind; intros top st HD H;
    [exact H|].
  destruct lb; [|exact H].
  rewrite nwalk_Dir.
  assert (H1 : keeps Qd Qr (if skipped_dirpath top then NDone st
                      else normalize_files cw top (walk_files es) st)).
  { destruct (skipped_dirpath top); [exact H|].
    apply normalize_files_keeps; [|exact H].
    apply Forall_forall. intros [fn c] Hin. cbn [fst snd].
    exact (HD [] fn c (walk_files_In es fn c Hin)). }
  destruct (if skipped_dirpath top then NDone st
            else normalize_files cw top (walk_files es) st) as [st1|st1];
    [|exact H1]. cbn [nbind keeps] in *. clear H.
  assert (HD' : forall d lb sub dirs fn c,
             In (d, Dir lb sub) es -> has_file (Dir lb sub) dirs fn c ->
             D (fold_left path_join dirs (path_join top d)) fn c).
  { intros d lb sub dirs fn c Hin Hf. apply (HD (d :: dirs) fn c).
    exists lb, sub. split; assumption. }
  clear HD. revert st1 H1.
  induction IHes as [|[d x] es Hx _ IH]; intros st1 H1; [exact H1|].
  assert (HDes : forall d lb sub dirs fn c,
             In (d, Dir lb sub) es -> has_file (Dir lb sub) dirs fn c ->
             D (fold_left path_join dirs (path_join top d)) fn c).
  { intros d0 lb sub dirs fn c Hin. apply HD'. right; exact Hin. }
  cbn [nwalk_subdirs]. destruct x as [c|lb sub]; [exact (IH HDes st1 H1)|].
  cbn [snd] in Hx.
  assert (H2 : keeps Qd Qr (nwalk cw (path_join top d) (Dir lb sub) st1)).
  { apply Hx; [|exact H1]. intros dirs fn c Hf.
    apply (HD' d lb sub dirs fn c); [left; reflexivity|exact Hf]. }
  destruct (nwalk cw (path_join top d) (Dir lb sub) st1) as [s|s];
    [exact (IH HDes s H2)|exact H2].
Qed.

End Outcome.

Lemma nscan_backed_up (w : world) (cw : str -> bool) (dir : node) :
  scanned w = Some dir -> backed_up (tree_doc dir) (normalize_scan w cw).
Proof.
  unfold scanned, normalize_scan.
  destruct (cwd_place w) as [[up d]|]; cbn [at_node option_map snd];
    [|discriminate].
  intros H. injection H as ->.
  apply (nwalk_keeps cw (settled (tree_doc dir)) (interrupted (tree_doc dir))
           (fun top fn c =>
              forall txt, c = Some txt -> tree_doc dir (path_join top fn) txt)).
  - intros top f st Hk. apply normalize_file_backed_up. exact Hk.
  - intros dirs fn c Hf txt ->. exists dirs, fn. split; [reflexivity|exact Hf].
  - constructor.
Qed.

(** X17.  When the normalizer ends, what it wrote is, for each document it
    lists as modified and in that order, the old text to the path with
    [.bak] appended and then the new text to the document.  Each of these
    is a file of the tree, in directories that can be listed, at the path
    the walk gives it; the text backed up is the text of that file, the
    text written is that text normalized, and differs from it; and
    [count] is the number of emoji in the old texts of these documents. *)
Theorem backup_then_rewrite (w : world) (cw : str -> bool) (dir : node)
    (st : nstate) :
  scanned w = Some dir ->
  normalize_scan w cw = NDone st ->
  rewrites (tree_doc dir) (write_log st) (modified_files st) (count st)
  /\ length (write_log st) = 2 * length (modified_files st).
Proof.
  intros Hdir H. pose proof (nscan_backed_up w cw dir Hdir) as Hb.
  rewrite H in Hb.
  cbn [backed_up] in Hb. unfold settled in Hb. split; [exact Hb|].
  induction Hb as [|ws ms n fp txt _ IH _ _]; [reflexivity|].
  rewrite !length_app. cbn [length]. lia.
Qed.

Lemma backup_then_rewrite_witness :
  rewrites (tree_doc (Dir true tidy_repo))
           [ (lit "./notes.md.bak", untidy_text);
             (lit "./notes.md", lit "Title" ++ [nl] ++ lit " done" ++ [nl]) ]
           [lit "./notes.md"] 1.
Proof.
  exact (proj1 (backup_then_rewrite tidy_world (fun _ => true)
                  (Dir true tidy_repo)
                  (nstate_of (normalize_scan tidy_world (fun _ => true)))
                  eq_refl eq_refl)).
Defined.

Lemma no_backup_no_write (cw : str -> bool) (top : str)
    (f : str * option str) (st : nstate) :
  (forall p, endswith p (lit ".bak") = true -> cw p = false) ->
  write_log st = [] ->
  write_log (nstate_of (normalize_file cw top f st)) = [].
Proof.
  intros Hcw H. destruct f as [fn [txt|]].
  - destruct (endswith fn (lit ".md")) eqn:Hmd.
    + rewrite (normalize_file_md cw top fn txt st Hmd). cbv zeta.
      destruct (str_eqb (normalized txt) txt); [exact H|].
      rewrite (Hcw _ (endswith_app (path_join top fn) (lit ".bak"))).
      exact H.
    + unfold normalize_file. rewrite Hmd. exact H.
  - unfold normalize_file. destruct (negb _); exact H.
Qed.

(** X18.  No document is rewritten without its backup: when a run is cut
    short by an exception, what it wrote is backup and new text for each
    document listed as modified, each a file of the tree backed up with
    its own text, and at most one more backup after them, again of a file
    of the tree with its text; and where no backup can be written,
    nothing is written at all. *)
Theorem never_rewritten_without_backup (w : world) (cw : str -> bool) :
  (forall dir st,
     scanned w = Some dir ->
     normalize_scan w cw = NRaised st ->
     exists ws n,
       rewrites (tree_doc dir) ws (modified_files st) n
       /\ (write_log st = ws
           \/ exists fp txt,
                tree_doc dir fp txt
                /\ write_log st = ws ++ [(fp ++ lit ".bak", txt)]))
  /\ ((forall p, endswith p (lit ".bak") = true -> cw p = false) ->
      write_log (nstate_of (normalize_scan w cw)) = []).
Proof.
  split.
  - intros dir st Hdir H. pose proof (nscan_backed_up w cw dir Hdir) as Hb.
    rewrite H in Hb. exact Hb.
  - intros Hcw. unfold normalize_scan.
    destruct (cwd_place w) as [[up dir]|]; [|reflexivity].
    pose proof (nwalk_keeps cw (fun st => write_log st = [])
                  (fun st => write_log st = []) (fun _ _ _ => True)) as Hk.
    assert (Hfile : forall top (f : str * option str) st,
               True -> write_log st = [] ->
               keeps (fun st => write_log st = [])
                     (fun st => write_log st = [])
                     (normalize_file cw top f st)).
    { intros top f st _ H. pose proof (no_backup_no_write cw top f st Hcw H).
      destruct (normalize_file cw top f st); assumption. }
    specialize (Hk Hfile dir (lit ".") ninitial (fun _ _ _ _ => I) eq_refl).
    destruct (nwalk cw (lit ".") dir ninitial); exact Hk.
Qed.

Lemma never_rewritten_without_backup_witness :
  normalize_docs tidy_world (fun p => negb (endswith p (lit ".bak")))
  = Traceback
  /\ write_log (nstate_of (normalize_scan tidy_world
                             (fun p => negb (endswith p (lit ".bak"))))) = [].
Proof.
  split; [reflexivity|].
  apply (proj2 (never_rewritten_without_backup tidy_world
                  (fun p => negb (endswith p (lit ".bak"))))).
  intros p Hp. rewrite Hp. reflexivity.
Defined.

End NormalizeWalk.

Section NormalizeExclusion.

Lemma contains_app_r (sub a b : str) :
  contains sub b = true -> contains sub (a ++ b) = true.
Proof.
  intros H. induction a as [|x a IH]; [exact H|].
  cbn [app contains]. rewrite IH. apply orb_true_r.
Qed.

Lemma startswith_app_keep (a b p : str) :
  startswith a p = true -> startswith (a ++ b) p = true.
Proof.
  intros H. apply startswith_prefix in H as [r ->].
  rewrite <- app_assoc. apply startswith_app.
Qed.

Lemma contains_app_l (sub a b : str) :
  contains sub a = true -> contains sub (a ++ b) = true.
Proof.
  induction a as [|x a IH]; intros H.
  - cbn [contains] in H. rewrite orb_false_r in H.
    destruct sub as [|y sub]; [|discriminate].
    destruct b; reflexivity.
  - cbn [app contains] in *. apply orb_true_iff in H as [H|H].
    + change (x :: a ++ b) with ((x :: a) ++ b).
      rewrite (startswith_app_keep _ b _ H). reflexivity.
    + rewrite (IH H). apply orb_true_r.
Qed.

Lemma path_join_forms (top d : str) :
  top <> [] -> valid_name d = true ->
  exists mid, path_join top d = (top ++ mid) ++ d.
Proof.
  intros Ht Hd. rewrite (path_join_name _ _ Ht Hd).
  destruct (endswith top [sep]); [exists []|exists [sep]];
    rewrite <- app_assoc; reflexivity.
Qed.

Lemma skipped_join (top d : str) :
  top <> [] -> valid_name d = true ->
  skipped_dirpath top = true \/ skipped_name d = true ->
  skipped_dirpath (path_join top d) = true /\ path_join top d <> [].
Proof.
  intros Ht Hd H. destruct (path_join_forms top d Ht Hd) as [mid ->].
  split; [|destruct top; [congruence|discriminate]].
  unfold skipped_dirpath, skipped_name in *.
  destruct H as [H|H]; apply orb_true_iff in H as [H|H]; apply orb_true_iff.
  - left. rewrite <- app_assoc. apply contains_app_l; exact H.
  - right. rewrite <- app_assoc. apply contains_app_l; exact H.
  - left. apply contains_app_r; exact H.
  - right. apply contains_app_r; exact H.
Qed.

(** A directory below one with [.git] or [node_modules] in its name has it
    in its path, at any depth. *)
Lemma skipped_fold (dirs : list str) :
  forall top,
    top <> [] -> Forall (fun d => valid_name d = true) dirs ->
    skipped_dirpath top = true \/ Exists (fun d => skipped_name d = true) dirs ->
    skipped_dirpath (fold_left path_join dirs top) = true.
Proof.
  induction dirs as [|d dirs IH]; intros top Ht Hv H.
  - destruct H as [H|H]; [exact H|inversion H].
  - inversion Hv as [|d' dirs' Hd Hv']; subst. cbn [fold_left].
    assert (Hne : path_join top d <> []).
    { destruct (path_join_forms top d Ht Hd) as [mid ->].
      destruct top; [congruence|discriminate]. }
    apply (IH _ Hne Hv').
    destruct H as [H|H].
    + left. apply (skipped_join top d Ht Hd). left; exact H.
    + inversion H as [d0 l Hs|d0 l Hex]; subst.
      * left. apply (skipped_join top d Ht Hd). right; exact Hs.
      * right. exact Hex.
Qed.

Lemma worked_root : worked_dir (lit ".").
Proof.
  split; [discriminate|]. split; [reflexivity|]. exists [].
  split; reflexivity.
Qed.

Lemma worked_join (top n : str) :
  worked_dir top -> valid_name n = true ->
  path_join top n = top ++ sep :: n
  /\ split sep (path_join top n) = split sep top ++ [n].
Proof.
  intros (Hne & He & _) Hn.
  rewrite (path_join_name _ _ Hne Hn), He. split; [reflexivity|].
  apply split_app_name. apply valid_name_spec in Hn; tauto.
Qed.

Lemma worked_sub (top d : str) :
  worked_dir top -> valid_name d = true -> worked_dir (path_join top d).
Proof.
  intros Ht Hd. destruct (worked_join top d Ht Hd) as [E S].
  destruct Ht as (Hne & He & dirs & Hfold & Hsplit).
  split; [rewrite E; destruct top; discriminate|]. split.
  - rewrite E. change (top ++ sep :: d) with (top ++ [sep] ++ d).
    rewrite app_assoc. apply endswith_sep_name; exact Hd.
  - exists (dirs ++ [d]). rewrite fold_left_snoc, <- Hfold, S, Hsplit.
    split; reflexivity.
Qed.

Lemma worked_open (top fn : str) :
  worked_dir top -> skipped_dirpath top = false ->
  valid_name fn = true -> endswith fn (lit ".md") = true ->
  worked_file (path_join top fn).
Proof.
  intros Ht Hs Hn Hmd. destruct (worked_join top fn Ht Hn) as [E S].
  destruct Ht as (Hne & He & dirs & Hfold & Hsplit). split.
  - rewrite E. change (top ++ sep :: fn) with (top ++ [sep] ++ fn).
    rewrite app_assoc. apply endswith_keep; exact Hmd.
  - exists dirs, fn. rewrite S, Hsplit, <- Hfold. split; [reflexivity|exact Hs].
Qed.

Section NInvariant.

Variable cw : str -> bool.
Variable Q : nstate -> Prop.
Variable G : str -> Prop.

Hypothesis file_step :
  forall top f st,
    G top -> skipped_dirpath top = false -> valid_name (fst f) = true ->
    Q st -> Q (nstate_of (normalize_file cw top f st)).

Hypothesis dir_step :
  forall top d, G top -> valid_name d = true -> G (path_join top d).

Lemma normalize_files_inv (files : list (str * option str)) (top : str)
    (st : nstate) :
  G top -> skipped_dirpath top = false ->
  Forall (fun f => valid_name (fst f) = true) files -> Q st ->
  Q (nstate_of (normalize_files cw top files st)).
Proof.
  intros HG Hs HV. revert st.
  induction HV as [|f files Hf HV IH]; intros st HQ; [exact HQ|].
  cbn [normalize_files]. rewrite nstate_of_nbind.
  pose proof (file_step top f st HG Hs Hf HQ) as H.
  destruct (normalize_file cw top f st) as [s|s]; [apply IH|]; exact H.
Qed.

Lemma nwalk_inv (dir : node) :
  forall top st,
    wf_node dir = true -> G top -> Q st ->
    Q (nstate_of (nwalk cw top dir st)).
Proof.
  induction dir as [c|lb es IHes] using node_ind; intros top st Hwf HG HQ;
    [exact HQ|].
  destruct lb; [|exact HQ].
  rewrite nwalk_Dir, nstate_of_nbind. rewrite wf_node_Dir in Hwf.
  assert (H1 : Q (nstate_of (if skipped_dirpath top then NDone st
                             else normalize_files cw top (walk_files es) st))).
  { destruct (skipped_dirpath top) eqn:Hs; [exact HQ|].
    apply normalize_files_inv; try assumption.
    apply wf_entries_files; exact Hwf. }
  destruct (if skipped_dirpath top then NDone st
            else normalize_files cw top (walk_files es) st) as [st1|st1];
    [|exact H1]. cbn [nstate_of] in H1.
  clear HQ st. revert st1 H1. unfold wf_entries in Hwf.
  induction IHes as [|[d x] es Hx _ IH]; intros st HQ; [exact HQ|].
  cbn [forallb fst snd] in Hwf.
  apply andb_true_iff in Hwf as [Hdx Hes].
  apply andb_true_iff in Hdx as [Hd Hwx].
  cbn [nwalk_subdirs]. destruct x as [c|lb sub]; [exact (IH Hes st HQ)|].
  rewrite nstate_of_nbind. cbn [snd] in Hx.
  pose proof (Hx (path_join top d) st Hwx (dir_step top d HG Hd) HQ) as H2.
  destruct (nwalk cw (path_join top d) (Dir lb sub) st) as [s|s];
    [exact (IH Hes s H2)|exact H2].
Qed.

End NInvariant.

Lemma normalize_file_logs (cw : str -> bool) (top : str)
    (f : str * option str) (st : nstate) :
  worked_dir top -> skipped_dirpath top = false ->
  valid_name (fst f) = true ->
  reads_and_writes_ok st ->
  reads_and_writes_ok (nstate_of (normalize_file cw top f st)).
Proof.
  intros Ht Hs Hv [Hr Hw]. destruct f as [fn content]. cbn [fst] in Hv.
  destruct (endswith fn (lit ".md")) eqn:Hmd;
    [|unfold normalize_file; rewrite Hmd; split; assumption].
  set (fp := path_join top fn).
  assert (Hr' : Forall worked_file (read_log st ++ [fp])).
  { apply Forall_app. split; [exact Hr|].
    constructor; [apply worked_open; assumption|constructor]. }
  assert (Hw' : Forall (fun pt => exists fp0,
                          In fp0 (read_log st ++ [fp])
                          /\ (fst pt = fp0 \/ fst pt = fp0 ++ lit ".bak"))
                       (write_log st)).
  { eapply Forall_impl; [|exact Hw]. intros pt (fp0 & Hin & H).
    exists fp0. split; [apply in_or_app; left; exact Hin|exact H]. }
  assert (Hin : In fp (read_log st ++ [fp]))
    by (apply in_or_app; right; left; reflexivity).
  destruct content as [txt|].
  - rewrite (normalize_file_md cw top fn txt st Hmd). cbv zeta. fold fp.
    destruct (str_eqb (normalized txt) txt); [split; assumption|].
    destruct (cw (fp ++ lit ".bak")); [|split; assumption].
    assert (Hw2 : Forall (fun pt => exists fp0,
                            In fp0 (read_log st ++ [fp])
                            /\ (fst pt = fp0 \/ fst pt = fp0 ++ lit ".bak"))
                         (write_log st ++ [(fp ++ lit ".bak", txt)])).
    { apply Forall_app. split; [exact Hw'|].
      constructor; [|constructor]. exists fp. split; [exact Hin|].
      right; reflexivity. }
    destruct (cw fp); cbn [nstate_of]; split; cbn [read_log write_log];
      try assumption.
    apply Forall_app. split; [exact Hw2|].
    constructor; [|constructor]. exists fp. split; [exact Hin|].
    left; reflexivity.
  - unfold normalize_file. rewrite Hmd. cbn [negb nstate_of].
    split; assumption.
Qed.

Lemma nscan_logs (w : world) (cw : str -> bool) :
  wf_world w = true ->
  reads_and_writes_ok (nstate_of (normalize_scan w cw)).
Proof.
  unfold wf_world, scanned, normalize_scan.
  destruct (cwd_place w) as [[up dir]|]; cbn [at_node option_map snd];
    [|intros _; split; constructor].
  intros Hwf.
  apply (nwalk_inv cw reads_and_writes_ok worked_dir).
  - intros top f st. apply normalize_file_logs.
  - apply worked_sub.
  - exact Hwf.
  - exact worked_root.
  - split; constructor.
Qed.

Lemma md_is_no_bak (s : str) :
  endswith s (lit ".md") = true -> endswith s (lit ".bak") = true -> False.
Proof.
  unfold endswith. cbn [lit list_ascii_of_string map rev app].
  destruct (rev s) as [|c r]; [discriminate|].
  cbn [startswith]. intros H1 H2.
  apply andb_true_iff in H1 as [H1 _]. apply andb_true_iff in H2 as [H2 _].
  apply N.eqb_eq in H1, H2. subst c. discriminate.
Qed.

(** X19.  The normalizer leaves alone every directory with [.git] or
    [node_modules] anywhere in its path, [.github] among them, however
    deep: no file there is read, no document there is rewritten and no
    backup is made there.  Every path read ends in [.md], and every write
    goes to a path read or to it with [.bak] appended. *)
Theorem git_and_node_modules_untouched (w : world) (cw : str -> bool) :
  wf_world w = true ->
  let final := nstate_of (normalize_scan w cw) in
  (forall dirs fn,
      Forall (fun d => valid_name d = true) dirs -> valid_name fn = true ->
      Exists (fun d => skipped_name d = true) dirs ->
      ~ In (walk_path dirs fn) (read_log final)
      /\ (endswith fn (lit ".md") = true ->
          forall t, ~ In (walk_path dirs fn, t) (write_log final)
                    /\ ~ In (walk_path dirs fn ++ lit ".bak", t)
                            (write_log final)))
  /\ (forall fp, In fp (read_log final) -> endswith fp (lit ".md") = true)
  /\ (forall p t, In (p, t) (write_log final) ->
        exists fp, In fp (read_log final)
                   /\ (p = fp \/ p = fp ++ lit ".bak")).
Proof.
  intros Hwf final. destruct (nscan_logs w cw Hwf) as [Hr Hw].
  fold final in Hr, Hw. rewrite Forall_forall in Hr, Hw.
  assert (Hwrites : forall p t, In (p, t) (write_log final) ->
            exists fp, In fp (read_log final)
                       /\ (p = fp \/ p = fp ++ lit ".bak")).
  { intros p t Hin. exact (Hw (p, t) Hin). }
  assert (Hnot : forall dirs fn,
            Forall (fun d => valid_name d = true) dirs ->
            valid_name fn = true ->
            Exists (fun d => skipped_name d = true) dirs ->
            ~ In (walk_path dirs fn) (read_log final)).
  { intros dirs fn Hd Hfn Hex Hin.
    destruct (Hr _ Hin) as (_ & dirs' & fn' & Hsplit & Hs).
    rewrite (walk_path_split dirs fn Hd Hfn) in Hsplit.
    injection Hsplit as Hsplit. apply app_inj_tail in Hsplit as [<- _].
    rewrite (skipped_fold dirs (lit ".")) in Hs;
      [discriminate|discriminate|exact Hd|right; exact Hex]. }
  split; [|split; [|exact Hwrites]].
  - intros dirs fn Hd Hfn Hex. split; [exact (Hnot dirs fn Hd Hfn Hex)|].
    intros Hmd t.
    assert (Hpath : endswith (walk_path dirs fn) (lit ".md") = true).
    { unfold walk_path.
      assert (Hne : fold_left path_join dirs ROOT <> []).
      { clear -Hd. assert (H : ROOT <> []) by discriminate. revert H.
        generalize ROOT. induction Hd as [|d dirs Hv _ IH]; intros top Ht;
          [exact Ht|].
        cbn [fold_left]. apply IH.
        destruct (path_join_forms top d Ht Hv) as [mid ->].
        destruct top; [congruence|discriminate]. }
      destruct (path_join_forms _ fn Hne Hfn) as [mid ->].
      apply endswith_keep; exact Hmd. }
    split; intros Hin; destruct (Hwrites _ _ Hin) as (fp & Hfp & [E|E]).
    + rewrite <- E in Hfp. exact (Hnot dirs fn Hd Hfn Hex Hfp).
    + rewrite E in Hpath.
      exact (md_is_no_bak _ Hpath (endswith_app fp (lit ".bak"))).
    + pose proof (proj1 (Hr _ Hfp)) as Hmd'. rewrite <- E in Hmd'.
      exact (md_is_no_bak _ Hmd' (endswith_app _ (lit ".bak"))).
    + apply app_inv_tail in E. rewrite <- E in Hfp.
      exact (Hnot dirs fn Hd Hfn Hex Hfp).
  - intros fp Hin. exact (proj1 (Hr _ Hin)).
Qed.

Lemma git_and_node_modules_untouched_witness :
  ~ In (lit "./.github/ci.md")
       (read_log (nstate_of (normalize_scan tidy_world (fun _ => true))))
  /\ ~ In (lit "./node_modules/pkg.md")
          (read_log (nstate_of (normalize_scan tidy_world (fun _ => true)))).
Proof.
  split.
  - apply (proj1 (git_and_node_modules_untouched tidy_world (fun _ => true)
                    eq_refl) [lit ".github"] (lit "ci.md")).
    + constructor; [reflexivity|constructor].
    + reflexivity.
    + left; reflexivity.
  - apply (proj1 (git_and_node_modules_untouched tidy_world (fun _ => true)
                    eq_refl) [lit "node_modules"] (lit "pkg.md")).
    + constructor; [reflexivity|constructor].
    + reflexivity.
    + left; reflexivity.
Defined.

End NormalizeExclusion.
